(** * tolog: the asynchronous buffered log writer

    A shallow embedding of [tolog.go] (package [tolog]) and the properties of
    its formatter, its configuration setters and its channel-based writer.

    Go strings are byte sequences: they are modelled by [string] (a list of
    8-bit [ascii] characters).  Package-level variables become the fields of
    a record that is passed explicitly; the two goroutines (the caller and
    [writeToFile]) become a labelled transition system whose steps are the
    code between two blocking operations. *)

From Stdlib Require Import Ascii ZArith.
From stdpp Require Import base tactics option list strings gmap.

(** ** Strings *)

Module Str.

(** [strings.HasPrefix s p], recursive on the prefix so that it evaluates
    on a literal prefix in front of an unknown string. *)
Fixpoint hasPrefix (p s : string) : bool :=
  match p with
  | EmptyString => true
  | String a p' =>
      match s with
      | EmptyString => false
      | String b s' => if Ascii.eqb a b then hasPrefix p' s' else false
      end
  end.

(** The scan of [strings.ReplaceAll s old new] for a non-empty [old]:
    occurrences are found from left to right and do not overlap.  [skip]
    counts the bytes of the current occurrence that are still to be
    dropped. *)
Fixpoint replaceFrom (old new : string) (skip : nat) (s : string) : string :=
  match s with
  | EmptyString => EmptyString
  | String c s' =>
      match skip with
      | S k => replaceFrom old new k s'
      | O =>
          if hasPrefix old s
          then new +:+ replaceFrom old new (String.length old - 1) s'
          else String c (replaceFrom old new 0 s')
      end
  end.

(** [strings.ReplaceAll].  Every call of the program passes a non-empty
    [old]; for an empty [old] Go inserts [new] around every UTF-8
    sequence, which is not modelled: the string is returned as it is. *)
Definition ReplaceAll (s old new : string) : string :=
  match old with
  | EmptyString => s
  | _ => replaceFrom old new 0 s
  end.

(** [strings.Join l sep]. *)
Definition Join (l : list string) (sep : string) : string :=
  String.concat sep l.

(** [strings.Contains s sub]. *)
Fixpoint Contains (s sub : string) : bool :=
  hasPrefix sub s ||
  match s with
  | EmptyString => false
  | String _ s' => Contains s' sub
  end.

(** Membership of a byte. *)
Fixpoint mem (c : ascii) (s : string) : bool :=
  match s with
  | EmptyString => false
  | String b s' => Ascii.eqb c b || mem c s'
  end.

End Str.

(** ** Log levels, colour codes and the formatter *)

Definition LogStatus := string.

Definition StatusInfo    : LogStatus := "info".
Definition StatusWarning : LogStatus := "warning".
Definition StatusError   : LogStatus := "error".
Definition StatusDebug   : LogStatus := "debug".
Definition StatusNotice  : LogStatus := "notice".
Definition StatusUnknown : LogStatus := "unknown".

(** The escape byte [\033]. *)
Definition ESC : ascii := "027"%char.
Definition NL : ascii := "010"%char.

Definition colorInfoBg    : string := String ESC "[48;5;27m".
Definition colorWarningBg : string := String ESC "[48;5;226m".
Definition colorErrorBg   : string := String ESC "[48;5;196m".
Definition colorDebugBg   : string := String ESC "[48;5;45m".
Definition colorNoticeBg  : string := String ESC "[48;5;165m".
Definition colorReset     : string := String ESC "[0m".

Record ToLog := mkToLog {
  logType    : LogStatus;
  logContext : string;
  logTime    : string;
  FullLog    : string
}.

(** [var replacements]: the pairs (old, new). *)
Definition replacements : list (string * string) :=
  [ (colorInfoBg, ""); (colorWarningBg, ""); (colorErrorBg, "");
    (colorDebugBg, ""); (colorNoticeBg, ""); (colorReset, "") ].

(** [stripColors]: the replacements are applied one after the other. *)
Definition stripColors (log : string) : string :=
  fold_left (fun log r => Str.ReplaceAll log r.1 r.2) replacements log.

(** The [switch] of [CreateFullLog]. *)
Definition bgColorOf (t : LogStatus) : string :=
  if String.eqb t StatusInfo then colorInfoBg
  else if String.eqb t StatusWarning then colorWarningBg
  else if String.eqb t StatusError then colorErrorBg
  else if String.eqb t StatusDebug then colorDebugBg
  else if String.eqb t StatusNotice then colorNoticeBg
  else "".

(** [CreateFullLog]; [withColor] is the global [LogWithColor]. *)
Definition CreateFullLog (withColor : bool) (l : ToLog) : ToLog :=
  if negb withColor then
    let fullLog := "[" +:+ logTime l +:+ "] [" +:+ logType l +:+ "] " +:+ " " +:+ logContext l in
    mkToLog (logType l) (logContext l) (logTime l) fullLog
  else
    let bgColor := bgColorOf (logType l) in
    let fullLog := "[" +:+ logTime l +:+ "] " +:+ bgColor +:+ " " +:+ logType l +:+ " "
                   +:+ colorReset +:+ " " +:+ logContext l in
    mkToLog (logType l) (logContext l) (logTime l) fullLog.

(** The test shared by [WithType] and [Type]: one of the five known levels. *)
Definition isLevel (level : string) : bool :=
  String.eqb level StatusInfo || String.eqb level StatusWarning
  || String.eqb level StatusError || String.eqb level StatusNotice
  || String.eqb level StatusDebug.

(** [WithType level], the option applied to a record. *)
Definition WithType (withColor : bool) (level : LogStatus) (l : ToLog) : ToLog :=
  let level := if negb (isLevel level) then StatusUnknown else level in
  CreateFullLog withColor (mkToLog level (logContext l) (logTime l) (FullLog l)).

(** [WithContext ctx]. *)
Definition WithContext (ctx : string) (l : ToLog) : ToLog :=
  mkToLog (logType l) ctx (logTime l) (FullLog l).

Section Type_method.
(** [strings.ToLower] belongs to Go's library (it follows the Unicode case
    tables); the method is stated over any such function. *)
Variable ToLower : string -> string.

(** [(l *ToLog) Type(le)]. *)
Definition Type_ (withColor : bool) (le : string) (l : ToLog) : ToLog :=
  let level := ToLower le in
  let level := if negb (isLevel level) then StatusUnknown else level in
  CreateFullLog withColor (mkToLog level (logContext l) (logTime l) (FullLog l)).
End Type_method.

(** ASCII lower-casing: what [strings.ToLower] does on ASCII input. *)
Definition lowerAscii (c : ascii) : ascii :=
  let n := nat_of_ascii c in
  if (65 <=? n) && (n <=? 90) then ascii_of_nat (n + 32) else c.

Fixpoint ToLowerASCII (s : string) : string :=
  match s with
  | EmptyString => EmptyString
  | String c s' => String (lowerAscii c) (ToLowerASCII s')
  end.

(** ** The shared state: package variables, file system, console *)

(** A buffered [chan string]. *)
Record Chan := mkChan {
  items  : list string;
  cap    : Z;
  closed : bool
}.

(** What the program does to the outside, in order. *)
Inductive Event :=
| EvPrintln (msg : string)              (* fmt.Println *)
| EvMkdir (dir : string)                (* os.Mkdir *)
| EvOpen (path : string)                (* os.OpenFile *)
| EvWrite (path : string) (data : string) (* logFile.WriteString *)
| EvFileClose (path : string)           (* logFile.Close *)
| EvChanClose (name : string)           (* close(ch) *)
| EvSend (line : string)                (* writeChannel <- line *)
| EvRecv (line : string).               (* <-writeChannel *)

Record Shared := mkShared {
  LogfilePrefix   : string;
  LogWithColor    : bool;
  currentLogDate  : string;
  logFile         : option string;   (* nil, or the handle: the path it was opened on *)
  isLogFileClosed : bool;
  channelSize     : Z;
  writeChannel    : option Chan;     (* nil, or the channel *)
  closeChannel    : option bool;     (* nil, or whether [chan struct{}] has been closed *)
  wg              : nat;             (* counter of the [sync.WaitGroup] *)
  logsDir         : bool;            (* does [./logs] exist *)
  files           : gmap string string;
  events          : list Event
}.

Definition set_prefix (p : string) (sh : Shared) : Shared :=
  mkShared p (LogWithColor sh) (currentLogDate sh) (logFile sh) (isLogFileClosed sh)
    (channelSize sh) (writeChannel sh) (closeChannel sh) (wg sh) (logsDir sh) (files sh) (events sh).
Definition set_color (b : bool) (sh : Shared) : Shared :=
  mkShared (LogfilePrefix sh) b (currentLogDate sh) (logFile sh) (isLogFileClosed sh)
    (channelSize sh) (writeChannel sh) (closeChannel sh) (wg sh) (logsDir sh) (files sh) (events sh).
Definition set_date (d : string) (sh : Shared) : Shared :=
  mkShared (LogfilePrefix sh) (LogWithColor sh) d (logFile sh) (isLogFileClosed sh)
    (channelSize sh) (writeChannel sh) (closeChannel sh) (wg sh) (logsDir sh) (files sh) (events sh).
Definition set_file (f : option string) (c : bool) (sh : Shared) : Shared :=
  mkShared (LogfilePrefix sh) (LogWithColor sh) (currentLogDate sh) f c
    (channelSize sh) (writeChannel sh) (closeChannel sh) (wg sh) (logsDir sh) (files sh) (events sh).
Definition set_size (n : Z) (sh : Shared) : Shared :=
  mkShared (LogfilePrefix sh) (LogWithColor sh) (currentLogDate sh) (logFile sh) (isLogFileClosed sh)
    n (writeChannel sh) (closeChannel sh) (wg sh) (logsDir sh) (files sh) (events sh).
Definition set_wchan (c : option Chan) (sh : Shared) : Shared :=
  mkShared (LogfilePrefix sh) (LogWithColor sh) (currentLogDate sh) (logFile sh) (isLogFileClosed sh)
    (channelSize sh) c (closeChannel sh) (wg sh) (logsDir sh) (files sh) (events sh).
Definition set_cchan (c : option bool) (sh : Shared) : Shared :=
  mkShared (LogfilePrefix sh) (LogWithColor sh) (currentLogDate sh) (logFile sh) (isLogFileClosed sh)
    (channelSize sh) (writeChannel sh) c (wg sh) (logsDir sh) (files sh) (events sh).
Definition set_wg (n : nat) (sh : Shared) : Shared :=
  mkShared (LogfilePrefix sh) (LogWithColor sh) (currentLogDate sh) (logFile sh) (isLogFileClosed sh)
    (channelSize sh) (writeChannel sh) (closeChannel sh) n (logsDir sh) (files sh) (events sh).
Definition set_dir (b : bool) (sh : Shared) : Shared :=
  mkShared (LogfilePrefix sh) (LogWithColor sh) (currentLogDate sh) (logFile sh) (isLogFileClosed sh)
    (channelSize sh) (writeChannel sh) (closeChannel sh) (wg sh) b (files sh) (events sh).
Definition set_files (m : gmap string string) (sh : Shared) : Shared :=
  mkShared (LogfilePrefix sh) (LogWithColor sh) (currentLogDate sh) (logFile sh) (isLogFileClosed sh)
    (channelSize sh) (writeChannel sh) (closeChannel sh) (wg sh) (logsDir sh) m (events sh).
Definition emit (e : Event) (sh : Shared) : Shared :=
  mkShared (LogfilePrefix sh) (LogWithColor sh) (currentLogDate sh) (logFile sh) (isLogFileClosed sh)
    (channelSize sh) (writeChannel sh) (closeChannel sh) (wg sh) (logsDir sh) (files sh)
    (events sh ++ [e]).

(** The bytes of a file; a file that does not exist has none. *)
Definition content (sh : Shared) (path : string) : string :=
  default "" (files sh !! path).

(** What the environment answers during one step: the clock, read through
    [time.Now().In(LogTimeZone).Format(string(logFileDateFormat))], and the
    errors of the system calls ([None]: success).  A failing write reports
    how many bytes reached the file before the error. *)
Record Env := mkEnv {
  env_today : string;
  env_mkdir : option string;
  env_open  : option string;
  env_write : option (nat * string);
  env_close : option string
}.

(** [SetLogWithColor], [SetLogChannelSize]. *)
Definition SetLogWithColor (flag : bool) (sh : Shared) : Shared :=
  set_color flag sh.

Definition SetLogChannelSize (size : Z) (sh : Shared) : Shared :=
  if (size <? 101)%Z then sh else set_size size sh.

(** [logFile.WriteString(data)]: on a nil handle the call returns
    [os.ErrInvalid]; the file is opened with [O_APPEND]. *)
Definition WriteString (env : Env) (data : string) (sh : Shared) : Shared * option string :=
  match logFile sh with
  | None => (sh, Some "invalid argument")
  | Some path =>
      match env_write env with
      | None =>
          (emit (EvWrite path data)
             (set_files (<[path := content sh path +:+ data]> (files sh)) sh), None)
      | Some (n, err) =>
          let part := String.substring 0 n data in
          (emit (EvWrite path part)
             (set_files (<[path := content sh path +:+ part]> (files sh)) sh), Some err)
      end
  end.

(** The path computed by [initLog]. *)
Definition logFilePath (prefix currentDay : string) : string :=
  if negb (String.eqb prefix "")
  then "./logs/" +:+ prefix +:+ "-log-" +:+ currentDay +:+ ".log"
  else "./logs/log-" +:+ currentDay +:+ ".log".

(** ** The goroutines *)

(** [CloseLogFile] blocks in [wg.Wait()] and is called by the user, by
    [SetLogPrefix] and, through [checkLogFileDate], by the consumer itself.
    A stage names the statement that a goroutine inside [CloseLogFile]
    executes next. *)
Inductive CloseStage :=
| ClEntry        (* the guard, then close(closeChannel) *)
| ClCloseWrite   (* if writeChannel != nil { close(writeChannel) } *)
| ClWait.        (* wg.Wait(), logFile.Close() and the two assignments *)

(** What the user's goroutine does when [CloseLogFile] returns. *)
Inductive AfterClose :=
| ARet           (* CloseLogFile was the call *)
| AInit.         (* SetLogPrefix goes on with initLog() *)

Inductive MainPc :=
| MIdle                                   (* between two calls *)
| MSend (line : string)                   (* blocked in writeChannel <- line *)
| MClose (st : CloseStage) (k : AfterClose).

(** Where [writeToFile] goes on after a [flushBuffer]. *)
Inductive Kont :=
| KSelect        (* back to the select *)
| KDrain         (* the loop for len(writeChannel) > 0 *)
| KExit.         (* return, running the deferred wg.Done() *)

Inductive ConsPc :=
| CSelect                                 (* waiting in the select *)
| CDrain                                  (* in case <-closeChannel, at the loop *)
| CRotate (st : CloseStage) (k : Kont)    (* in flushBuffer, inside checkLogFileDate's CloseLogFile *)
| CDone.                                  (* returned *)

(** A [writeToFile] goroutine with its local [buffer]. *)
Record Consumer := mkConsumer {
  buffer : list string;
  cpc    : ConsPc
}.

Record Sys := mkSys {
  sh        : Shared;
  mainpc    : MainPc;
  consumers : list Consumer
}.

Definition with_sh (x : Shared) (s : Sys) : Sys := mkSys x (mainpc s) (consumers s).
Definition with_main (pc : MainPc) (s : Sys) : Sys := mkSys (sh s) pc (consumers s).
Definition with_cons (i : nat) (c : Consumer) (s : Sys) : Sys :=
  mkSys (sh s) (mainpc s) (<[i := c]> (consumers s)).

Inductive Result :=
| Next (s : Sys)
| Panic (msg : string)      (* a run-time panic: the process dies *)
| Fatal (msg : string)      (* log.Fatal: the process exits *)
| Disabled.                 (* the goroutine cannot move: it is blocked *)

(** The largest capacity that [make(chan string, size)] accepts.  The
    runtime's [makechan] panics with [makechan: size out of range] when the
    size is negative or when the buffer, 16 bytes for each string, passes
    [maxAlloc - hchanSize]; the figures are those of a 64-bit platform with
    48 address bits (linux/amd64): [maxAlloc = 2^48], [hchanSize = 96] (the
    channel header has grown to 104 bytes in Go 1.23, which takes one off the
    limit).  A size within the limit for which the machine has no memory
    ends the process with the runtime's out-of-memory error; as every
    failure of an allocation, this is outside the model. *)
Definition maxChanCap : Z := (2 ^ 48 - 96) / 16.

Definition makechan_ok (size : Z) : bool :=
  (0 <=? size)%Z && (size <=? maxChanCap)%Z.

Arguments maxChanCap : simpl never.
Arguments makechan_ok : simpl never.

(** [initLog].  The result carries the returned error.  [make] panics on a
    size that [makechan] refuses. *)
Inductive InitOut :=
| InitOk (s : Sys)
| InitErr (s : Sys) (err : string)
| InitPanic (msg : string).

Definition initLog (env : Env) (s : Sys) : InitOut :=
  let currentDay := env_today env in
  let logFilePath := logFilePath (LogfilePrefix (sh s)) currentDay in
  let g := set_date currentDay (sh s) in
  let logDir := "./logs" in
  let mk :=
    if negb (logsDir g) then
      match env_mkdir env with
      | Some err =>
          inr (emit (EvPrintln ("[error] Failed to create logs directory: " +:+ err)) g, err)
      | None => inl (emit (EvMkdir logDir) (set_dir true g))
      end
    else inl g in
  match mk with
  | inr (g, err) => InitErr (with_sh g s) err
  | inl g =>
      match env_open env with
      | Some err => InitErr (with_sh (emit (EvPrintln ("[error] " +:+ err)) g) s) err
      | None =>
          let g := emit (EvOpen logFilePath)
                     (set_files (<[logFilePath := content g logFilePath]> (files g)) g) in
          let g := set_file (Some logFilePath) false g in
          if negb (makechan_ok (channelSize g)) then InitPanic "makechan: size out of range"
          else
            let g := set_wchan (Some (mkChan [] (channelSize g) false)) g in
            let g := set_cchan (Some false) g in
            let g := set_wg (S (wg g)) g in
            InitOk (mkSys g (mainpc s) (consumers s ++ [mkConsumer [] CSelect]))
      end
  end.

(** One stage of [CloseLogFile].  [log.Fatal] formats as [fmt.Print]: no
    space is put between the message, a string, and the error. *)
Inductive CloseOut :=
| CoReturn (g : Shared)
| CoNext (st : CloseStage) (g : Shared)
| CoPanic (msg : string)
| CoFatal (msg : string)
| CoBlocked.

Definition CloseLogFile_step (env : Env) (st : CloseStage) (g : Shared) : CloseOut :=
  match st with
  | ClEntry =>
      if bool_decide (logFile g = None) || isLogFileClosed g then CoReturn g
      else
        match closeChannel g with
        | None => CoPanic "close of nil channel"
        | Some true => CoPanic "close of closed channel"
        | Some false => CoNext ClCloseWrite (emit (EvChanClose "closeChannel") (set_cchan (Some true) g))
        end
  | ClCloseWrite =>
      match writeChannel g with
      | None => CoNext ClWait g
      | Some ch =>
          if closed ch then CoPanic "close of closed channel"
          else CoNext ClWait (emit (EvChanClose "writeChannel")
                                (set_wchan (Some (mkChan (items ch) (cap ch) true)) g))
      end
  | ClWait =>
      match wg g with
      | S _ => CoBlocked
      | O =>
          match logFile g with
          | None => CoFatal "Failed to close log file:invalid argument"
          | Some path =>
              match env_close env with
              | Some err => CoFatal ("Failed to close log file:" +:+ err)
              | None => CoReturn (set_file None true (emit (EvFileClose path) g))
              end
          end
      end
  end.

(** [writeChannel <- line]: blocked when the send cannot proceed now.  The
    channel is buffered: [initLog] makes it with [channelSize], which is 300
    or a value above 100; the rendezvous of a channel of capacity 0 is not
    modelled. *)
Inductive SendOut :=
| SendOk (g : Shared)
| SendBlocked
| SendPanic (msg : string).

Definition send (line : string) (g : Shared) : SendOut :=
  match writeChannel g with
  | None => SendBlocked
  | Some ch =>
      if closed ch then SendPanic "send on closed channel"
      else if (Z.of_nat (length (items ch)) <? cap ch)%Z
      then SendOk (emit (EvSend line)
                     (set_wchan (Some (mkChan (items ch ++ [line]) (cap ch) false)) g))
      else SendBlocked
  end.

(** [<-writeChannel]: the oldest line, or the zero value once the channel is
    closed and empty. *)
Definition recv (g : Shared) : option (string * Shared) :=
  match writeChannel g with
  | None => None
  | Some ch =>
      match items ch with
      | e :: rest =>
          Some (e, emit (EvRecv e) (set_wchan (Some (mkChan rest (cap ch) (closed ch))) g))
      | [] => if closed ch then Some ("", emit (EvRecv "") g) else None
      end
  end.

(** [len(writeChannel)]; the length of a nil channel is 0. *)
Definition chan_len (g : Shared) : nat :=
  match writeChannel g with
  | None => 0
  | Some ch => length (items ch)
  end.

(** [flushBuffer] after [checkLogFileDate]: join, strip, write, clear. *)
Definition flush_write (env : Env) (g : Shared) (buffer : list string) : Shared * list string :=
  let data := Str.Join buffer "" in
  let data := if LogWithColor g then stripColors data else data in
  match WriteString env data g with
  | (g, Some err) => (emit (EvPrintln ("[error] " +:+ err)) g, buffer)
  | (g, None) => (g, [])
  end.

(** [checkLogFileDate]'s test. *)
Definition dateChanged (env : Env) (g : Shared) : bool :=
  negb (String.eqb (currentLogDate g) (env_today env)).

(** After a [flushBuffer], consumer [i] goes on at [k]. *)
Definition resume (k : Kont) (buffer : list string) (i : nat) (s : Sys) : Result :=
  match k with
  | KSelect => Next (with_cons i (mkConsumer buffer CSelect) s)
  | KDrain => Next (with_cons i (mkConsumer buffer CDrain) s)
  | KExit =>
      match wg (sh s) with
      | O => Panic "sync: negative WaitGroup counter"
      | S n => Next (with_cons i (mkConsumer buffer CDone) (with_sh (set_wg n (sh s)) s))
      end
  end.

(** [flushBuffer(&buffer)] run by consumer [i].  When [checkLogFileDate]
    sees another date the consumer enters [CloseLogFile]; otherwise the
    batch is written in this step. *)
Definition flushBuffer (env : Env) (k : Kont) (buffer : list string) (i : nat) (s : Sys) : Result :=
  if dateChanged env (sh s)
  then Next (with_cons i (mkConsumer buffer (CRotate ClEntry k)) s)
  else
    let '(g, buffer) := flush_write env (sh s) buffer in
    resume k buffer i (with_sh g s).

(** Consumer [i] inside [checkLogFileDate]: a stage of [CloseLogFile], and
    when it returns, [initLog()] and the rest of [flushBuffer]. *)
Definition rotate_step (env : Env) (st : CloseStage) (k : Kont) (buffer : list string)
    (i : nat) (s : Sys) : Result :=
  match CloseLogFile_step env st (sh s) with
  | CoNext st' g => Next (with_cons i (mkConsumer buffer (CRotate st' k)) (with_sh g s))
  | CoReturn g =>
      match initLog env (with_sh g s) with
      | InitPanic m => Panic m
      | InitOk s' | InitErr s' _ =>
          let '(g, buffer) := flush_write env (sh s') buffer in
          resume k buffer i (with_sh g s')
      end
  | CoPanic m => Panic m
  | CoFatal m => Fatal m
  | CoBlocked => Disabled
  end.

(** The count threshold of [writeToFile]. *)
Definition threshold : nat := 100.

(** [buffer = append(buffer, logEntry); if len(buffer) >= 100 { flushBuffer }],
    going on at [k]. *)
Definition append_entry (env : Env) (k : Kont) (buffer : list string) (e : string)
    (i : nat) (s : Sys) : Result :=
  let buffer := buffer ++ [e] in
  if threshold <=? length buffer
  then flushBuffer env k buffer i s
  else Next (with_cons i (mkConsumer buffer match k with KSelect => CSelect | _ => CDrain end) s).

(** The branches of the select and the steps of the shutdown path. *)
Inductive CAct :=
| ARecv          (* case logEntry := <-writeChannel *)
| ATick          (* case <-ticker.C *)
| AQuit          (* case <-closeChannel *)
| AStep.         (* the next statement outside the select *)

(** One step of [writeToFile], for consumer [i] in state [c].  The goroutine
    starts in its select: [time.NewTicker(logTicker)] at its start is not a
    step, the interval being the initial 500 ms (see [Op]); when the ticker
    fires is the schedule's choice ([ATick]). *)
Definition writeToFile_step (env : Env) (a : CAct) (i : nat) (c : Consumer) (s : Sys) : Result :=
  match cpc c, a with
  | CSelect, ARecv =>
      match recv (sh s) with
      | None => Disabled
      | Some (logEntry, g) => append_entry env KSelect (buffer c) logEntry i (with_sh g s)
      end
  | CSelect, ATick =>
      if 0 <? length (buffer c) then flushBuffer env KSelect (buffer c) i s else Next s
  | CSelect, AQuit =>
      match closeChannel (sh s) with
      | Some true =>
          if 0 <? length (buffer c) then flushBuffer env KDrain (buffer c) i s
          else Next (with_cons i (mkConsumer (buffer c) CDrain) s)
      | _ => Disabled
      end
  | CDrain, AStep =>
      if 0 <? chan_len (sh s) then
        match recv (sh s) with
        | None => Disabled
        | Some (logEntry, g) => append_entry env KDrain (buffer c) logEntry i (with_sh g s)
        end
      else if 0 <? length (buffer c) then flushBuffer env KExit (buffer c) i s
      else resume KExit (buffer c) i s
  | CRotate st k, AStep => rotate_step env st k (buffer c) i s
  | _, _ => Disabled
  end.

(** The user's goroutine inside [CloseLogFile]. *)
Definition after_close (env : Env) (k : AfterClose) (s : Sys) : Result :=
  match k with
  | ARet => Next (with_main MIdle s)
  | AInit =>
      match initLog env s with
      | InitPanic m => Panic m
      | InitOk s' | InitErr s' _ => Next (with_main MIdle s')
      end
  end.

Definition main_close (env : Env) (st : CloseStage) (k : AfterClose) (s : Sys) : Result :=
  match CloseLogFile_step env st (sh s) with
  | CoNext st' g => Next (with_main (MClose st' k) (with_sh g s))
  | CoReturn g => after_close env k (with_sh g s)
  | CoPanic m => Panic m
  | CoFatal m => Fatal m
  | CoBlocked => Disabled
  end.

(** [if logFile == nil { err := initLog(); if err != nil { return } }]. *)
Definition lazy_init (env : Env) (s : Sys) : InitOut :=
  match logFile (sh s) with
  | None => initLog env s
  | Some _ => InitOk s
  end.

Definition newline : string := String NL "".

(** [(l *ToLog) WriteSafe()]. *)
Definition WriteSafe (env : Env) (l : ToLog) (s : Sys) : Result :=
  let l := CreateFullLog (LogWithColor (sh s)) l in
  match lazy_init env s with
  | InitPanic m => Panic m
  | InitErr s' _ => Next s'
  | InitOk s' =>
      let line := FullLog l +:+ newline in
      match send line (sh s') with
      | SendOk g => Next (with_sh g s')
      | SendBlocked => Next (with_main (MSend line) s')
      | SendPanic m => Panic m
      end
  end.

(** [(l *ToLog) Write()] (deprecated); the error of the write is dropped. *)
Definition Write (env : Env) (l : ToLog) (s : Sys) : Result :=
  let l := CreateFullLog (LogWithColor (sh s)) l in
  match lazy_init env s with
  | InitPanic m => Panic m
  | InitErr s' _ => Next s'
  | InitOk s' =>
      let data :=
        if LogWithColor (sh s') then stripColors (FullLog l) +:+ newline
        else FullLog l +:+ newline in
      Next (with_sh (WriteString env data (sh s')).1 s')
  end.

(** The exported functions that the user's goroutine calls in the runs of
    this model.  [SetLogTickerTime], [SetLogTimeZone], [SetLogFileDateFormat]
    and [SetLogTimeFormat] are not among them: the ticker interval, the time
    zone and the two formats keep their initial values (500 ms, [time.Local],
    [DateOnly], [DateTime]), so that [time.NewTicker] and [Time.In] do not
    panic, and the formatted clock is what [Env] supplies.  [PrintAndWrite]
    and [PrintAndWriteSafe] are defined further down, outside the transition
    system. *)
Inductive Op :=
| OpWriteSafe (l : ToLog)
| OpWrite (l : ToLog)
| OpCloseLogFile
| OpSetLogPrefix (prefix : string)
| OpSetLogWithColor (flag : bool)
| OpSetLogChannelSize (size : Z).

Definition call (env : Env) (op : Op) (s : Sys) : Result :=
  match op with
  | OpWriteSafe l => WriteSafe env l s
  | OpWrite l => Write env l s
  | OpCloseLogFile => main_close env ClEntry ARet s
  | OpSetLogPrefix p => main_close env ClEntry AInit (with_sh (set_prefix p (sh s)) s)
  | OpSetLogWithColor b => Next (with_sh (SetLogWithColor b (sh s)) s)
  | OpSetLogChannelSize n => Next (with_sh (SetLogChannelSize n (sh s)) s)
  end.

(** A step: the user's goroutine calls a function, or continues the call it
    is blocked in, or consumer [i] moves. *)
Inductive Label :=
| LCall (op : Op) (env : Env)
| LMain (env : Env)
| LCons (i : nat) (a : CAct) (env : Env).

Definition exec (l : Label) (s : Sys) : Result :=
  match l with
  | LCall op env =>
      match mainpc s with
      | MIdle => call env op s
      | _ => Disabled
      end
  | LMain env =>
      match mainpc s with
      | MIdle => Disabled
      | MSend line =>
          match send line (sh s) with
          | SendOk g => Next (with_main MIdle (with_sh g s))
          | SendBlocked => Disabled
          | SendPanic m => Panic m
          end
      | MClose st k => main_close env st k s
      end
  | LCons i a env =>
      match consumers s !! i with
      | None => Disabled
      | Some c => writeToFile_step env a i c s
      end
  end.

(** A schedule, run from [s]. *)
Fixpoint run (tr : list Label) (s : Sys) : Result :=
  match tr with
  | [] => Next s
  | l :: tr' =>
      match exec l s with
      | Next s' => run tr' s'
      | r => r
      end
  end.

(** The values of the package variables when the program starts, over a
    given file system. *)
Definition init_shared (dir : bool) (fs : gmap string string) : Shared :=
  mkShared "" true "" None true 300 None None 0 dir fs [].

Definition init_state (dir : bool) (fs : gmap string string) : Sys :=
  mkSys (init_shared dir fs) MIdle [].

(** An environment in which the date is [d] and every system call succeeds. *)
Definition env_ok (d : string) : Env := mkEnv d None None None None.

Definition label_env (l : Label) : Env :=
  match l with
  | LCall _ e | LMain e | LCons _ _ e => e
  end.

(** ** Vocabulary of the statements *)

(** A line ends with the newline that [WriteSafe] appends. *)
Definition ends_nl (s : string) : Prop := ∃ a, s = a +:+ newline.

(** An element of the consumer's buffer: a line, or the zero value that a
    closed channel delivers. *)
Definition line_like (s : string) : Prop := s = "" ∨ ends_nl s.

(** The six codes of [replacements]. *)
Inductive Color := CInfo | CWarning | CError | CDebug | CNotice | CReset.

#[global] Instance Color_eq_dec : EqDecision Color.
Proof. solve_decision. Defined.

Definition code (c : Color) : string :=
  match c with
  | CInfo => colorInfoBg
  | CWarning => colorWarningBg
  | CError => colorErrorBg
  | CDebug => colorDebugBg
  | CNotice => colorNoticeBg
  | CReset => colorReset
  end.

(** A text seen as pieces: plain text, or one of the codes. *)
Inductive Seg := Txt (s : string) | Code (c : Color).

Definition render_seg (x : Seg) : string :=
  match x with
  | Txt s => s
  | Code c => code c
  end.

Fixpoint render (l : list Seg) : string :=
  match l with
  | [] => ""
  | x :: l' => render_seg x +:+ render l'
  end.

(** No escape byte. *)
Definition esc_free (s : string) : Prop := Str.mem ESC s = false.

Definition clean (x : Seg) : Prop :=
  match x with
  | Txt s => esc_free s
  | Code _ => True
  end.

Fixpoint drop_code (c : Color) (l : list Seg) : list Seg :=
  match l with
  | [] => []
  | Code c' :: l' => if decide (c = c') then drop_code c l' else Code c' :: drop_code c l'
  | x :: l' => x :: drop_code c l'
  end.

Fixpoint only_text (l : list Seg) : list Seg :=
  match l with
  | [] => []
  | Code _ :: l' => only_text l'
  | x :: l' => x :: only_text l'
  end.

(** The five levels that [WithType] and [Type] accept. *)
Definition levels : list LogStatus :=
  [StatusInfo; StatusWarning; StatusError; StatusNotice; StatusDebug].

(** The floor under which [SetLogChannelSize] ignores the request. *)
Definition channelFloor : Z := 101.

(** What [flushBuffer] hands to [WriteString] for a batch. *)
Definition persist (withColor : bool) (data : string) : string :=
  if withColor then stripColors data else data.

(** A record whose time, level and message hold no escape byte. *)
Definition clean_record (l : ToLog) : Prop :=
  esc_free (logTime l) ∧ esc_free (logType l) ∧ esc_free (logContext l).

(** The line that [WriteSafe] enqueues for [l] under colour flag [c]. *)
Definition line_of (c : bool) (l : ToLog) : string :=
  FullLog (CreateFullLog c l) +:+ newline.

(** A line enqueued for a clean record, under either value of the flag. *)
Definition formatted (line : string) : Prop :=
  ∃ c l, clean_record l ∧ line = line_of c l.

(** The data model's invariant on the handle and the flag. *)
Definition handle_inv (g : Shared) : Prop :=
  logFile g = None ↔ isLogFileClosed g = true.

(** Step [l] is the one in which a call of [CloseLogFile] by the user
    returns: the call itself when the guard holds, or the last stage. *)
Definition CloseLogFile_returns (l : Label) (s s' : Sys) : Prop :=
  exec l s = Next s' ∧ mainpc s' = MIdle ∧
  ((∃ env, l = LCall OpCloseLogFile env) ∨
   (∃ env st, l = LMain env ∧ mainpc s = MClose st ARet)).

(** A goroutine that has not returned. *)
Definition is_live (c : Consumer) : bool :=
  match cpc c with
  | CDone => false
  | _ => true
  end.

Fixpoint live_count (cs : list Consumer) : nat :=
  match cs with
  | [] => 0
  | c :: cs' => (if is_live c then 1 else 0) + live_count cs'
  end.

(** What holds in every state that the program reaches: the invariant of
    the data model, the [WaitGroup] counts the running consumers, and no
    consumer runs while the handle is nil. *)
Definition sys_inv (s : Sys) : Prop :=
  handle_inv (sh s) ∧
  wg (sh s) = live_count (consumers s) ∧
  (logFile (sh s) = None → wg (sh s) = 0).

(** The fields that only [initLog], [CloseLogFile] and the setters write. *)
Definition ctl (g : Shared) : option string * bool * nat * string * string * bool * Z :=
  (logFile g, isLogFileClosed g, wg g, currentLogDate g, LogfilePrefix g, LogWithColor g,
   channelSize g).

(** Consumer [i] is inside the [CloseLogFile] that [checkLogFileDate]
    called, holding the batch [buf] that [flushBuffer] was to write and
    bound to go on at [k]. *)
Definition rotating (i : nat) (buf : list string) (k : Kont) (s : Sys) : Prop :=
  ∃ c st, consumers s !! i = Some c ∧ cpc c = CRotate st k ∧ buffer c = buf.

(** Consumer [i] has not returned and its buffer starts with [batch]. *)
Definition holds_batch (i : nat) (batch : list string) (s : Sys) : Prop :=
  ∃ c later, consumers s !! i = Some c ∧ cpc c ≠ CDone ∧ buffer c = batch ++ later.

(** Consumer [i] has returned, its buffer still starting with [batch]: the
    goroutine is gone and nothing reads the buffer any more. *)
Definition lost_batch (i : nat) (batch : list string) (s : Sys) : Prop :=
  ∃ c later, consumers s !! i = Some c ∧ cpc c = CDone ∧ buffer c = batch ++ later.

(** The step from [s] to [s'] has appended the lines [ls], joined and
    stripped under the flag, to the file of the handle. *)
Definition flushed (ls : list string) (s s' : Sys) : Prop :=
  ∃ path, logFile (sh s') = Some path ∧
    content (sh s') path
    = content (sh s) path +:+ persist (LogWithColor (sh s)) (Str.Join ls "").

(** The step has written [batch] together with the lines behind it. *)
Definition wrote_batch (batch : list string) (s s' : Sys) : Prop :=
  ∃ later, flushed (batch ++ later) s s'.

(** The state that a schedule leads to ([s] itself when the schedule cannot
    be run to its end). *)
Definition state_after (tr : list Label) (s : Sys) : Sys :=
  match run tr s with
  | Next s' => s'
  | _ => s
  end.

(** Sample data for the examples. *)
Definition day1 : Env := env_ok "2024-01-01".
Definition day2 : Env := env_ok "2024-01-02".
Definition rec1 : ToLog := mkToLog "info" "hello" "10:00:00" "".
Definition rec2 : ToLog := mkToLog "error" "oops" "10:00:01" "".
Definition path1 : string := "./logs/log-2024-01-01.log".

(** A line is enqueued and received on the first day; the ticker fires on
    the second day. *)
Definition rotation_schedule : list Label :=
  [LCall (OpWriteSafe rec1) day1; LCons 0 ARecv day1; LCons 0 ATick day2].

(** An environment of the first day in which the write fails before any
    byte reaches the file. *)
Definition day1_write_error : Env :=
  mkEnv "2024-01-01" None None (Some (0, "no space left on device")) None.

(** A line is received and the flush on the tick fails; a second line is
    received and the next tick flushes. *)
Definition failed_flush_schedule : list Label :=
  [LCall (OpWriteSafe rec1) day1; LCons 0 ARecv day1; LCons 0 ATick day1_write_error].

Definition retry_schedule : list Label :=
  [LCall (OpWriteSafe rec2) day1; LCons 0 ARecv day1; LCons 0 ATick day1].

(** A line is received and the writer is closed while every write fails: the
    flush on the close signal fails, and so does the last flush of the
    consumer, which returns; the user's [CloseLogFile] then closes the file. *)
Definition failing_close_schedule : list Label :=
  [LCall (OpWriteSafe rec1) day1; LCons 0 ARecv day1; LCall OpCloseLogFile day1;
   LCons 0 AQuit day1_write_error; LMain day1].

Definition before_last_flush : Sys := state_after failing_close_schedule (init_state false ∅).

Definition after_last_flush : Sys :=
  state_after [LCons 0 AStep day1_write_error] before_last_flush.

Definition closed_without_lines : Sys := state_after [LMain day1] after_last_flush.

(** A colourised line is received, the flag is switched off, the ticker
    fires. *)
Definition flag_off_schedule : list Label :=
  [LCall (OpWriteSafe rec1) day1; LCons 0 ARecv day1;
   LCall (OpSetLogWithColor false) day1; LCons 0 ATick day1].

(** A line is written and the writer is closed; the last step is left out. *)
Definition close_schedule : list Label :=
  [LCall (OpWriteSafe rec1) day1; LCall (OpWriteSafe rec2) day1; LCons 0 ARecv day1;
   LCall OpCloseLogFile day1; LCons 0 AQuit day1; LMain day1;
   LCons 0 AStep day1; LCons 0 AStep day1].

Definition one_line_received : Sys :=
  state_after [LCall (OpWriteSafe rec1) day1; LCons 0 ARecv day1] (init_state false ∅).

Definition after_failed_flush : Sys :=
  state_after failed_flush_schedule (init_state false ∅).

Definition after_retry : Sys := state_after retry_schedule after_failed_flush.

Definition after_flag_off : Sys := state_after flag_off_schedule (init_state false ∅).

(** ** One producer: [WriteSafe] N times, then [CloseLogFile] *)

(** The calls that a schedule makes, in order. *)
Definition calls (tr : list Label) : list Op :=
  omap (λ l, match l with LCall op _ => Some op | _ => None end) tr.

(** Every step of the schedule sees the date [d] and no failing system
    call. *)
Definition calm (d : string) (tr : list Label) : Prop :=
  Forall (λ l, label_env l = env_ok d) tr.

(** What reaches the file for the lines [ls] under colour flag [c]. *)
Definition persisted (c : bool) (ls : list string) : string :=
  String.concat "" (map (persist c) ls).

Definition all_done (cs : list Consumer) : Prop :=
  Forall (λ c, cpc c = CDone) cs.

(** The line that a blocked [WriteSafe] still has to send. *)
Definition pending (pc : MainPc) : list string :=
  match pc with
  | MSend line => [line]
  | _ => []
  end.

(** The parameters of a run: the colour flag, the prefix, the date, the
    bytes of the file before the run and the goroutines of earlier
    sessions. *)
Record Scenario := mkScenario {
  sc_color  : bool;
  sc_prefix : string;
  sc_day    : string;
  sc_before : string;
  sc_old    : list Consumer
}.

Definition sc_path (sc : Scenario) : string :=
  logFilePath (sc_prefix sc) (sc_day sc).

(** Before the first call. *)
Definition fresh_inv (sc : Scenario) (s : Sys) : Prop :=
  mainpc s = MIdle ∧ logFile (sh s) = None ∧ wg (sh s) = 0 ∧
  consumers s = sc_old sc ∧
  LogWithColor (sh s) = sc_color sc ∧ LogfilePrefix (sh s) = sc_prefix sc ∧
  content (sh s) (sc_path sc) = sc_before sc.

(** The writer is open: every line sent so far is in the file, in the
    consumer's buffer, in the channel or in the producer's hand, in this
    order. *)
Definition open_inv (sc : Scenario) (sent : list string) (s : Sys) : Prop :=
  ∃ buf its cp,
    (mainpc s = MIdle ∨ ∃ line, mainpc s = MSend line) ∧
    LogWithColor (sh s) = sc_color sc ∧ LogfilePrefix (sh s) = sc_prefix sc ∧
    logFile (sh s) = Some (sc_path sc) ∧ isLogFileClosed (sh s) = false ∧
    currentLogDate (sh s) = sc_day sc ∧ wg (sh s) = 1 ∧
    writeChannel (sh s) = Some (mkChan its cp false) ∧
    closeChannel (sh s) = Some false ∧
    consumers s = sc_old sc ++ [mkConsumer buf CSelect] ∧
    Forall line_like (buf ++ its ++ pending (mainpc s)) ∧
    content (sh s) (sc_path sc) +:+ persisted (sc_color sc) (buf ++ its ++ pending (mainpc s))
    = sc_before sc +:+ persisted (sc_color sc) sent.

(** [CloseLogFile] has been called and has not returned. *)
Definition closing_inv (sc : Scenario) (sent : list string) (s : Sys) : Prop :=
  ∃ buf its cp wclosed pc,
    (mainpc s = MClose ClCloseWrite ARet ∧ wclosed = false ∨
     mainpc s = MClose ClWait ARet ∧ wclosed = true) ∧
    LogWithColor (sh s) = sc_color sc ∧ LogfilePrefix (sh s) = sc_prefix sc ∧
    logFile (sh s) = Some (sc_path sc) ∧ isLogFileClosed (sh s) = false ∧
    currentLogDate (sh s) = sc_day sc ∧
    writeChannel (sh s) = Some (mkChan its cp wclosed) ∧
    closeChannel (sh s) = Some true ∧
    consumers s = sc_old sc ++ [mkConsumer buf pc] ∧
    (((pc = CSelect ∨ pc = CDrain) ∧ wg (sh s) = 1 ∧
      Forall line_like (buf ++ its) ∧
      content (sh s) (sc_path sc) +:+ persisted (sc_color sc) (buf ++ its)
      = sc_before sc +:+ persisted (sc_color sc) sent) ∨
     (pc = CDone ∧ wg (sh s) = 0 ∧
      content (sh s) (sc_path sc) = sc_before sc +:+ persisted (sc_color sc) sent)).

(** [CloseLogFile] has returned. *)
Definition closed_inv (sc : Scenario) (sent : list string) (s : Sys) : Prop :=
  mainpc s = MIdle ∧ logFile (sh s) = None ∧ all_done (consumers s) ∧
  content (sh s) (sc_path sc) = sc_before sc +:+ persisted (sc_color sc) sent.

Definition before_close (sc : Scenario) (sent : list string) (s : Sys) : Prop :=
  (sent = [] ∧ fresh_inv sc s) ∨ open_inv sc sent s.

Definition after_close_call (sc : Scenario) (sent : list string) (s : Sys) : Prop :=
  closing_inv sc sent s ∨ closed_inv sc sent s.





(** The writer is open on date [d] and the producer's goroutine is outside
    any call: the handle is on the file of the prefix and of [d], the channel
    is open and holds [its], and the one consumer that has not returned waits
    in its select with [buf] in its buffer. *)
Definition open_idle (d : string) (buf its : list string) (s : Sys) : Prop :=
  ∃ old cp,
    all_done old ∧ consumers s = old ++ [mkConsumer buf CSelect] ∧
    logFile (sh s) = Some (logFilePath (LogfilePrefix (sh s)) d) ∧
    isLogFileClosed (sh s) = false ∧ currentLogDate (sh s) = d ∧ wg (sh s) = 1 ∧
    writeChannel (sh s) = Some (mkChan its cp false) ∧
    closeChannel (sh s) = Some false ∧
    Forall line_like (buf ++ its).

(** The line of a record as the file holds it when the colour flag is on:
    the codes are gone, the spaces around them stay. *)
Definition plain_line (l : ToLog) : string :=
  "[" +:+ logTime l +:+ "]  " +:+ logType l +:+ "  " +:+ logContext l +:+ newline.

(** ** Sample runs *)

(** Two lines are written and the writer is closed. *)
Definition session_schedule : list Label :=
  close_schedule ++ [LMain day1].

Definition before_last_step : Sys := state_after close_schedule (init_state false ∅).

Definition after_session : Sys := state_after session_schedule (init_state false ∅).

(** A record whose message carries a colour code, written with the flag off. *)
Definition rec_esc : ToLog := mkToLog "info" (colorReset +:+ "plain") "10:00:02" "".

Definition flag_off_state : Sys :=
  state_after [LCall (OpSetLogWithColor false) day1] (init_state false ∅).

Definition esc_schedule : list Label :=
  [LCall (OpWriteSafe rec_esc) day1; LCons 0 ARecv day1; LCall OpCloseLogFile day1;
   LCons 0 AQuit day1; LMain day1; LCons 0 AStep day1; LMain day1].

Definition after_esc_session : Sys := state_after esc_schedule flag_off_state.

(** A hundred records, each received as soon as it is sent; no tick. *)
Definition hundred : list ToLog := repeat rec1 100.

Definition hundred_schedule : list Label :=
  flat_map (λ r, [LCall (OpWriteSafe r) day1; LCons 0 ARecv day1]) hundred.

Definition after_hundred : Sys := state_after hundred_schedule (init_state false ∅).

(** The writer is open and holds one line in the consumer's buffer; a second
    line is written and the writer is closed. *)
Definition resumed_schedule : list Label :=
  [LCall (OpWriteSafe rec2) day1; LCons 0 ARecv day1; LCall OpCloseLogFile day1;
   LCons 0 AQuit day1; LMain day1; LCons 0 AStep day1; LMain day1].

Definition after_resumed : Sys := state_after resumed_schedule one_line_received.

(** The writer is opened by [SetLogPrefix], as a program that configures
    the logger first, and the two lines are written and the writer closed. *)
Definition prefixed : Sys :=
  state_after [LCall (OpSetLogPrefix "app") day1] (init_state false ∅).

Definition after_prefixed_session : Sys := state_after session_schedule prefixed.









(** The consumer of [rotation_schedule] once the ticker has fired on the
    second day, and what follows: two steps of the consumer and a deprecated
    [Write] by the user. *)
Definition rotation_started : Sys := state_after rotation_schedule (init_state false ∅).

Definition rotation_followup : list Label :=
  [LCons 0 AStep day2; LCons 0 AStep day2; LCall (OpWrite rec2) day2].

Definition rotation_later : Sys := state_after rotation_followup rotation_started.

(** ** A schedule in which the calls return *)

(** A record is sent and the consumer [j] receives it. *)
Definition round (j : nat) (e : Env) (r : ToLog) : list Label :=
  [LCall (OpWriteSafe r) e; LCons j ARecv e].

(** [CloseLogFile] with the consumer's shutdown path. *)
Definition shutdown (j : nat) (e : Env) : list Label :=
  [LCall OpCloseLogFile e; LCons j AQuit e; LMain e; LCons j AStep e; LMain e].

Definition session_for (j : nat) (e : Env) (ls : list ToLog) : list Label :=
  match ls with
  | [] => [LCall OpCloseLogFile e]
  | _ => flat_map (round j e) ls ++ shutdown j e
  end.

(** The writer is open on date [d] with the one live consumer at the end of
    [old]: the caller is at [pc], the close signal is [sig], the channel
    holds [its] and [wclosed] tells whether it has been closed, the consumer
    is at [c] and the wait group counts [n]. *)
Definition shutting (d : string) (old : list Consumer) (pc : MainPc)
    (sig : bool) (its : list string) (wclosed : bool) (c : ConsPc) (n : nat)
    (s : Sys) : Prop :=
  ∃ buf cp path,
    (0 < cp)%Z ∧ mainpc s = pc ∧
    logFile (sh s) = Some path ∧ isLogFileClosed (sh s) = false ∧
    currentLogDate (sh s) = d ∧ wg (sh s) = n ∧
    writeChannel (sh s) = Some (mkChan its cp wclosed) ∧
    closeChannel (sh s) = Some sig ∧
    consumers s = old ++ [mkConsumer buf c].

(** The producer is idle and the consumer waits in its select. *)
Definition ready (d : string) (old : list Consumer) (s : Sys) : Prop :=
  shutting d old MIdle false [] false CSelect 1 s.

(** ** The record constructors and the printing writers *)

(** [type Options func(l *ToLog)]: an option updates the record. *)
Definition Options : Type := ToLog → ToLog.

(** [Log(options...)]: an info record without context, stamped with [now]
    (the clock read through [time.Now().In(LogTimeZone).Format(logTimeFormat)]),
    to which the options are applied from left to right.  [FullLog] starts
    as the empty string. *)
Definition Log (now : string) (options : list Options) : ToLog :=
  fold_left (fun tolog option => option tolog) options (mkToLog StatusInfo "" now "").

(** [(l *ToLog) Context(ctx)]. *)
Definition Context (withColor : bool) (ctx : string) (l : ToLog) : ToLog :=
  CreateFullLog withColor (mkToLog (logType l) ctx (logTime l) (FullLog l)).

(** The body of [Info], [Warning], [Error], [Notice] and [Debug]:
    [l := Log(); l.logType = level; l.logContext = ctx; CreateFullLog(l)]. *)
Definition leveled (withColor : bool) (level : LogStatus) (now ctx : string) : ToLog :=
  let l := Log now [] in
  CreateFullLog withColor (mkToLog level ctx (logTime l) (FullLog l)).

Definition Info (withColor : bool) (now ctx : string) : ToLog :=
  leveled withColor StatusInfo now ctx.
Definition Warning (withColor : bool) (now ctx : string) : ToLog :=
  leveled withColor StatusWarning now ctx.
Definition Error (withColor : bool) (now ctx : string) : ToLog :=
  leveled withColor StatusError now ctx.
Definition Notice (withColor : bool) (now ctx : string) : ToLog :=
  leveled withColor StatusNotice now ctx.
Definition Debug (withColor : bool) (now ctx : string) : ToLog :=
  leveled withColor StatusDebug now ctx.

(** [(l *ToLog) PrintLog()]: the record with its [FullLog] rebuilt, and the
    state after [fmt.Println(l.FullLog)]. *)
Definition PrintLog (l : ToLog) (g : Shared) : ToLog * Shared :=
  let l := CreateFullLog (LogWithColor g) l in
  (l, emit (EvPrintln (FullLog l)) g).

(** [(l *ToLog) PrintAndWrite()] (deprecated). *)
Definition PrintAndWrite (env : Env) (l : ToLog) (s : Sys) : Result :=
  let l := CreateFullLog (LogWithColor (sh s)) l in
  let s := with_sh (emit (EvPrintln (FullLog l)) (sh s)) s in
  match lazy_init env s with
  | InitPanic m => Panic m
  | InitErr s' _ => Next s'
  | InitOk s' =>
      let data :=
        if LogWithColor (sh s') then stripColors (FullLog l) +:+ newline
        else FullLog l +:+ newline in
      Next (with_sh (WriteString env data (sh s')).1 s')
  end.

(** [(l *ToLog) PrintAndWriteSafe()]. *)
Definition PrintAndWriteSafe (env : Env) (l : ToLog) (s : Sys) : Result :=
  let l := CreateFullLog (LogWithColor (sh s)) l in
  let s := with_sh (emit (EvPrintln (FullLog l)) (sh s)) s in
  match lazy_init env s with
  | InitPanic m => Panic m
  | InitErr s' _ => Next s'
  | InitOk s' =>
      let line := FullLog l +:+ newline in
      match send line (sh s') with
      | SendOk g => Next (with_sh g s')
      | SendBlocked => Next (with_main (MSend line) s')
      | SendPanic m => Panic m
      end
  end.

(** ** The queue in the reachable states *)

(** The configured size is at least the floor, so is the capacity of the
    channel when there is one, and both channels have been made when the
    handle is there. *)
Definition queue_inv (g : Shared) : Prop :=
  (channelFloor ≤ channelSize g)%Z ∧
  (∀ ch, writeChannel g = Some ch → (channelFloor ≤ cap ch)%Z) ∧
  (logFile g ≠ None → writeChannel g ≠ None ∧ closeChannel g ≠ None).

(** [x == nil]. *)
Definition isNil {A : Type} (x : option A) : bool :=
  match x with
  | None => true
  | Some _ => false
  end.

(** What [queue_inv] reads of the state. *)
Definition queue_view (g : Shared) : bool * Z * option Z * bool :=
  (isNil (logFile g), channelSize g, cap <$> writeChannel g, isNil (closeChannel g)).

(** The run-time panics of the operations on channels that the program can
    meet when it is used from its start. *)
Definition channel_panics : list string :=
  ["send on closed channel"; "close of closed channel"].

(** ** [SetLogPrefix] on an open writer *)

(** [SetLogPrefix(p)] with the consumer's shutdown path, as [shutdown] is
    for [CloseLogFile]. *)
Definition prefix_schedule (j : nat) (p : string) (e : Env) : list Label :=
  [LCall (OpSetLogPrefix p) e; LCons j AQuit e; LMain e; LCons j AStep e; LMain e].

(** The writer is open on [path] and on date [d], with the one live
    consumer at the end of [old] holding [buf]; the file holds [F] and the
    other files are as [C] tells. *)
Definition switching (d p path F : string) (C : string → string) (col : bool)
    (old : list Consumer) (pc : MainPc) (sig wclosed : bool) (c : ConsPc) (n : nat)
    (buf : list string) (s : Sys) : Prop :=
  ∃ cp,
    (0 < cp)%Z ∧ (0 < channelSize (sh s) ≤ maxChanCap)%Z ∧ mainpc s = pc ∧
    logFile (sh s) = Some path ∧ isLogFileClosed (sh s) = false ∧
    currentLogDate (sh s) = d ∧ LogfilePrefix (sh s) = p ∧
    LogWithColor (sh s) = col ∧ wg (sh s) = n ∧
    writeChannel (sh s) = Some (mkChan [] cp wclosed) ∧
    closeChannel (sh s) = Some sig ∧
    consumers s = old ++ [mkConsumer buf c] ∧
    content (sh s) path = F ∧
    (∀ q, q ≠ path → content (sh s) q = C q).

(** * Properties *)

(** ** Facts about strings *)

Lemma append_cons (c : ascii) (s t : string) : String c s +:+ t = String c (s +:+ t).
Proof. reflexivity. Qed.

Lemma append_nil_l (s : string) : "" +:+ s = s.
Proof. reflexivity. Qed.

Lemma append_nil_r (s : string) : s +:+ "" = s.
Proof. induction s as [|c s IH]; [done|]. by rewrite append_cons, IH. Qed.

Lemma append_assoc (a b c : string) : (a +:+ b) +:+ c = a +:+ (b +:+ c).
Proof. induction a as [|x a IH]; [done|]. by rewrite !append_cons, IH. Qed.

Lemma length_append (a b : string) :
  String.length (a +:+ b) = String.length a + String.length b.
Proof. induction a as [|x a IH]; [done|]. rewrite append_cons. simpl. by rewrite IH. Qed.

Lemma concat_cons (x : string) (l : list string) :
  String.concat "" (x :: l) = x +:+ String.concat "" l.
Proof. destruct l; simpl; [symmetry; apply append_nil_r|done]. Qed.

Lemma concat_app (l1 l2 : list string) :
  String.concat "" (l1 ++ l2) = String.concat "" l1 +:+ String.concat "" l2.
Proof.
  induction l1 as [|x l1 IH]; [done|].
  rewrite <- app_comm_cons, !concat_cons, IH. by rewrite append_assoc.
Qed.

Lemma ascii_eqb_false (a b : ascii) : a ≠ b → Ascii.eqb a b = false.
Proof. intros H. by apply Ascii.eqb_neq. Qed.

Lemma ReplaceAll_nonempty (s old new : string) :
  old ≠ "" → Str.ReplaceAll s old new = Str.replaceFrom old new 0 s.
Proof. by destruct old. Qed.

Section replace_lines.
Variables old new : string.
Hypothesis old_no_nl : Str.mem NL old = false.

Lemma hasPrefix_before_nl (a b : string) :
  Str.hasPrefix old (a +:+ String NL b) = true →
  String.length old ≤ String.length a.
Proof using old_no_nl.
  revert a old_no_nl. induction old as [|c o IH]; intros a Hm; [simpl; lia|].
  cbn [Str.mem] in Hm. apply orb_false_elim in Hm as [Hc Hm].
  rewrite Ascii.eqb_sym in Hc.
  destruct a as [|x a]; rewrite ?append_cons, ?append_nil_l; cbn [Str.hasPrefix String.length].
  - rewrite Hc. done.
  - destruct (Ascii.eqb c x); [|done]. intros H. apply IH in H; [lia|done].
Qed.

Lemma hasPrefix_nl_tail (a b b' : string) :
  Str.hasPrefix old (a +:+ String NL b) = Str.hasPrefix old (a +:+ String NL b').
Proof using old_no_nl.
  revert a old_no_nl. induction old as [|c o IH]; intros a Hm; [done|].
  cbn [Str.mem] in Hm. apply orb_false_elim in Hm as [Hc Hm].
  rewrite Ascii.eqb_sym in Hc.
  destruct a as [|x a]; rewrite ?append_cons, ?append_nil_l; cbn [Str.hasPrefix].
  - by rewrite Hc.
  - destruct (Ascii.eqb c x); [|done]. by apply IH.
Qed.

Hypothesis old_ne : old ≠ "".

Lemma hasPrefix_at_nl (t : string) : Str.hasPrefix old (String NL t) = false.
Proof using old_no_nl old_ne.
  destruct old as [|c o]; [done|]. cbn [Str.mem Str.hasPrefix] in *.
  apply orb_false_elim in old_no_nl as [Hc _].
  rewrite Ascii.eqb_sym in Hc. by rewrite Hc.
Qed.

(** A scan that starts before a newline splits at the newline. *)
Lemma replaceFrom_nl (a b : string) (k : nat) :
  k ≤ String.length a →
  Str.replaceFrom old new k (a +:+ String NL b)
  = Str.replaceFrom old new k (a +:+ newline) +:+ Str.replaceFrom old new 0 b.
Proof using old_no_nl old_ne.
  revert k. induction a as [|x a IH]; intros k Hk.
  - simpl in Hk. assert (k = 0) as -> by lia.
    change ("" +:+ String NL b) with (String NL b).
    change ("" +:+ newline) with (String NL "").
    cbn [Str.replaceFrom]. by rewrite !hasPrefix_at_nl.
  - change (String x a +:+ String NL b) with (String x (a +:+ String NL b)).
    change (String x a +:+ newline) with (String x (a +:+ String NL "")).
    destruct k as [|k]; cbn [Str.replaceFrom].
    + change (String x (a +:+ String NL b)) with (String x a +:+ String NL b).
      change (String x (a +:+ String NL "")) with (String x a +:+ String NL "").
      rewrite (hasPrefix_nl_tail (String x a) b "").
      destruct (Str.hasPrefix old (String x a +:+ String NL "")) eqn:E.
      * apply hasPrefix_before_nl in E. simpl in E.
        rewrite IH by lia. by rewrite append_assoc.
      * rewrite IH by lia. done.
    + simpl in Hk. apply IH. lia.
Qed.

(** The newline at the end survives the scan. *)
Lemma replaceFrom_ends_nl (a : string) (k : nat) :
  k ≤ String.length a →
  ends_nl (Str.replaceFrom old new k (a +:+ newline)).
Proof using old_no_nl old_ne.
  revert k. induction a as [|x a IH]; intros k Hk.
  - simpl in Hk. assert (k = 0) as -> by lia.
    change ("" +:+ newline) with (String NL "").
    cbn [Str.replaceFrom]. rewrite hasPrefix_at_nl. by exists "".
  - change (String x a +:+ newline) with (String x (a +:+ String NL "")).
    destruct k as [|k]; cbn [Str.replaceFrom].
    + change (String x (a +:+ String NL "")) with (String x a +:+ String NL "").
      destruct (Str.hasPrefix old (String x a +:+ String NL "")) eqn:E.
      * apply hasPrefix_before_nl in E. simpl in E.
        destruct (IH (String.length old - 1)) as [r Hr]; [lia|].
        exists (new +:+ r). unfold newline in *. rewrite Hr. by rewrite append_assoc.
      * destruct (IH 0) as [r Hr]; [lia|].
        exists (String x r). unfold newline in *. by rewrite Hr.
    + simpl in Hk. apply IH. lia.
Qed.

Lemma ReplaceAll_nl (x y : string) :
  ends_nl x →
  Str.ReplaceAll (x +:+ y) old new = Str.ReplaceAll x old new +:+ Str.ReplaceAll y old new.
Proof using old_no_nl old_ne.
  intros [a ->]. rewrite !ReplaceAll_nonempty by done.
  rewrite append_assoc. apply replaceFrom_nl. lia.
Qed.

Lemma ReplaceAll_ends_nl (x : string) :
  ends_nl x → ends_nl (Str.ReplaceAll x old new).
Proof using old_no_nl old_ne.
  intros [a ->]. rewrite ReplaceAll_nonempty by done.
  apply replaceFrom_ends_nl. lia.
Qed.

Lemma ReplaceAll_empty : Str.ReplaceAll "" old new = "".
Proof. unfold Str.ReplaceAll. by destruct old. Qed.
End replace_lines.

Lemma stripColors_app (x y : string) :
  ends_nl x → stripColors (x +:+ y) = stripColors x +:+ stripColors y.
Proof.
  intros H. unfold stripColors, replacements. cbn [fold_left fst snd].
  repeat (rewrite ReplaceAll_nl; [|done|done|]); [done|..];
    repeat (apply ReplaceAll_ends_nl; [done|done|]); done.
Qed.

Lemma stripColors_ends_nl (x : string) : ends_nl x → ends_nl (stripColors x).
Proof.
  intros H. unfold stripColors, replacements. cbn [fold_left fst snd].
  repeat (apply ReplaceAll_ends_nl; [done|done|]); done.
Qed.

Lemma stripColors_empty : stripColors "" = "".
Proof. reflexivity. Qed.

Lemma stripColors_concat (ls : list string) :
  Forall line_like ls →
  stripColors (String.concat "" ls) = String.concat "" (map stripColors ls).
Proof.
  induction 1 as [|x ls Hx _ IH]; [done|].
  cbn [map]. rewrite !concat_cons. destruct Hx as [->|Hx].
  - by rewrite stripColors_empty.
  - rewrite stripColors_app by done. by rewrite IH.
Qed.

(** ** Lines made of plain text and of the colour codes *)

Lemma render_app (l1 l2 : list Seg) : render (l1 ++ l2) = render l1 +:+ render l2.
Proof.
  induction l1 as [|x l1 IH]; [done|].
  cbn [render app]. by rewrite IH, append_assoc.
Qed.

Lemma esc_free_app (a b : string) : esc_free a → esc_free b → esc_free (a +:+ b).
Proof.
  unfold esc_free. induction a as [|x a IH]; [done|].
  rewrite append_cons. cbn [Str.mem]. intros [Hx Ha]%orb_false_elim Hb.
  by rewrite Hx, IH.
Qed.

Lemma replaceFrom_text (c : Color) (t rest : string) :
  esc_free t →
  Str.replaceFrom (code c) "" 0 (t +:+ rest) = t +:+ Str.replaceFrom (code c) "" 0 rest.
Proof.
  unfold esc_free. induction t as [|x t IH]; [done|].
  cbn [Str.mem]. intros [Hx Ht]%orb_false_elim.
  rewrite !append_cons. cbn [Str.replaceFrom].
  assert (Str.hasPrefix (code c) (String x (t +:+ rest)) = false) as ->.
  { destruct c; cbn [code Str.hasPrefix colorInfoBg colorWarningBg colorErrorBg
      colorDebugBg colorNoticeBg colorReset]; by rewrite Hx. }
  by rewrite IH.
Qed.

Lemma replaceFrom_code (c c' : Color) (rest : string) :
  Str.replaceFrom (code c) "" 0 (code c' +:+ rest)
  = if decide (c = c') then Str.replaceFrom (code c) "" 0 rest
    else code c' +:+ Str.replaceFrom (code c) "" 0 rest.
Proof. destruct c, c'; reflexivity. Qed.

Lemma ReplaceAll_render (c : Color) (l : list Seg) :
  Forall clean l →
  Str.ReplaceAll (render l) (code c) "" = render (drop_code c l).
Proof.
  intros H. rewrite ReplaceAll_nonempty by (by destruct c).
  induction H as [|x l Hx _ IH]; [done|].
  destruct x as [t|c']; cbn [render render_seg drop_code].
  - rewrite replaceFrom_text by done. by rewrite IH.
  - rewrite replaceFrom_code. destruct (decide (c = c')); [done|].
    cbn [render render_seg]. by rewrite IH.
Qed.

Lemma drop_code_clean (c : Color) (l : list Seg) : Forall clean l → Forall clean (drop_code c l).
Proof.
  induction 1 as [|x l Hx _ IH]; [constructor|].
  destruct x as [t|c']; cbn [drop_code]; [by constructor|].
  destruct (decide (c = c')); [done|by constructor].
Qed.

Lemma drop_all_codes (l : list Seg) :
  drop_code CReset (drop_code CNotice (drop_code CDebug (drop_code CError
    (drop_code CWarning (drop_code CInfo l))))) = only_text l.
Proof.
  induction l as [|x l IH]; [done|].
  destruct x as [t|[]]; cbn [drop_code only_text]; repeat case_decide; try done;
    cbn [drop_code]; repeat case_decide; try done; by rewrite IH.
Qed.

(** [stripColors] removes exactly the codes of such a line. *)
Lemma stripColors_render (l : list Seg) :
  Forall clean l → stripColors (render l) = render (only_text l).
Proof.
  intros H. unfold stripColors, replacements. cbn [fold_left fst snd].
  change colorInfoBg with (code CInfo). change colorWarningBg with (code CWarning).
  change colorErrorBg with (code CError). change colorDebugBg with (code CDebug).
  change colorNoticeBg with (code CNotice). change colorReset with (code CReset).
  rewrite !ReplaceAll_render by (repeat apply drop_code_clean; done).
  by rewrite drop_all_codes.
Qed.

Lemma only_text_esc_free (l : list Seg) : Forall clean l → esc_free (render (only_text l)).
Proof.
  induction 1 as [|x l Hx _ IH]; [done|].
  destruct x as [t|c]; cbn [only_text render render_seg]; [|done].
  by apply esc_free_app.
Qed.

(** ** The newline that the writers append *)

Section replace_before_nl.
Variables old new : string.
Hypothesis old_no_nl : Str.mem NL old = false.

Lemma hasPrefix_cut_nl (a b : string) :
  Str.hasPrefix old (a +:+ String NL b) = Str.hasPrefix old a.
Proof using old_no_nl.
  revert a old_no_nl. induction old as [|c o IH]; intros a Hm; [done|].
  cbn [Str.mem] in Hm. apply orb_false_elim in Hm as [Hc Hm].
  rewrite Ascii.eqb_sym in Hc.
  destruct a as [|x a]; rewrite ?append_cons, ?append_nil_l; cbn [Str.hasPrefix].
  - by rewrite Hc.
  - destruct (Ascii.eqb c x); [|done]. by apply IH.
Qed.

Hypothesis old_ne : old ≠ "".

Lemma replaceFrom_keeps_nl (a : string) (k : nat) :
  k ≤ String.length a →
  Str.replaceFrom old new k (a +:+ newline) = Str.replaceFrom old new k a +:+ newline.
Proof using old_no_nl old_ne.
  revert k. induction a as [|x a IH]; intros k Hk.
  - simpl in Hk. assert (k = 0) as -> by lia.
    change ("" +:+ newline) with (String NL "").
    cbn [Str.replaceFrom]. by rewrite hasPrefix_at_nl.
  - change (String x a +:+ newline) with (String x (a +:+ String NL "")).
    destruct k as [|k]; cbn [Str.replaceFrom].
    + change (String x (a +:+ String NL "")) with (String x a +:+ String NL "").
      rewrite hasPrefix_cut_nl.
      destruct (Str.hasPrefix old (String x a)) eqn:E.
      * rewrite <- (hasPrefix_cut_nl (String x a) "") in E.
        apply hasPrefix_before_nl in E; [|done]. simpl in E.
        unfold newline in IH. rewrite IH by lia. by rewrite append_assoc.
      * unfold newline in IH. rewrite IH by lia. done.
    + simpl in Hk. apply IH. lia.
Qed.

Lemma ReplaceAll_keeps_nl (a : string) :
  Str.ReplaceAll (a +:+ newline) old new = Str.ReplaceAll a old new +:+ newline.
Proof using old_no_nl old_ne.
  rewrite !ReplaceAll_nonempty by done. apply replaceFrom_keeps_nl. lia.
Qed.
End replace_before_nl.

Lemma stripColors_keeps_nl (a : string) :
  stripColors (a +:+ newline) = stripColors a +:+ newline.
Proof.
  unfold stripColors, replacements. cbn [fold_left fst snd].
  by rewrite !ReplaceAll_keeps_nl.
Qed.

(** ** The line of a clean record in the file *)

Lemma bgColorOf_code (t : LogStatus) : bgColorOf t = "" ∨ ∃ c, bgColorOf t = code c.
Proof.
  unfold bgColorOf. repeat case_match; [right..|by left].
  - by exists CInfo.
  - by exists CWarning.
  - by exists CError.
  - by exists CDebug.
  - by exists CNotice.
Qed.

Ltac flatten_append :=
  rewrite ?append_assoc; repeat rewrite ?append_cons, ?append_nil_l, ?append_nil_r.

Lemma persist_clean_line (l : ToLog) :
  clean_record l → persist true (line_of true l) = plain_line l.
Proof.
  intros (Ht & Hy & Hc).
  unfold persist, line_of, CreateFullLog, plain_line. cbn [negb FullLog].
  rewrite stripColors_keeps_nl.
  destruct (bgColorOf_code (logType l)) as [-> | [c ->]].
  - assert ("[" +:+ logTime l +:+ "] " +:+ "" +:+ " " +:+ logType l +:+ " " +:+ colorReset
            +:+ " " +:+ logContext l
            = render [Txt "["; Txt (logTime l); Txt "] "; Txt " "; Txt (logType l); Txt " ";
                      Code CReset; Txt " "; Txt (logContext l)]) as ->
      by (cbn [render render_seg code]; by flatten_append).
    rewrite stripColors_render by (repeat constructor; done).
    cbn [only_text render render_seg]. by flatten_append.
  - assert ("[" +:+ logTime l +:+ "] " +:+ code c +:+ " " +:+ logType l +:+ " " +:+ colorReset
            +:+ " " +:+ logContext l
            = render [Txt "["; Txt (logTime l); Txt "] "; Code c; Txt " "; Txt (logType l);
                      Txt " "; Code CReset; Txt " "; Txt (logContext l)]) as ->
      by (cbn [render render_seg code]; by flatten_append).
    rewrite stripColors_render by (repeat constructor; done).
    cbn [only_text render render_seg]. by flatten_append.
Qed.

Lemma persisted_clean (ls : list ToLog) :
  Forall clean_record ls →
  persisted true (map (line_of true) ls) = String.concat "" (map plain_line ls).
Proof.
  intros H. unfold persisted. rewrite map_map. f_equal.
  induction H as [|l ls Hl _ IH]; [done|]. cbn [map]. by rewrite persist_clean_line, IH.
Qed.

(** ** Configuration and levels *)

Lemma makechan_ok_spec (n : Z) : makechan_ok n = true ↔ (0 ≤ n ≤ maxChanCap)%Z.
Proof. unfold makechan_ok. rewrite andb_true_iff, !Z.leb_le. done. Qed.

Lemma isLevel_spec (level : string) : isLevel level = true ↔ level ∈ levels.
Proof.
  unfold isLevel, levels. rewrite !orb_true_iff, !String.eqb_eq.
  rewrite !elem_of_cons, elem_of_nil. tauto.
Qed.

Lemma logType_CreateFullLog (c : bool) (l : ToLog) : logType (CreateFullLog c l) = logType l.
Proof. unfold CreateFullLog. by destruct c. Qed.

(** C8: the queue capacity is 300 when the program starts;
    [SetLogChannelSize] leaves it unchanged for every size below the floor
    (101) and sets it to the requested size from the floor on; the channel
    that the next successful [initLog] makes has the configured capacity. *)
Theorem C8_channel_size_floor (size : Z) (s : Sys) (dir : bool) (fs : gmap string string)
    (env : Env) (s' : Sys) :
  channelSize (init_shared dir fs) = 300%Z ∧
  ((size < channelFloor)%Z →
     channelSize (SetLogChannelSize size (sh s)) = channelSize (sh s)) ∧
  ((channelFloor ≤ size)%Z →
     channelSize (SetLogChannelSize size (sh s)) = size) ∧
  ((channelFloor ≤ size)%Z →
     initLog env (with_sh (SetLogChannelSize size (sh s)) s) = InitOk s' →
     ∃ ch, writeChannel (sh s') = Some ch ∧ cap ch = size ∧ items ch = []).
Proof.
  unfold channelFloor, SetLogChannelSize. split; [done|].
  split; [|split].
  - intros H. by rewrite (proj2 (Z.ltb_lt _ _) H).
  - intros H. by rewrite (proj2 (Z.ltb_ge _ _) H).
  - intros H. rewrite (proj2 (Z.ltb_ge _ _) H).
    unfold initLog. repeat case_match; try done.
    all: intros [= <-]; simplify_eq; cbn; eauto.
Qed.

Lemma C8_channel_size_floor_witness :
  channelSize (SetLogChannelSize 100 (init_shared false ∅)) = 300%Z ∧
  channelSize (SetLogChannelSize 101 (init_shared false ∅)) = 101%Z.
Proof.
  pose proof (C8_channel_size_floor 100 (init_state false ∅) false ∅ (env_ok "d")
                (init_state false ∅)) as (_ & Hlow & _).
  pose proof (C8_channel_size_floor 101 (init_state false ∅) false ∅ (env_ok "d")
                (init_state false ∅)) as (_ & _ & Hhigh & _).
  split; [apply Hlow | apply Hhigh]; unfold channelFloor; lia.
Defined.

(** C9: [WithType] stores a level that is one of info, warning, error,
    notice, debug unchanged and stores unknown for every other value;
    [Type] does the same with the lower-cased string. *)
Theorem C9_level_normalised (ToLower : string → string) (withColor : bool)
    (level le : string) (l : ToLog) :
  (level ∈ levels → logType (WithType withColor level l) = level) ∧
  (level ∉ levels → logType (WithType withColor level l) = StatusUnknown) ∧
  (ToLower le ∈ levels → logType (Type_ ToLower withColor le l) = ToLower le) ∧
  (ToLower le ∉ levels → logType (Type_ ToLower withColor le l) = StatusUnknown).
Proof.
  unfold WithType, Type_. rewrite !logType_CreateFullLog. cbn [logType].
  rewrite <- !isLevel_spec.
  destruct (isLevel level), (isLevel (ToLower le)); cbn [negb];
    repeat split; intros; congruence.
Qed.

Lemma C9_level_normalised_witness :
  logType (WithType true "error" (mkToLog "info" "m" "t" "")) = "error" ∧
  logType (WithType true "fatal" (mkToLog "info" "m" "t" "")) = "unknown" ∧
  logType (Type_ ToLowerASCII true "WARNING" (mkToLog "info" "m" "t" "")) = "warning" ∧
  logType (Type_ ToLowerASCII true "Trace" (mkToLog "info" "m" "t" "")) = "unknown".
Proof.
  pose proof (C9_level_normalised ToLowerASCII true "error" "WARNING"
                (mkToLog "info" "m" "t" "")) as (H1 & _ & H3 & _).
  pose proof (C9_level_normalised ToLowerASCII true "fatal" "Trace"
                (mkToLog "info" "m" "t" "")) as (_ & H2 & _ & H4).
  split; [apply H1|split; [apply H2|split; [apply H3|apply H4]]].
  - apply isLevel_spec. reflexivity.
  - rewrite <- isLevel_spec. vm_compute. discriminate.
  - apply isLevel_spec. reflexivity.
  - rewrite <- isLevel_spec. vm_compute. discriminate.
Defined.

(** ** [CloseLogFile] on a closed writer *)

Lemma with_sh_main_id (s : Sys) : mainpc s = MIdle → with_main MIdle (with_sh (sh s) s) = s.
Proof. destruct s; cbn. by intros ->. Qed.

Lemma close_guard_noop (env : Env) (s : Sys) :
  mainpc s = MIdle →
  logFile (sh s) = None ∨ isLogFileClosed (sh s) = true →
  exec (LCall OpCloseLogFile env) s = Next s.
Proof.
  intros Hm Hg. cbn [exec call]. rewrite Hm.
  unfold main_close. cbn [CloseLogFile_step].
  assert (bool_decide (logFile (sh s) = None) || isLogFileClosed (sh s) = true) as ->.
  { destruct Hg as [->| ->]; [done|]. by rewrite orb_true_r. }
  cbn [after_close]. by rewrite with_sh_main_id.
Qed.

(** C10: when the handle is nil or the closed flag is set, a call of
    [CloseLogFile] returns in one step and leaves the whole state as it was:
    no channel is closed, nothing is flushed, nothing is done to a file,
    nothing is printed. *)
Theorem C10_close_guard (env : Env) (s : Sys) :
  mainpc s = MIdle →
  logFile (sh s) = None ∨ isLogFileClosed (sh s) = true →
  exec (LCall OpCloseLogFile env) s = Next s.
Proof. apply close_guard_noop. Qed.

Lemma C10_close_guard_witness :
  exec (LCall OpCloseLogFile (env_ok "2024-01-01")) (init_state false ∅)
  = Next (init_state false ∅).
Proof. apply C10_close_guard; [reflexivity|left; reflexivity]. Defined.

Lemma CloseLogFile_step_return (env : Env) (st : CloseStage) (g g' : Shared) :
  CloseLogFile_step env st g = CoReturn g' →
  logFile g' = None ∨ isLogFileClosed g' = true.
Proof.
  destruct st; cbn [CloseLogFile_step].
  - destruct (bool_decide (logFile g = None)) eqn:E1; cbn [orb].
    + intros [= <-]. left. by apply bool_decide_eq_true in E1.
    + destruct (isLogFileClosed g) eqn:E2; [intros [= <-]; by right|].
      repeat case_match; done.
  - repeat case_match; done.
  - repeat case_match; try done. intros [= <-]. by left.
Qed.

Lemma close_returns_guard (l : Label) (s s' : Sys) :
  CloseLogFile_returns l s s' →
  mainpc s' = MIdle ∧ (logFile (sh s') = None ∨ isLogFileClosed (sh s') = true).
Proof.
  intros (Hx & Hm & Hl). split; [done|].
  assert (∀ env st, main_close env st ARet s = Next s' →
            logFile (sh s') = None ∨ isLogFileClosed (sh s') = true) as Hc.
  { intros env st. unfold main_close.
    destruct (CloseLogFile_step env st (sh s)) as [g|st' g| | |] eqn:E; try done.
    - apply CloseLogFile_step_return in E. cbn [after_close]. by intros [= <-].
    - intros [= <-]. done. }
  destruct Hl as [[env ->]|(env & st & -> & Hpc)]; cbn [exec call] in Hx.
  - destruct (mainpc s); try done. by eapply Hc.
  - rewrite Hpc in Hx. by eapply Hc.
Qed.

(** C5: when a call of [CloseLogFile] has returned, a second call returns in
    one step with the state unchanged: the files keep their bytes, no channel
    operation, no flush and no close of the handle take place. *)
Theorem C5_close_idempotent (l : Label) (s s' : Sys) (env : Env) :
  CloseLogFile_returns l s s' →
  exec (LCall OpCloseLogFile env) s' = Next s'.
Proof.
  intros H. apply close_returns_guard in H as [Hm Hg]. by apply close_guard_noop.
Qed.

(** ** Invariants of every reachable state *)

Ltac unfold_top :=
  unfold exec, call, WriteSafe, Write, main_close, after_close, lazy_init,
    writeToFile_step, append_entry, flushBuffer, rotate_step, resume,
    SetLogWithColor in *.

Lemma live_count_app (cs1 cs2 : list Consumer) :
  live_count (cs1 ++ cs2) = live_count cs1 + live_count cs2.
Proof. induction cs1 as [|c cs1 IH]; [done|]. cbn [app live_count]. rewrite IH. lia. Qed.

Lemma live_count_insert (cs : list Consumer) (i : nat) (c c' : Consumer) :
  cs !! i = Some c →
  live_count (<[i := c']> cs) + (if is_live c then 1 else 0)
  = live_count cs + (if is_live c' then 1 else 0).
Proof.
  revert i. induction cs as [|x cs IH]; intros [|i] H; try done.
  - cbn in H. injection H as ->. cbn [live_count]. cbn.
    destruct (is_live c), (is_live c'); lia.
  - cbn in H. specialize (IH i H).
    change (<[S i:=c']> (x :: cs)) with (x :: <[i:=c']> cs). cbn [live_count].
    revert IH. destruct (is_live x), (is_live c), (is_live c'); lia.
Qed.

Lemma live_count_pos (cs : list Consumer) (i : nat) (c : Consumer) :
  cs !! i = Some c → is_live c = true → 0 < live_count cs.
Proof.
  revert i. induction cs as [|x cs IH]; intros [|i] H Hl; try done.
  - cbn in H. injection H as ->. cbn [live_count]. rewrite Hl. lia.
  - cbn in H. cbn [live_count]. specialize (IH i H Hl). destruct (is_live x); lia.
Qed.

(** The effect of the primitive operations on the control fields. *)
Lemma send_ctl (line : string) (g g' : Shared) : send line g = SendOk g' → ctl g' = ctl g.
Proof. unfold send. repeat case_match; try done. by intros [= <-]. Qed.

Lemma recv_ctl (g g' : Shared) (e : string) : recv g = Some (e, g') → ctl g' = ctl g.
Proof. unfold recv. repeat case_match; try done; intros ?; by simplify_eq. Qed.

Lemma WriteString_ctl (env : Env) (data : string) (g : Shared) :
  ctl (WriteString env data g).1 = ctl g.
Proof. unfold WriteString. by repeat case_match. Qed.

Lemma flush_write_ctl (env : Env) (g g' : Shared) (buf buf' : list string) :
  flush_write env g buf = (g', buf') → ctl g' = ctl g.
Proof.
  unfold flush_write. pose proof (WriteString_ctl env (persist (LogWithColor g) (Str.Join buf "")) g) as H.
  unfold persist in H. destruct (WriteString _ _ g) as [g1 [e|]]; intros [= <- <-]; done.
Qed.

Lemma CloseLogFile_step_next (env : Env) (st st' : CloseStage) (g g' : Shared) :
  CloseLogFile_step env st g = CoNext st' g' →
  ctl g' = ctl g ∧ st ≠ ClWait ∧ st' ≠ ClEntry.
Proof.
  unfold CloseLogFile_step. destruct st; repeat case_match; try done;
    intros [= <- <-]; repeat split; done.
Qed.

Lemma CloseLogFile_step_ret (env : Env) (st : CloseStage) (g g' : Shared) :
  CloseLogFile_step env st g = CoReturn g' →
  (st = ClEntry ∧ g' = g ∧ (logFile g = None ∨ isLogFileClosed g = true)) ∨
  (st = ClWait ∧ wg g = 0 ∧ logFile g' = None ∧ isLogFileClosed g' = true ∧
   wg g' = 0 ∧ currentLogDate g' = currentLogDate g ∧
   files g' = files g ∧ LogWithColor g' = LogWithColor g ∧ LogfilePrefix g' = LogfilePrefix g).
Proof.
  unfold CloseLogFile_step. destruct st; repeat case_match; try done; intros [= <-].
  - left. repeat split; try done.
    match goal with H : _ || _ = true |- _ => apply orb_true_iff in H as [H|H] end;
      [left; by apply bool_decide_eq_true in H|by right].
  - right. by repeat split.
Qed.

Lemma initLog_ok (env : Env) (s s' : Sys) :
  initLog env s = InitOk s' →
  let path := logFilePath (LogfilePrefix (sh s)) (env_today env) in
  logFile (sh s') = Some path ∧ isLogFileClosed (sh s') = false ∧
  currentLogDate (sh s') = env_today env ∧
  writeChannel (sh s') = Some (mkChan [] (channelSize (sh s)) false) ∧
  closeChannel (sh s') = Some false ∧
  wg (sh s') = S (wg (sh s)) ∧
  consumers s' = consumers s ++ [mkConsumer [] CSelect] ∧
  mainpc s' = mainpc s ∧
  LogfilePrefix (sh s') = LogfilePrefix (sh s) ∧
  LogWithColor (sh s') = LogWithColor (sh s) ∧
  channelSize (sh s') = channelSize (sh s) ∧
  files (sh s') = <[path := content (sh s) path]> (files (sh s)).
Proof.
  unfold initLog. repeat case_match; try done; intros [= <-]; simplify_eq; cbn; done.
Qed.

Lemma initLog_err (env : Env) (s s' : Sys) (err : string) :
  initLog env s = InitErr s' err →
  logFile (sh s') = logFile (sh s) ∧ isLogFileClosed (sh s') = isLogFileClosed (sh s) ∧
  wg (sh s') = wg (sh s) ∧ consumers s' = consumers s ∧ mainpc s' = mainpc s ∧
  writeChannel (sh s') = writeChannel (sh s) ∧ closeChannel (sh s') = closeChannel (sh s) ∧
  files (sh s') = files (sh s) ∧
  (env_mkdir env ≠ None ∨ env_open env ≠ None).
Proof.
  unfold initLog. repeat case_match; try done; intros [= <- <-]; simplify_eq; cbn;
    repeat split; try done; try (by left); by right.
Qed.

Lemma ctl_fields (g g' : Shared) :
  ctl g' = ctl g →
  logFile g' = logFile g ∧ isLogFileClosed g' = isLogFileClosed g ∧ wg g' = wg g ∧
  currentLogDate g' = currentLogDate g ∧ LogfilePrefix g' = LogfilePrefix g ∧
  LogWithColor g' = LogWithColor g ∧ channelSize g' = channelSize g.
Proof. unfold ctl. intros [= -> -> -> -> -> -> ->]. done. Qed.

Lemma SetLogChannelSize_fields (n : Z) (g : Shared) :
  logFile (SetLogChannelSize n g) = logFile g ∧
  isLogFileClosed (SetLogChannelSize n g) = isLogFileClosed g ∧
  wg (SetLogChannelSize n g) = wg g ∧
  currentLogDate (SetLogChannelSize n g) = currentLogDate g ∧
  LogfilePrefix (SetLogChannelSize n g) = LogfilePrefix g ∧
  LogWithColor (SetLogChannelSize n g) = LogWithColor g.
Proof. unfold SetLogChannelSize. by destruct (n <? 101)%Z. Qed.

Ltac prim_facts :=
  repeat match goal with
  | H : send _ _ = SendOk _ |- _ => apply send_ctl, ctl_fields in H
  | H : recv _ = Some _ |- _ => apply recv_ctl, ctl_fields in H
  | H : flush_write _ _ _ = _ |- _ => apply flush_write_ctl, ctl_fields in H
  | H : CloseLogFile_step _ _ _ = CoNext _ _ |- _ =>
      apply CloseLogFile_step_next in H as (H%ctl_fields & ? & ?)
  | H : CloseLogFile_step _ _ _ = CoReturn _ |- _ => apply CloseLogFile_step_ret in H
  | H : initLog _ _ = InitOk _ |- _ => apply initLog_ok in H; cbn zeta in H
  | H : initLog _ _ = InitErr _ _ |- _ => apply initLog_err in H
  end.

Ltac proj_simpl :=
  cbn [sh mainpc consumers with_sh with_main with_cons
       logFile isLogFileClosed wg currentLogDate LogfilePrefix LogWithColor channelSize
       writeChannel closeChannel logsDir files events
       set_prefix set_color set_date set_file set_size set_wchan set_cchan set_wg
       set_dir set_files emit buffer cpc] in *.

Lemma is_live_pc (c : Consumer) : cpc c ≠ CDone → is_live c = true.
Proof. unfold is_live. by destruct (cpc c). Qed.

Lemma exec_sys_inv (l : Label) (s s' : Sys) :
  sys_inv s → exec l s = Next s' → sys_inv s'.
Proof.
  intros Hi. unfold_top.
  repeat case_match; try done; intros [= <-]; simplify_eq.
  all: prim_facts; unfold sys_inv, handle_inv in *; proj_simpl.
  all: try match goal with
       | |- context [SetLogChannelSize ?n ?g] =>
           pose proof (SetLogChannelSize_fields n g); destruct_and!
       end.
  all: try match goal with
       | H : consumers _ !! ?i = Some ?c |- context [<[?i := ?c']> _] =>
           pose proof (live_count_insert _ i c c' H);
           pose proof (live_count_pos _ i c H);
           assert (is_live c = true) by (apply is_live_pc; congruence)
       end.
  all: try match goal with
       | |- context [(WriteString ?e ?d ?g).1] =>
           pose proof (ctl_fields _ _ (WriteString_ctl e d g));
           generalize dependent (WriteString e d g).1; intros
       end.
  all: destruct_and?; destruct_or?; destruct_and?; destruct_or?; subst; proj_simpl.
  all: repeat match goal with H : _ = _ |- _ => progress rewrite H end.
  all: rewrite ?live_count_app; cbn [live_count is_live cpc] in *.
  all: try match goal with
       | H : is_live ?c = true, H' : context [if is_live ?c then _ else _] |- _ =>
           rewrite H in H'
       end.
  all: try (split_and?; first [done | lia | congruence | intuition congruence]).
  all: exfalso; match goal with H : is_live _ = true → _, H' : is_live _ = true |- _ =>
         specialize (H H') end; intuition (try congruence; try lia).
Qed.

Lemma exec_handle_inv (l : Label) (s s' : Sys) :
  handle_inv (sh s) → exec l s = Next s' → handle_inv (sh s').
Proof.
  intros Hi. unfold_top.
  repeat case_match; try done; intros [= <-]; simplify_eq.
  all: prim_facts; unfold handle_inv in *; proj_simpl.
  all: try match goal with
       | |- context [SetLogChannelSize ?n ?g] =>
           pose proof (SetLogChannelSize_fields n g); destruct_and!
       end.
  all: try match goal with
       | |- context [(WriteString ?e ?d ?g).1] =>
           pose proof (ctl_fields _ _ (WriteString_ctl e d g));
           generalize dependent (WriteString e d g).1; intros
       end.
  all: destruct_and?; destruct_or?; destruct_and?; destruct_or?; subst; proj_simpl.
  all: repeat match goal with H : _ = _ |- _ => progress rewrite H end.
  all: first [done | congruence | intuition congruence].
Qed.

Lemma initLog_handle_inv (env : Env) (s s' : Sys) :
  handle_inv (sh s) →
  (initLog env s = InitOk s' ∨ ∃ err, initLog env s = InitErr s' err) →
  handle_inv (sh s').
Proof.
  unfold handle_inv. intros Hi [H|[err H]]; prim_facts; destruct_and?.
  - repeat match goal with H : _ = _ |- _ => progress rewrite H end. done.
  - repeat match goal with H : _ = _ |- _ => progress rewrite H end. done.
Qed.

(** C7: the handle is nil exactly when the closed flag is set.  This holds
    when the program starts and is kept by every step of every goroutine
    (calls of [WriteSafe], [Write], [CloseLogFile], [SetLogPrefix] and the
    setters, the stages of [CloseLogFile], and the consumer's steps with
    [checkLogFileDate]), and by [initLog] whether it succeeds or fails. *)
Theorem C7_handle_iff_closed (dir : bool) (fs : gmap string string) :
  handle_inv (init_shared dir fs) ∧
  (∀ l s s', handle_inv (sh s) → exec l s = Next s' → handle_inv (sh s')) ∧
  (∀ env s s', handle_inv (sh s) →
     (initLog env s = InitOk s' ∨ ∃ err, initLog env s = InitErr s' err) →
     handle_inv (sh s')).
Proof.
  split; [done|]. split.
  - apply exec_handle_inv.
  - apply initLog_handle_inv.
Qed.

(** ** Reachable states *)

Lemma init_sys_inv (dir : bool) (fs : gmap string string) : sys_inv (init_state dir fs).
Proof. done. Qed.

Lemma run_sys_inv (tr : list Label) (s s' : Sys) :
  sys_inv s → run tr s = Next s' → sys_inv s'.
Proof.
  revert s. induction tr as [|l tr IH]; intros s Hi; cbn [run].
  - by intros [= <-].
  - destruct (exec l s) as [s1| | |] eqn:E; try done.
    apply IH. by eapply exec_sys_inv.
Qed.

Lemma run_app (tr1 tr2 : list Label) (s : Sys) :
  run (tr1 ++ tr2) s = match run tr1 s with Next s1 => run tr2 s1 | r => r end.
Proof.
  revert s. induction tr1 as [|l tr1 IH]; intros s; [done|].
  cbn [run app]. destruct (exec l s); [apply IH|done..].
Qed.

(** ** Rotation from the consumer never returns *)

Lemma live_consumer_blocks_close (s : Sys) (i : nat) (c : Consumer) :
  sys_inv s → consumers s !! i = Some c → is_live c = true →
  ∃ n path, wg (sh s) = S n ∧ logFile (sh s) = Some path ∧ isLogFileClosed (sh s) = false.
Proof.
  intros (Hh & Hw & Hn) Hc Hl. pose proof (live_count_pos _ _ _ Hc Hl) as Hp.
  unfold handle_inv in Hh.
  destruct (wg (sh s)) as [|n]; [lia|].
  destruct (logFile (sh s)) as [p|]; [|by specialize (Hn eq_refl)].
  exists n, p. split; [done|]. split; [done|].
  destruct (isLogFileClosed (sh s)); [|done].
  destruct Hh as [_ Hh]. by specialize (Hh eq_refl).
Qed.

Lemma exec_rotating (l : Label) (s s' : Sys) (i : nat) (buf : list string) (k : Kont) :
  sys_inv s → rotating i buf k s → exec l s = Next s' →
  rotating i buf k s' ∧ logFile (sh s') = logFile (sh s) ∧
  currentLogDate (sh s') = currentLogDate (sh s).
Proof.
  intros Hi (c0 & st0 & Hc0 & Hpc0 & Hb0).
  assert (is_live c0 = true) as Hl0 by (apply is_live_pc; congruence).
  destruct (live_consumer_blocks_close s i c0 Hi Hc0 Hl0) as (n & path & Hwg & Hf & Hcl).
  unfold rotating. unfold_top.
  repeat case_match; try done; intros [= <-]; simplify_eq.
  all: prim_facts; proj_simpl.
  all: try match goal with
       | |- context [SetLogChannelSize ?n ?g] =>
           pose proof (SetLogChannelSize_fields n g); destruct_and!
       end.
  all: try match goal with
       | |- context [(WriteString ?e ?d ?g).1] =>
           pose proof (ctl_fields _ _ (WriteString_ctl e d g));
           generalize dependent (WriteString e d g).1; intros
       end.
  all: destruct_and?; destruct_or?; destruct_and?; destruct_or?; simplify_eq; proj_simpl.
  all: try congruence.
  all: split; [|split; congruence].
  all: try (by eauto 10).
  all: match goal with
       | |- context [<[?j := ?c']> _ !! ?i] =>
           destruct (decide (j = i)) as [->|Hne];
           [ rewrite list_lookup_insert_eq by (eapply lookup_lt_Some; eauto);
             simplify_eq;
             first [ congruence
                   | match goal with H : cpc ?c = _, H' : cpc ?c = _ |- _ =>
                       rewrite H in H'; simplify_eq end; eauto 10
                   | eauto 10 ]
           | rewrite list_lookup_insert_ne by done; eauto 10 ]
       end.
Qed.

Lemma run_rotating (tr : list Label) (s s' : Sys) (i : nat) (buf : list string) (k : Kont) :
  sys_inv s → rotating i buf k s → run tr s = Next s' →
  rotating i buf k s' ∧ logFile (sh s') = logFile (sh s) ∧
  currentLogDate (sh s') = currentLogDate (sh s).
Proof.
  revert s. induction tr as [|l tr IH]; intros s Hi Hr; cbn [run].
  - by intros [= <-].
  - destruct (exec l s) as [s1| | |] eqn:E; try done. intros Hrun.
    destruct (exec_rotating _ _ _ _ _ _ Hi Hr E) as (Hr1 & Hf1 & Hd1).
    destruct (IH s1 (exec_sys_inv _ _ _ Hi E) Hr1 Hrun) as (Hr2 & Hf2 & Hd2).
    split; [done|]. split; congruence.
Qed.

Lemma flushBuffer_enters_rotation (env : Env) (k : Kont) (buf : list string) (i : nat)
    (s : Sys) (c : Consumer) :
  consumers s !! i = Some c →
  dateChanged env (sh s) = true →
  ∃ s', flushBuffer env k buf i s = Next s' ∧ rotating i buf k s' ∧ sh s' = sh s.
Proof.
  intros Hc Hd. unfold flushBuffer. rewrite Hd. eexists. split; [done|].
  split; [|done]. exists (mkConsumer buf (CRotate ClEntry k)), ClEntry.
  cbn. rewrite list_lookup_insert_eq by (by eapply lookup_lt_Some). done.
Qed.

(** C4 (what the code does): a [flushBuffer] that sees a date other than
    [currentLogDate] sends the consumer into [CloseLogFile]; and once a
    consumer is there in a state that the program can reach, whatever the
    goroutines do next, it is still inside [CloseLogFile] with its batch
    unwritten, the handle is the one of the old file and [currentLogDate] is
    the old date: the file is not closed, no new file is opened and the date
    is not updated. *)
Theorem C4_rotation_never_completes :
  (∀ env k buf i s c,
     consumers s !! i = Some c →
     dateChanged env (sh s) = true →
     ∃ s1, flushBuffer env k buf i s = Next s1 ∧ rotating i buf k s1 ∧ sh s1 = sh s) ∧
  (∀ dir fs tr0 tr s1 s' i buf k,
     run tr0 (init_state dir fs) = Next s1 →
     rotating i buf k s1 →
     run tr s1 = Next s' →
     rotating i buf k s' ∧
     logFile (sh s') = logFile (sh s1) ∧
     currentLogDate (sh s') = currentLogDate (sh s1) ∧
     logFile (sh s') ≠ None ∧ isLogFileClosed (sh s') = false).
Proof.
  split; [apply flushBuffer_enters_rotation|].
  intros dir fs tr0 tr s1 s' i buf k Hreach Hr Hrun.
  pose proof (run_sys_inv _ _ _ (init_sys_inv dir fs) Hreach) as Hi1.
  destruct (run_rotating _ _ _ _ _ _ Hi1 Hr Hrun) as (Hr' & Hf' & Hd').
  split; [done|]. split; [done|]. split; [done|].
  destruct Hr' as (c' & st' & Hc' & Hpc' & _).
  destruct (live_consumer_blocks_close s' i c' (run_sys_inv _ _ _ Hi1 Hrun) Hc')
    as (n & path & _ & Hp & Hcl); [apply is_live_pc; congruence|].
  rewrite Hp. done.
Qed.

(** ** A flush whose write fails *)

Lemma content_write (g : Shared) (path data m : string) :
  content (emit (EvWrite path data) (set_files (<[path := m]> (files g)) g)) path = m.
Proof. unfold content. cbn. by rewrite lookup_insert_eq. Qed.

(** *** What a step does to the buffer of a consumer *)

Lemma content_files (g g' : Shared) (p : string) :
  files g' = files g → content g' p = content g p.
Proof. unfold content. by intros ->. Qed.

Lemma recv_files (g g' : Shared) (e : string) : recv g = Some (e, g') → files g' = files g.
Proof. unfold recv. repeat case_match; try done; intros ?; by simplify_eq. Qed.

Lemma CloseLogFile_step_files (env : Env) (st : CloseStage) (g g' : Shared) :
  (CloseLogFile_step env st g = CoReturn g' ∨ ∃ st', CloseLogFile_step env st g = CoNext st' g') →
  files g' = files g ∧ LogWithColor g' = LogWithColor g.
Proof.
  unfold CloseLogFile_step.
  destruct st; repeat case_match; try done; intros [Hr|(st' & Hr)]; by simplify_eq.
Qed.

Lemma initLog_content (env : Env) (s s' : Sys) :
  (initLog env s = InitOk s' ∨ ∃ err, initLog env s = InitErr s' err) →
  (∀ p, content (sh s') p = content (sh s) p) ∧
  LogWithColor (sh s') = LogWithColor (sh s) ∧
  (∀ i c, consumers s !! i = Some c → consumers s' !! i = Some c).
Proof.
  intros [H|(err & H)].
  - apply initLog_ok in H. cbn zeta in H. destruct_and!. split_and!; [|done|].
    + intros p. unfold content at 1.
      match goal with H : files (sh s') = _ |- _ => rewrite H end.
      destruct (decide (logFilePath (LogfilePrefix (sh s)) (env_today env) = p)) as [<-|Hne].
      * by rewrite lookup_insert_eq.
      * by rewrite lookup_insert_ne.
    + intros i c Hc.
      match goal with H : consumers s' = _ |- _ => rewrite H end.
      by apply lookup_app_l_Some.
  - unfold initLog in H. repeat case_match; try done; injection H as <- <-; by simplify_eq.
Qed.

Lemma flush_write_cases (env : Env) (g g' : Shared) (b b' : list string) :
  flush_write env g b = (g', b') →
  LogWithColor g' = LogWithColor g ∧ wg g' = wg g ∧
  (b' = b ∨
   b' = [] ∧ ∃ path, logFile g' = Some path ∧
     content g' path = content g path +:+ persist (LogWithColor g) (Str.Join b "")).
Proof.
  intros H. pose proof (ctl_fields _ _ (flush_write_ctl _ _ _ _ _ H)) as Hc.
  destruct_and!. split; [done|]. split; [done|].
  revert H. unfold flush_write, persist, WriteString.
  destruct (logFile g) as [path|] eqn:Hf; [destruct (env_write env) as [[n err]|]|].
  - intros [= <- <-]. by left.
  - intros [= <- <-]. right. split; [done|]. exists path. split; [done|].
    apply content_write.
  - intros [= <- <-]. by left.
Qed.

Lemma resume_next (k : Kont) (b : list string) (i : nat) (s s' : Sys) :
  resume k b i s = Next s' →
  files (sh s') = files (sh s) ∧ logFile (sh s') = logFile (sh s) ∧
  ∃ pc, consumers s' = <[i := mkConsumer b pc]> (consumers s) ∧ (pc = CDone ↔ k = KExit).
Proof.
  unfold resume. destruct k; [| |destruct (wg (sh s)); [done|]]; intros [= <-];
    (split; [done|]); (split; [done|]); eexists; (split; [done|]); done.
Qed.

(** After a [flushBuffer] on [b] the buffer is [b] again (the date changed,
    or the write failed) or it is empty and [b] is in the file. *)
Lemma flushBuffer_batch (env : Env) (k : Kont) (b : list string) (i : nat) (s s' : Sys)
    (c : Consumer) :
  consumers s !! i = Some c →
  flushBuffer env k b i s = Next s' →
  ∃ c', consumers s' !! i = Some c' ∧
    (buffer c' = b ∨ buffer c' = [] ∧ flushed b s s').
Proof.
  intros Hc. apply lookup_lt_Some in Hc. unfold flushBuffer.
  destruct (dateChanged env (sh s)).
  - intros [= <-]. eexists. cbn. rewrite list_lookup_insert_eq by done.
    split; [done|]. by left.
  - destruct (flush_write env (sh s) b) as [g b'] eqn:Hfw.
    apply flush_write_cases in Hfw as (_ & _ & Hfw).
    intros (Hfiles & Hlf & pc & Hcs & _)%resume_next. cbn in Hfiles, Hlf, Hcs.
    exists (mkConsumer b' pc). rewrite Hcs, list_lookup_insert_eq by done.
    split; [done|]. cbn. destruct Hfw as [->|(-> & path & Hp & Hcon)]; [by left|right].
    split; [done|]. exists path. split; [congruence|].
    by rewrite (content_files _ _ _ Hfiles).
Qed.

Lemma flushed_after (ls : list string) (s0 s s' : Sys) :
  (∀ p, content (sh s) p = content (sh s0) p) → LogWithColor (sh s) = LogWithColor (sh s0) →
  flushed ls s s' → flushed ls s0 s'.
Proof. intros Hc Hf (path & Hp & H). exists path. by rewrite <- Hc, <- Hf. Qed.

Lemma append_entry_batch (env : Env) (k : Kont) (b : list string) (e : string) (i : nat)
    (s s' : Sys) (c : Consumer) :
  consumers s !! i = Some c →
  append_entry env k b e i s = Next s' →
  ∃ c', consumers s' !! i = Some c' ∧
    (buffer c' = b ++ [e] ∨ buffer c' = [] ∧ flushed (b ++ [e]) s s').
Proof.
  intros Hc. unfold append_entry. case_match.
  - by apply flushBuffer_batch with c.
  - intros [= <-]. eexists. cbn.
    rewrite list_lookup_insert_eq by (by eapply lookup_lt_Some). split; [done|]. by left.
Qed.

Lemma rotate_step_batch (env : Env) (st : CloseStage) (k : Kont) (b : list string) (i : nat)
    (s s' : Sys) (c : Consumer) :
  consumers s !! i = Some c →
  rotate_step env st k b i s = Next s' →
  ∃ c', consumers s' !! i = Some c' ∧ (buffer c' = b ∨ buffer c' = [] ∧ flushed b s s').
Proof.
  intros Hc. unfold rotate_step.
  destruct (CloseLogFile_step env st (sh s)) as [g|st' g| | |] eqn:Hcl; try done.
  - destruct (CloseLogFile_step_files env st (sh s) g (or_introl Hcl)) as [Hfiles Hcol].
    assert (∀ s1, (initLog env (with_sh g s) = InitOk s1 ∨
                   ∃ err, initLog env (with_sh g s) = InitErr s1 err) →
                  (let '(g0, buffer) := flush_write env (sh s1) b in
                   resume k buffer i (with_sh g0 s1)) = Next s' →
                  ∃ c', consumers s' !! i = Some c' ∧
                    (buffer c' = b ∨ buffer c' = [] ∧ flushed b s s')) as Hgo.
    { intros s1 (Hcon & Hcol1 & Hcs1)%initLog_content.
      specialize (Hcs1 i c Hc). cbn in Hcon, Hcol1.
      destruct (flush_write env (sh s1) b) as [g0 b'] eqn:Hfw.
      apply flush_write_cases in Hfw as (_ & _ & Hfw).
      intros (Hf' & Hlf & pc & Hcs & _)%resume_next. cbn in Hf', Hlf, Hcs.
      exists (mkConsumer b' pc).
      rewrite Hcs, list_lookup_insert_eq by (by eapply lookup_lt_Some).
      split; [done|]. cbn. destruct Hfw as [->|(-> & path & Hp & Hw)]; [by left|right].
      split; [done|]. exists path. split; [congruence|].
      rewrite (content_files _ _ _ Hf'), Hw, Hcon, Hcol1, Hcol.
      by rewrite (content_files _ _ _ Hfiles). }
    destruct (initLog env (with_sh g s)) as [s1|s1 err|m] eqn:Hi; [| |done].
    + apply Hgo. by left.
    + apply Hgo. right. by exists err.
  - intros [= <-]. eexists. cbn.
    rewrite list_lookup_insert_eq by (by eapply lookup_lt_Some). split; [done|]. by left.
Qed.

(** A step of consumer [i] leaves in its buffer what was there, with the line
    it may have received behind it, or empties the buffer into the file. *)
Lemma writeToFile_step_batch (env : Env) (a : CAct) (i : nat) (c : Consumer) (s s' : Sys) :
  consumers s !! i = Some c →
  writeToFile_step env a i c s = Next s' →
  ∃ c' later, consumers s' !! i = Some c' ∧
    (buffer c' = buffer c ++ later ∨ buffer c' = [] ∧ flushed (buffer c ++ later) s s').
Proof.
  intros Hc. unfold writeToFile_step.
  assert (∀ k g e, recv (sh s) = Some (e, g) →
            append_entry env k (buffer c) e i (with_sh g s) = Next s' →
            ∃ c' later, consumers s' !! i = Some c' ∧
              (buffer c' = buffer c ++ later ∨
               buffer c' = [] ∧ flushed (buffer c ++ later) s s')) as Hrecv.
  { intros k g e Hr Ha. pose proof (recv_files _ _ _ Hr) as Hfiles.
    apply recv_ctl, ctl_fields in Hr. destruct_and!.
    destruct (append_entry_batch env k (buffer c) e i (with_sh g s) s' c Hc Ha)
      as (c' & Hc' & [Hb|[Hb Hfl]]); exists c', [e]; (split; [done|]); [by left|right].
    split; [done|]. eapply flushed_after; [| |exact Hfl]; cbn; [|done].
    intros p. by apply content_files. }
  assert (∀ k, flushBuffer env k (buffer c) i s = Next s' →
            ∃ c' later, consumers s' !! i = Some c' ∧
              (buffer c' = buffer c ++ later ∨
               buffer c' = [] ∧ flushed (buffer c ++ later) s s')) as Hflush.
  { intros k Hf. destruct (flushBuffer_batch env k (buffer c) i s s' c Hc Hf)
      as (c' & Hc' & H). exists c', []. by rewrite app_nil_r. }
  assert (∀ c', consumers s' !! i = Some c' → buffer c' = buffer c →
            ∃ c' later, consumers s' !! i = Some c' ∧
              (buffer c' = buffer c ++ later ∨
               buffer c' = [] ∧ flushed (buffer c ++ later) s s')) as Hsame.
  { intros c' Hc' Hb. exists c', []. rewrite app_nil_r. split; [done|]. by left. }
  destruct (cpc c) as [| |st k|] eqn:Hpc, a; try done.
  - destruct (recv (sh s)) as [[e g]|] eqn:Hr; [|done]. by apply Hrecv.
  - case_match; [apply Hflush|]. intros [= <-]. by apply (Hsame c).
  - destruct (closeChannel (sh s)) as [[|]|]; try done.
    case_match; [apply Hflush|]. intros [= <-]. apply (Hsame (mkConsumer (buffer c) CDrain)); [|done].
    cbn. by rewrite list_lookup_insert_eq by (by eapply lookup_lt_Some).
  - case_match.
    + destruct (recv (sh s)) as [[e g]|] eqn:Hr; [|done]. by apply Hrecv.
    + case_match; [apply Hflush|].
      intros (_ & _ & pc & Hcs & _)%resume_next.
      apply (Hsame (mkConsumer (buffer c) pc)); [|done].
      by rewrite Hcs, list_lookup_insert_eq by (by eapply lookup_lt_Some).
  - intros Hr. destruct (rotate_step_batch env st k (buffer c) i s s' c Hc Hr)
      as (c' & Hc' & H). exists c', []. by rewrite app_nil_r.
Qed.

(** A step of the user's goroutine or of another consumer leaves consumer
    [i] as it is. *)
Lemma exec_other_consumer (l : Label) (s s' : Sys) (i : nat) (c : Consumer) :
  consumers s !! i = Some c →
  (∀ a e, l ≠ LCons i a e) →
  exec l s = Next s' →
  consumers s' !! i = Some c.
Proof.
  intros Hc Hl. unfold_top.
  repeat case_match; try done; intros [= <-]; simplify_eq.
  all: prim_facts; proj_simpl; destruct_and?.
  all: repeat match goal with H : consumers _ = _ |- _ => rewrite H end.
  all: try (by apply lookup_app_l_Some).
  all: try done.
  all: match goal with
       | |- <[?j := _]> _ !! _ = _ =>
           rewrite list_lookup_insert_ne;
             [first [done|by apply lookup_app_l_Some]|]; intros ->; by eapply Hl
       end.
Qed.

(** A consumer that has returned does not move. *)
Lemma done_consumer_blocked (i : nat) (a : CAct) (env : Env) (s : Sys) (c : Consumer) :
  consumers s !! i = Some c → cpc c = CDone → exec (LCons i a env) s = Disabled.
Proof. intros Hc Hd. unfold exec, writeToFile_step. rewrite Hc, Hd. by destruct a. Qed.

(** C2 (as the code has it): when the write of a flush fails with [err],
    ["[error] err"] is printed and [flushBuffer] returns with the buffer as it
    was.  If the flush was one of the select or of the drain loop, the
    consumer goes on with the batch at the head of its buffer; from there each
    step of the program keeps the batch at the head of the buffer (a received
    line goes behind it), or writes it to the file of the handle together with
    the lines behind it, or is the return of the consumer with the batch
    still in the buffer.  If the failed flush was the last one of the shutdown
    path the consumer, which the wait group counts, returns at once.  A
    consumer that has returned never moves again: the batch it held is
    written by no later step. *)
Theorem C2_failed_flush_keeps_batch (env : Env) (k : Kont) (buf : list string)
    (i : nat) (s : Sys) (g1 : Shared) (err : string) :
  dateChanged env (sh s) = false →
  WriteString env (persist (LogWithColor (sh s)) (Str.Join buf "")) (sh s) = (g1, Some err) →
  flush_write env (sh s) buf = (emit (EvPrintln ("[error] " +:+ err)) g1, buf) ∧
  flushBuffer env k buf i s
  = resume k buf i (with_sh (emit (EvPrintln ("[error] " +:+ err)) g1) s) ∧
  (∀ c, consumers s !! i = Some c → k ≠ KExit →
     ∃ s1, flushBuffer env k buf i s = Next s1 ∧ holds_batch i buf s1) ∧
  (∀ c, consumers s !! i = Some c → wg (sh s) ≠ 0 → k = KExit →
     ∃ s1, flushBuffer env k buf i s = Next s1 ∧ lost_batch i buf s1) ∧
  (∀ l x x', holds_batch i buf x → exec l x = Next x' →
     holds_batch i buf x' ∨ wrote_batch buf x x' ∨ lost_batch i buf x') ∧
  (∀ l x x', lost_batch i buf x → exec l x = Next x' →
     lost_batch i buf x' ∧ ∀ a e, l ≠ LCons i a e).
Proof.
  intros Hd Hw.
  assert (Hfw : flush_write env (sh s) buf = (emit (EvPrintln ("[error] " +:+ err)) g1, buf)).
  { unfold flush_write. unfold persist in Hw. by rewrite Hw. }
  assert (Hfb : flushBuffer env k buf i s
                = resume k buf i (with_sh (emit (EvPrintln ("[error] " +:+ err)) g1) s)).
  { unfold flushBuffer. by rewrite Hd, Hfw. }
  split; [done|]. split; [done|]. split_and!.
  - intros c Hc Hk. rewrite Hfb. apply lookup_lt_Some in Hc.
    destruct k; [| |done]; (eexists; split; [reflexivity|]);
      eexists _, []; cbn; rewrite list_lookup_insert_eq by done;
      split_and!; try done; by rewrite app_nil_r.
  - intros c Hc Hwg ->. rewrite Hfb. apply lookup_lt_Some in Hc.
    apply flush_write_cases in Hfw as (_ & Hwg' & _). unfold resume. cbn [sh with_sh].
    rewrite Hwg'. destruct (wg (sh s)) as [|n]; [done|].
    eexists. split; [reflexivity|]. eexists _, []. cbn.
    rewrite list_lookup_insert_eq by done. split_and!; try done. by rewrite app_nil_r.
  - intros l x x' (c & later & Hc & Hpc & Hb) Hx.
    assert (∃ c' later', consumers x' !! i = Some c' ∧
              (buffer c' = buf ++ later' ∨ wrote_batch buf x x')) as (c' & later' & Hc' & H).
    { assert ((∃ a e, l = LCons i a e) ∨ ∀ a e, l ≠ LCons i a e) as [(a & e & ->)|Hne].
      { destruct l as [op e|e|j a e]; [by right..|].
        destruct (decide (j = i)) as [->|Hj]; [left; by exists a, e|right; congruence]. }
      - unfold exec in Hx. rewrite Hc in Hx.
        destruct (writeToFile_step_batch e a i c x x' Hc Hx) as (c' & l1 & Hc' & H).
        exists c', (later ++ l1). split; [done|]. rewrite Hb, <- app_assoc in H.
        destruct H as [H|[_ H]]; [by left|right]. by exists (later ++ l1).
      - exists c, later. split; [|by left].
        by eapply exec_other_consumer. }
    destruct H as [H|H]; [|by right; left].
    destruct (cpc c') eqn:Hpc'; [left|left|left|right; right]; exists c', later';
      by rewrite Hpc'.
  - intros l x x' (c & later & Hc & Hpc & Hb) Hx.
    assert (∀ a e, l ≠ LCons i a e) as Hne.
    { intros a e ->. by rewrite (done_consumer_blocked i a e x c Hc Hpc) in Hx. }
    split; [|done]. exists c, later. split; [|done]. by eapply exec_other_consumer.
Qed.

Lemma C2_failed_flush_keeps_batch_witness :
  flush_write day1_write_error (sh one_line_received) [line_of true rec1]
  = (emit (EvPrintln "[error] no space left on device")
       (emit (EvWrite path1 "") (sh one_line_received)), [line_of true rec1]) ∧
  holds_batch 0 [line_of true rec1] after_failed_flush ∧
  lost_batch 0 [line_of true rec1] after_last_flush.
Proof.
  set (s := one_line_received).
  destruct (C2_failed_flush_keeps_batch day1_write_error KSelect [line_of true rec1] 0 s
              (emit (EvWrite path1 "") (sh s)) "no space left on device")
    as (H & _ & Hk & _); [vm_compute; reflexivity..|].
  destruct (C2_failed_flush_keeps_batch day1_write_error KExit [line_of true rec1] 0
              before_last_flush (emit (EvWrite path1 "") (sh before_last_flush))
              "no space left on device")
    as (_ & _ & _ & Hx & _); [vm_compute; reflexivity..|].
  split; [rewrite H; reflexivity|]. split.
  - destruct (Hk (mkConsumer [line_of true rec1] CSelect)) as (s1 & Hs1 & Hh);
      [vm_compute; reflexivity|discriminate|].
    assert (Hs : flushBuffer day1_write_error KSelect [line_of true rec1] 0 s
                 = Next after_failed_flush) by (vm_compute; reflexivity).
    rewrite Hs in Hs1. injection Hs1 as <-. exact Hh.
  - destruct (Hx (mkConsumer [line_of true rec1] CDrain)) as (s1 & Hs1 & Hl);
      [vm_compute; reflexivity|vm_compute; discriminate|reflexivity|].
    assert (Hs : flushBuffer day1_write_error KExit [line_of true rec1] 0 before_last_flush
                 = Next after_last_flush) by (vm_compute; reflexivity).
    rewrite Hs in Hs1. injection Hs1 as <-. exact Hl.
Defined.

(** The claim fails: after the failed flush the buffer still holds the
    line, and the next flush writes it together with the later line. *)
Lemma C2_counterexample :
  run failed_flush_schedule (init_state false ∅) = Next after_failed_flush ∧
  buffer <$> (consumers after_failed_flush !! 0) = Some [line_of true rec1] ∧
  buffer <$> (consumers after_failed_flush !! 0) ≠ Some [] ∧
  run retry_schedule after_failed_flush = Next after_retry ∧
  last (events (sh after_retry))
  = Some (EvWrite path1 (stripColors (line_of true rec1 +:+ line_of true rec2))).
Proof. vm_compute. repeat split; try reflexivity. discriminate. Qed.

(** The batch of a failed last flush is lost: the writer is closed, the
    consumer has returned with the line in its buffer and the file is empty. *)
Example last_flush_loses_batch :
  run failing_close_schedule (init_state false ∅) = Next before_last_flush ∧
  exec (LCons 0 AStep day1_write_error) before_last_flush = Next after_last_flush ∧
  exec (LMain day1) after_last_flush = Next closed_without_lines ∧
  mainpc closed_without_lines = MIdle ∧
  logFile (sh closed_without_lines) = None ∧
  consumers closed_without_lines = [mkConsumer [line_of true rec1] CDone] ∧
  content (sh closed_without_lines) path1 = "".
Proof. vm_compute. repeat split; reflexivity. Qed.

(** ** Colour codes in the persisted bytes *)

Lemma bgColorOf_seg (t : LogStatus) : ∃ x, clean x ∧ render_seg x = bgColorOf t.
Proof.
  unfold bgColorOf. repeat case_match.
  - by exists (Code CInfo).
  - by exists (Code CWarning).
  - by exists (Code CError).
  - by exists (Code CDebug).
  - by exists (Code CNotice).
  - by exists (Txt "").
Qed.

Lemma formatted_render (line : string) :
  formatted line → ∃ segs, Forall clean segs ∧ line = render segs.
Proof.
  intros (c & l & (Ht & Hy & Hc) & ->). unfold line_of, CreateFullLog.
  destruct c; cbn [negb FullLog].
  - destruct (bgColorOf_seg (logType l)) as (x & Hx & <-).
    exists [Txt "["; Txt (logTime l); Txt "] "; x; Txt " "; Txt (logType l); Txt " ";
            Code CReset; Txt " "; Txt (logContext l); Txt newline].
    split; [repeat constructor; done|].
    cbn [render render_seg code]. by rewrite !append_assoc, append_nil_r.
  - exists [Txt "["; Txt (logTime l); Txt "] ["; Txt (logType l); Txt "] "; Txt " ";
            Txt (logContext l); Txt newline].
    split; [repeat constructor; done|].
    cbn [render render_seg]. by rewrite !append_assoc, append_nil_r.
Qed.

Lemma batch_render (buf : list string) :
  Forall formatted buf → ∃ segs, Forall clean segs ∧ Str.Join buf "" = render segs.
Proof.
  unfold Str.Join. induction 1 as [|x buf Hx _ (segs & Hs & IH)].
  - by exists [].
  - destruct (formatted_render x Hx) as (sx & Hsx & ->).
    exists (sx ++ segs). split; [by apply Forall_app|].
    by rewrite concat_cons, render_app, IH.
Qed.

(** C3 (as the code has it): the batch is stripped before the write exactly
    when the colour flag is on at the time of the flush, and written as it
    is when the flag is off.  With the flag on, a batch of lines that the
    formatter made from records without escape bytes reaches the file
    without any escape byte. *)
Theorem C3_strip_follows_flag (env : Env) (g : Shared) (buf : list string) (path : string) :
  logFile g = Some path →
  env_write env = None →
  content (flush_write env g buf).1 path
  = content g path +:+ (if LogWithColor g then stripColors (Str.Join buf "")
                        else Str.Join buf "") ∧
  (Forall formatted buf → esc_free (stripColors (Str.Join buf ""))).
Proof.
  intros Hf Hw. split.
  - unfold flush_write, WriteString. rewrite Hf, Hw. cbn [fst].
    by rewrite content_write.
  - intros H. destruct (batch_render buf H) as (segs & Hs & ->).
    rewrite stripColors_render by done. by apply only_text_esc_free.
Qed.

Lemma C3_strip_follows_flag_witness :
  content (flush_write day1 (sh one_line_received) [line_of true rec1]).1 path1
  = String "[" "10:00:00]  info  hello" +:+ newline.
Proof.
  set (s := one_line_received).
  destruct (C3_strip_follows_flag day1 (sh s) [line_of true rec1] path1) as [H _].
  - vm_compute. reflexivity.
  - reflexivity.
  - rewrite H. vm_compute. reflexivity.
Defined.

(** The claim fails: a line colourised while the flag was on is flushed
    after the flag was switched off, and the file holds the colour codes. *)
Lemma C3_counterexample :
  run flag_off_schedule (init_state false ∅) = Next after_flag_off ∧
  content (sh after_flag_off) path1 = line_of true rec1 ∧
  Str.Contains (content (sh after_flag_off) path1) colorInfoBg = true ∧
  content (sh after_flag_off) path1 ≠ stripColors (line_of true rec1).
Proof. vm_compute. repeat split; try reflexivity. discriminate. Qed.

(** ** The single-producer run *)

Lemma persisted_app (c : bool) (a b : list string) :
  persisted c (a ++ b) = persisted c a +:+ persisted c b.
Proof. unfold persisted. by rewrite map_app, concat_app. Qed.

Lemma persist_empty (c : bool) : persist c "" = "".
Proof. by destruct c. Qed.

Lemma persist_join (c : bool) (buf : list string) :
  Forall line_like buf → persist c (Str.Join buf "") = persisted c buf.
Proof.
  intros H. unfold persist, persisted, Str.Join. destruct c.
  - by apply stripColors_concat.
  - by rewrite map_id.
Qed.

Lemma line_of_line_like (c : bool) (l : ToLog) : line_like (line_of c l).
Proof. right. by eexists. Qed.

Lemma all_done_live_count (cs : list Consumer) : live_count cs = 0 → all_done cs.
Proof.
  induction cs as [|x cs IH]; [constructor|]. cbn [live_count].
  unfold is_live at 1. destruct (cpc x) eqn:E; try (intros; lia).
  intros H. constructor; [done|]. apply IH. lia.
Qed.

Lemma calls_cons (l : Label) (tr : list Label) :
  calls (l :: tr) = match l with LCall op _ => op :: calls tr | _ => calls tr end.
Proof. by destruct l. Qed.

Lemma flush_eq (c : bool) (F B : string) (buf rest : list string) :
  Forall line_like buf →
  F +:+ persisted c (buf ++ rest) = B →
  (F +:+ persist c (Str.Join buf "")) +:+ persisted c rest = B.
Proof. intros H <-. by rewrite persist_join, append_assoc, persisted_app. Qed.

Lemma flush_eq_all (c : bool) (F B : string) (buf : list string) :
  Forall line_like buf →
  F +:+ persisted c buf = B →
  F +:+ persist c (Str.Join buf "") = B.
Proof. intros H <-. by rewrite persist_join. Qed.

Lemma default_Some (x : string) : default "" (Some x) = x.
Proof. reflexivity. Qed.

Lemma content_mk (p : string) (c : bool) (d : string) (f : option string) (cl : bool)
    (n : Z) (w : option Chan) (cc : option bool) (k : nat) (dir : bool)
    (m : gmap string string) (ev : list Event) (path : string) :
  content (mkShared p c d f cl n w cc k dir m ev) path = default "" (m !! path).
Proof. reflexivity. Qed.

Lemma lookup_consumer (old : list Consumer) (cj x : Consumer) (i : nat) :
  all_done old →
  (old ++ [cj]) !! i = Some x →
  cpc x = CDone ∨ (i = length old ∧ x = cj).
Proof.
  intros Hold H. apply lookup_app_Some in H as [H|[Hl H]].
  - left. unfold all_done in Hold. rewrite Forall_forall in Hold.
    apply Hold. by eapply list_elem_of_lookup_2.
  - right. destruct (i - length old) eqn:E; [|by destruct n].
    cbn in H. injection H as <-. split; [lia|done].
Qed.

Lemma insert_consumer (old : list Consumer) (cj c' : Consumer) :
  <[length old := c']> (old ++ [cj]) = old ++ [c'].
Proof. rewrite insert_app_r_alt by lia. by rewrite Nat.sub_diag. Qed.

Lemma lookup_last_consumer (old : list Consumer) (cj : Consumer) :
  (old ++ [cj]) !! length old = Some cj.
Proof. rewrite lookup_app_r by lia. by rewrite Nat.sub_diag. Qed.


(** Evaluation of a step on a state whose fields are known. *)
Ltac ev_in H :=
  unfold content in H;
  cbn -[stripColors Str.Join String.concat Nat.leb Nat.ltb String.eqb lookup insert
        persist persisted threshold] in H.

Ltac ev :=
  unfold content;
  cbn -[stripColors Str.Join String.concat Nat.leb Nat.ltb String.eqb lookup insert
        persist persisted threshold].

Ltac fin :=
  ev; rewrite ?insert_consumer, ?lookup_insert_eq, ?default_Some; cbn [app];
  split_and!; try done.

Ltac eval_step H :=
  unfold append_entry, flushBuffer, flush_write, WriteString, resume, dateChanged,
    rotate_step in H;
  ev_in H; rewrite ?String.eqb_refl, ?insert_consumer in H; ev_in H.


Section scenario.
Variable sc : Scenario.
Hypothesis old_done : all_done (sc_old sc).

Ltac dead_or_me Hi Hx :=
  apply (lookup_consumer _ _ _ _ old_done) in Hi as [Hdone|[-> ->]];
  [ unfold writeToFile_step in Hx; rewrite Hdone in Hx; done | ].

Lemma open_step (l : Label) (sent : list string) (s s' : Sys) :
  open_inv sc sent s →
  label_env l = env_ok (sc_day sc) →
  calls [l] = [] →
  exec l s = Next s' →
  open_inv sc sent s'.
Proof using old_done.
  intros (buf & its & cp & Hm & Hc & Hp & Hf & Hcl & Hd & Hwg & Hw & Hcc & Hcs & Hll & Heq)
    Hl Hcall Hx.
  destruct s as [g pc cs]. destruct g. cbn in Hc, Hp, Hf, Hcl, Hd, Hwg, Hw, Hcc, Hcs, Hm.
  cbn [sh mainpc] in Hll, Heq. rewrite content_mk in Heq. subst.
  fold (persist (sc_color sc)) in *.
  destruct l as [op env|env|i a env]; [done| |]; cbn in Hl; subst env.
  - cbn in Hx. destruct Hm as [->|[line ->]]; [done|].
    destruct (Z.of_nat (length its) <? cp)%Z; [|done]. injection Hx as <-.
    exists buf, (its ++ [line]), cp. cbn. split_and!; try done; try (by left).
    + by rewrite app_nil_r.
    + by rewrite app_nil_r.
  - cbn in Hx. destruct ((sc_old sc ++ _) !! i) as [x|] eqn:Hi; [|done].
    dead_or_me Hi Hx.
    destruct a; eval_step Hx; try done.
    + (* a line is received *)
      destruct its as [|e rest]; [done|]. eval_step Hx.
      assert (Hll' : Forall line_like ((buf ++ [e]) ++ rest ++ pending pc))
        by (by rewrite <- app_assoc).
      assert (Heq' : default "" (files0 !! sc_path sc)
                     +:+ persisted (sc_color sc) ((buf ++ [e]) ++ rest ++ pending pc)
                     = sc_before sc +:+ persisted (sc_color sc) sent)
        by (by rewrite <- app_assoc).
      destruct (threshold <=? length (buf ++ [e])) eqn:Eth; eval_step Hx;
        injection Hx as <-.
      * exists [], rest, cp. fin.
        -- by apply Forall_app in Hll' as [_ ?].
        -- apply flush_eq; [|done]. by apply Forall_app in Hll' as [? _].
      * exists (buf ++ [e]), rest, cp. by fin.
    + (* the ticker fires *)
      destruct (0 <? length buf); eval_step Hx; injection Hx as <-.
      * exists [], its, cp. fin.
        -- by apply Forall_app in Hll as [_ ?].
        -- apply flush_eq; [|done]. by apply Forall_app in Hll as [? _].
      * exists buf, its, cp. by fin.
Qed.

Lemma fresh_WriteSafe (r : ToLog) (s s' : Sys) :
  fresh_inv sc s →
  exec (LCall (OpWriteSafe r) (env_ok (sc_day sc))) s = Next s' →
  open_inv sc [line_of (sc_color sc) r] s'.
Proof.
  intros (Hm & Hf & Hwg & Hcs & Hc & Hp & Hb) Hx.
  destruct s as [g pc cs]. destruct g. cbn in Hm, Hf, Hwg, Hcs, Hc, Hp.
  cbn [sh] in Hb. rewrite content_mk in Hb. subst.
  cbn [exec call mainpc] in Hx. unfold WriteSafe, lazy_init, initLog in Hx.
  ev_in Hx. fold (sc_path sc) in Hx.
  destruct logsDir0; ev_in Hx; (destruct (makechan_ok channelSize0); [|done]); ev_in Hx;
    fold (line_of (sc_color sc) r) in Hx;
    (destruct (Z.of_nat 0 <? channelSize0)%Z; injection Hx as <-);
    eexists [], _, channelSize0; fin; try (by left); try (by right; eexists);
    rewrite ?app_nil_r, ?Hb; try done;
    try (by apply Forall_singleton, line_of_line_like).
Qed.

Lemma open_WriteSafe (r : ToLog) (sent : list string) (s s' : Sys) :
  open_inv sc sent s →
  exec (LCall (OpWriteSafe r) (env_ok (sc_day sc))) s = Next s' →
  open_inv sc (sent ++ [line_of (sc_color sc) r]) s'.
Proof.
  intros (buf & its & cp & Hm & Hc & Hp & Hf & Hcl & Hd & Hwg & Hw & Hcc & Hcs & Hll & Heq)
    Hx.
  destruct s as [g pc cs]. destruct g. cbn in Hc, Hp, Hf, Hcl, Hd, Hwg, Hw, Hcc, Hcs, Hm.
  cbn [sh mainpc] in Hll, Heq. rewrite content_mk in Heq. subst.
  cbn [exec mainpc] in Hx. destruct Hm as [->|[line ->]]; [|done].
  cbn [pending] in Hll, Heq. rewrite app_nil_r in Hll, Heq.
  cbn [call] in Hx. unfold WriteSafe, lazy_init in Hx. ev_in Hx.
  fold (line_of (sc_color sc) r) in Hx.
  assert (Hll' : Forall line_like (buf ++ its ++ [line_of (sc_color sc) r])).
  { rewrite app_assoc. apply Forall_app. split; [done|].
    by apply Forall_singleton, line_of_line_like. }
  assert (Heq' : default "" (files0 !! sc_path sc)
                 +:+ persisted (sc_color sc) (buf ++ its ++ [line_of (sc_color sc) r])
                 = sc_before sc +:+ persisted (sc_color sc) (sent ++ [line_of (sc_color sc) r])).
  { rewrite (app_assoc buf), (persisted_app _ (buf ++ its)), (persisted_app _ sent).
    by rewrite <- !append_assoc, Heq. }
  destruct (Z.of_nat (length its) <? cp)%Z; injection Hx as <-.
  - exists buf, (its ++ [line_of (sc_color sc) r]), cp. fin; [by left| |].
    + by rewrite app_nil_r.
    + by rewrite app_nil_r.
  - exists buf, its, cp. fin. by right; eexists.
Qed.

Lemma before_CloseLogFile (sent : list string) (s s' : Sys) :
  before_close sc sent s →
  exec (LCall OpCloseLogFile (env_ok (sc_day sc))) s = Next s' →
  after_close_call sc sent s'.
Proof using old_done.
  intros [[-> H]|H] Hx.
  - destruct H as (Hm & Hf & Hwg & Hcs & Hc & Hp & Hb).
    rewrite close_guard_noop in Hx by auto. injection Hx as <-.
    right. split_and!; try done.
    + by rewrite Hcs.
    + rewrite Hb. cbn. by rewrite append_nil_r.
  - destruct H as (buf & its & cp & Hm & Hc & Hp & Hf & Hcl & Hd & Hwg & Hw & Hcc & Hcs
                   & Hll & Heq).
    destruct s as [g pc cs]. destruct g. cbn in Hc, Hp, Hf, Hcl, Hd, Hwg, Hw, Hcc, Hcs, Hm.
    cbn [sh mainpc] in Hll, Heq. rewrite content_mk in Heq. subst.
    cbn [exec mainpc] in Hx. destruct Hm as [->|[line ->]]; [|done].
    cbn [pending] in Hll, Heq. rewrite app_nil_r in Hll, Heq.
    ev_in Hx. injection Hx as <-.
    left. exists buf, its, cp, false, CSelect. fin; [by left|].
    left. split_and!; try done. by left.
Qed.

Lemma closing_step (l : Label) (sent : list string) (s s' : Sys) :
  closing_inv sc sent s →
  label_env l = env_ok (sc_day sc) →
  calls [l] = [] →
  exec l s = Next s' →
  after_close_call sc sent s'.
Proof using old_done.
  intros (buf & its & cp & wclosed & cpc0 & Hm & Hc & Hp & Hf & Hcl & Hd & Hw & Hcc & Hcs
          & Hph) Hl Hcall Hx.
  destruct s as [g pc cs]. destruct g. cbn in Hc, Hp, Hf, Hcl, Hd, Hw, Hcc, Hcs, Hm.
  cbn [sh mainpc] in Hph. rewrite content_mk in Hph. cbn [wg] in Hph. subst.
  destruct l as [op env|env|i a env]; [done| |]; cbn in Hl; subst env.
  - (* the caller inside CloseLogFile *)
    cbn [exec mainpc] in Hx. destruct Hm as [[-> ->]|[-> ->]].
    + ev_in Hx. injection Hx as <-.
      left. exists buf, its, cp, true, cpc0. fin. by right.
    + unfold main_close in Hx. ev_in Hx.
      destruct Hph as [(Hpc & -> & Hll & Heq)|(-> & -> & Heq)]; [done|].
      ev_in Hx. injection Hx as <-.
      right. fin. apply Forall_app. split; [done|]. by apply Forall_singleton.
  - (* the consumer *)
    cbn in Hx. destruct ((sc_old sc ++ _) !! i) as [x|] eqn:Hi; [|done].
    dead_or_me Hi Hx.
    destruct Hph as [(Hpc & -> & Hll & Heq)|(-> & -> & Heq)]; [|done].
    assert (Hrecv : ∀ e rest, its = e :: rest →
              Forall line_like ((buf ++ [e]) ++ rest) ∧
              default "" (files0 !! sc_path sc)
              +:+ persisted (sc_color sc) ((buf ++ [e]) ++ rest)
              = sc_before sc +:+ persisted (sc_color sc) sent).
    { intros e rest ->. by rewrite <- app_assoc. }
    assert (Hzero : its = [] →
              Forall line_like ((buf ++ [""]) ++ []) ∧
              default "" (files0 !! sc_path sc)
              +:+ persisted (sc_color sc) ((buf ++ [""]) ++ [])
              = sc_before sc +:+ persisted (sc_color sc) sent).
    { intros ->. rewrite !app_nil_r in *. split.
      - apply Forall_app. split; [done|]. apply Forall_singleton. by left.
      - rewrite persisted_app. unfold persisted at 2. cbn [map String.concat].
        by rewrite persist_empty, append_nil_r. }
    destruct Hpc as [-> | ->]; destruct a; eval_step Hx; try done.
    + (* select: a line, or the zero value of the closed channel *)
      destruct its as [|e rest].
      * destruct wclosed; [|done]. destruct (Hzero eq_refl) as [Hll' Heq'].
        eval_step Hx.
        destruct (threshold <=? length (buf ++ [""])) eqn:Eth; eval_step Hx;
          injection Hx as <-; left.
        -- exists [], [], cp, true, CSelect. fin. left. split_and!; try done; [by left|].
           apply flush_eq; [|done]. by apply Forall_app in Hll' as [? _].
        -- exists (buf ++ [""]), [], cp, true, CSelect. fin. left.
           split_and!; try done. by left.
      * destruct (Hrecv e rest eq_refl) as [Hll' Heq']. eval_step Hx.
        destruct (threshold <=? length (buf ++ [e])) eqn:Eth; eval_step Hx;
          injection Hx as <-; left.
        -- exists [], rest, cp, wclosed, CSelect. fin. left. split_and!; try done.
           ++ by left.
           ++ by apply Forall_app in Hll' as [_ ?].
           ++ apply flush_eq; [|done]. by apply Forall_app in Hll' as [? _].
        -- exists (buf ++ [e]), rest, cp, wclosed, CSelect. fin. left.
           split_and!; try done. by left.
    + (* select: the ticker *)
      destruct (0 <? length buf); eval_step Hx; injection Hx as <-; left.
      * exists [], its, cp, wclosed, CSelect. fin. left. split_and!; try done.
        -- by left.
        -- by apply Forall_app in Hll as [_ ?].
        -- apply flush_eq; [|done]. by apply Forall_app in Hll as [? _].
      * exists buf, its, cp, wclosed, CSelect. fin. left. split_and!; try done. by left.
    + (* select: the close signal *)
      destruct (0 <? length buf); eval_step Hx; injection Hx as <-; left.
      * exists [], its, cp, wclosed, CDrain. fin. left. split_and!; try done.
        -- by right.
        -- by apply Forall_app in Hll as [_ ?].
        -- apply flush_eq; [|done]. by apply Forall_app in Hll as [? _].
      * exists buf, its, cp, wclosed, CDrain. fin. left. split_and!; try done. by right.
    + (* the drain loop and the return *)
      destruct its as [|e rest]; eval_step Hx.
      * rewrite app_nil_r in Hll, Heq.
        destruct (0 <? length buf) eqn:Eb; eval_step Hx; injection Hx as <-; left.
        -- exists [], [], cp, wclosed, CDone. fin. right. split_and!; try done.
           by apply flush_eq_all.
        -- exists buf, [], cp, wclosed, CDone. fin. right. split_and!; try done.
           apply Nat.ltb_ge in Eb. destruct buf; [|cbn in Eb; lia].
           cbn in Heq. by rewrite append_nil_r in Heq.
      * destruct (Hrecv e rest eq_refl) as [Hll' Heq'].
        destruct (threshold <=? length (buf ++ [e])) eqn:Eth; eval_step Hx;
          injection Hx as <-; left.
        -- exists [], rest, cp, wclosed, CDrain. fin. left. split_and!; try done.
           ++ by right.
           ++ by apply Forall_app in Hll' as [_ ?].
           ++ apply flush_eq; [|done]. by apply Forall_app in Hll' as [? _].
        -- exists (buf ++ [e]), rest, cp, wclosed, CDrain. fin. left.
           split_and!; try done. by right.
Qed.

Lemma idle_done_stuck (l : Label) (s s' : Sys) :
  mainpc s = MIdle → all_done (consumers s) →
  calls [l] = [] → exec l s = Next s' → False.
Proof.
  intros Hm Hd Hcall Hx. destruct l as [op env|env|i a env]; [done| |]; cbn in Hx.
  - by rewrite Hm in Hx.
  - destruct (consumers s !! i) as [x|] eqn:Hi; [|done].
    unfold all_done in Hd. rewrite Forall_forall in Hd.
    unfold writeToFile_step in Hx. rewrite (Hd x) in Hx; [done|].
    by eapply list_elem_of_lookup_2.
Qed.

Lemma before_step (l : Label) (sent : list string) (s s' : Sys) :
  before_close sc sent s →
  label_env l = env_ok (sc_day sc) →
  calls [l] = [] →
  exec l s = Next s' →
  before_close sc sent s'.
Proof using old_done.
  intros [[-> H]|H] Hl Hcall Hx.
  - exfalso. destruct H as (Hm & _ & _ & Hcs & _).
    eapply idle_done_stuck; [done| |done..]. by rewrite Hcs.
  - right. by eapply open_step.
Qed.

Lemma after_step (l : Label) (sent : list string) (s s' : Sys) :
  after_close_call sc sent s →
  label_env l = env_ok (sc_day sc) →
  calls [l] = [] →
  exec l s = Next s' →
  after_close_call sc sent s'.
Proof using old_done.
  intros [H|H] Hl Hcall Hx.
  - by eapply closing_step.
  - exfalso. destruct H as (Hm & _ & Hd & _). by eapply idle_done_stuck.
Qed.

Lemma run_after (tr : list Label) (sent : list string) (s s' : Sys) :
  after_close_call sc sent s →
  calm (sc_day sc) tr →
  calls tr = [] →
  run tr s = Next s' →
  after_close_call sc sent s'.
Proof using old_done.
  revert s. induction tr as [|l tr IH]; intros s Hi Hcalm Hcalls; cbn [run].
  - by intros [= <-].
  - destruct (exec l s) as [s1| | |] eqn:E; try done.
    apply Forall_cons in Hcalm as [Hl Hcalm].
    rewrite calls_cons in Hcalls. destruct l as [op env|env|i a env]; [done|..];
      (apply IH; [|done|done]); by apply (after_step _ _ _ _ Hi Hl eq_refl E).
Qed.

Lemma run_before (tr : list Label) (ls : list ToLog) (sent : list string) (s s' : Sys) :
  before_close sc sent s →
  calm (sc_day sc) tr →
  calls tr = map OpWriteSafe ls ++ [OpCloseLogFile] →
  run tr s = Next s' →
  after_close_call sc (sent ++ map (line_of (sc_color sc)) ls) s'.
Proof using old_done.
  revert s ls sent. induction tr as [|l tr IH]; intros s ls sent Hi Hcalm Hcalls; cbn [run].
  - by destruct ls.
  - destruct (exec l s) as [s1| | |] eqn:E; try done.
    apply Forall_cons in Hcalm as [Hl Hcalm].
    rewrite calls_cons in Hcalls. destruct l as [op env|env|i a env]; cbn in Hl; subst.
    + destruct ls as [|r ls]; cbn [map app] in Hcalls; injection Hcalls as -> Hcalls.
      * rewrite app_nil_r. intros Hrun.
        eapply run_after; [|done|done|done]. by eapply before_CloseLogFile.
      * intros Hrun. cbn [map]. rewrite (cons_middle _ sent), app_assoc.
        eapply IH; [|done|done|done].
        right. destruct Hi as [[-> H]|H].
        -- by eapply fresh_WriteSafe.
        -- by eapply open_WriteSafe.
    + apply IH; [|done|done]. by eapply (before_step (LMain _)); [exact Hi|..|exact E].
    + apply IH; [|done|done]. by eapply (before_step (LCons _ _ _)); [exact Hi|..|exact E].
Qed.
End scenario.

(** C1 (as the code has it): the user's goroutine calls [WriteSafe] for the
    records [ls] and then [CloseLogFile], in a run in which the date stays
    [d] and no system call fails.  The writer is closed when the run starts,
    or it is open with the consumer waiting, [buf] in its buffer and [its] in
    the channel (both empty on a closed writer).  Whatever the interleaving
    with the consumer, when [CloseLogFile] has returned the log file holds
    what it held before, followed by the lines that were pending, followed by
    the enqueued lines in the order of the calls.  Each line is stripped of
    the colour codes when the colour flag is on, which for a record without
    escape bytes leaves [[time]  level  message] and the newline, and is
    written as it was enqueued when the flag is off. *)
Theorem C1_lines_persisted_in_order (s0 s' : Sys) (d : string) (buf its : list string)
    (ls : list ToLog) (tr : list Label) :
  mainpc s0 = MIdle →
  (sys_inv s0 ∧ logFile (sh s0) = None ∧ buf = [] ∧ its = []) ∨ open_idle d buf its s0 →
  calm d tr →
  calls tr = map OpWriteSafe ls ++ [OpCloseLogFile] →
  run tr s0 = Next s' →
  mainpc s' = MIdle →
  let c := LogWithColor (sh s0) in
  let path := logFilePath (LogfilePrefix (sh s0)) d in
  let before := content (sh s0) path +:+ persisted c (buf ++ its) in
  content (sh s') path = before +:+ persisted c (map (line_of c) ls) ∧
  (c = true →
   content (sh s') path
   = before +:+ String.concat "" (map (λ l, stripColors (line_of true l)) ls)) ∧
  (c = true → Forall clean_record ls →
   content (sh s') path = before +:+ String.concat "" (map plain_line ls)) ∧
  (c = false →
   content (sh s') path = before +:+ String.concat "" (map (line_of false) ls)).
Proof.
  intros Hm Hstart Hcalm Hcalls Hrun Hm' c path before.
  assert (Hmain : content (sh s') path = before +:+ persisted c (map (line_of c) ls)).
  { destruct Hstart as [((Hh & Hw & Hn) & Hf & -> & ->)|
                        (old & cp & Hold & Hcs & Hf & Hcl & Hd & Hwg & Hwc & Hcc & Hll)].
    - set (sc := mkScenario c (LogfilePrefix (sh s0)) d (content (sh s0) path) (consumers s0)).
      assert (all_done (sc_old sc)) as Hold.
      { apply all_done_live_count. cbn [sc sc_old]. rewrite <- Hw. by apply Hn. }
      assert (before_close sc [] s0) as H0.
      { left. split; [done|]. unfold fresh_inv. split_and!; try done. by apply Hn. }
      pose proof (run_before sc Hold tr ls [] s0 s' H0 Hcalm Hcalls Hrun) as [H|H].
      + destruct H as (? & ? & ? & ? & ? & [[H _]|[H _]] & _); congruence.
      + destruct H as (_ & _ & _ & H). subst before. cbn [app].
        unfold persisted at 1. cbn [map String.concat]. rewrite append_nil_r. exact H.
    - set (sc := mkScenario c (LogfilePrefix (sh s0)) d (content (sh s0) path) old).
      assert (before_close sc (buf ++ its) s0) as H0.
      { right. exists buf, its, cp. rewrite Hm. cbn [pending]. rewrite app_nil_r.
        split_and!; try done. by left. }
      pose proof (run_before sc Hold tr ls (buf ++ its) s0 s' H0 Hcalm Hcalls Hrun) as [H|H].
      + destruct H as (? & ? & ? & ? & ? & [[H _]|[H _]] & _); congruence.
      + destruct H as (_ & _ & _ & H). subst before.
        rewrite append_assoc, <- persisted_app. exact H. }
  split; [done|]. split_and!.
  - intros Hc. rewrite Hmain. f_equal. unfold persisted. rewrite map_map. by rewrite Hc.
  - intros Hc Hclean. rewrite Hmain, Hc. f_equal. by apply persisted_clean.
  - intros Hc. rewrite Hmain, Hc. f_equal. unfold persisted. by rewrite map_map.
Qed.

(** ** The count threshold *)

Section threshold_run.
Variable sc : Scenario.
Hypothesis old_done : all_done (sc_old sc).




End threshold_run.


(** ** The statements on sample runs *)

Lemma C1_lines_persisted_in_order_witness :
  content (sh after_session) path1
  = "[10:00:00]  info  hello" +:+ newline +:+ "[10:00:01]  error  oops" +:+ newline ∧
  content (sh after_resumed) path1
  = "[10:00:00]  info  hello" +:+ newline +:+ "[10:00:01]  error  oops" +:+ newline ∧
  content (sh after_prefixed_session) "./logs/app-log-2024-01-01.log"
  = "[10:00:00]  info  hello" +:+ newline +:+ "[10:00:01]  error  oops" +:+ newline.
Proof.
  assert (Hi : sys_inv (init_state false ∅)) by (repeat split; intros; reflexivity).
  assert (Hc : calm "2024-01-01" session_schedule) by (repeat constructor).
  assert (Hr : run session_schedule (init_state false ∅) = Next after_session)
    by (vm_compute; reflexivity).
  assert (Hclean : Forall clean_record [rec1; rec2]) by (repeat constructor).
  assert (Ho : open_idle "2024-01-01" [line_of true rec1] [] one_line_received).
  { exists [], 300%Z. split_and!; try (vm_compute; reflexivity).
    - constructor.
    - apply Forall_singleton, line_of_line_like. }
  assert (Hc' : calm "2024-01-01" resumed_schedule) by (repeat constructor).
  assert (Hr' : run resumed_schedule one_line_received = Next after_resumed)
    by (vm_compute; reflexivity).
  assert (Hp : open_idle "2024-01-01" [] [] prefixed).
  { exists [], 300%Z. split_and!; try (vm_compute; reflexivity); constructor. }
  assert (Hrp : run session_schedule prefixed = Next after_prefixed_session)
    by (vm_compute; reflexivity).
  split_and!.
  - destruct (C1_lines_persisted_in_order (init_state false ∅) after_session
                "2024-01-01" [] [] [rec1; rec2] session_schedule
                eq_refl (or_introl (conj Hi (conj eq_refl (conj eq_refl eq_refl))))
                Hc eq_refl Hr eq_refl) as (_ & _ & H & _).
    etrans; [exact (H eq_refl Hclean)|vm_compute; reflexivity].
  - destruct (C1_lines_persisted_in_order one_line_received after_resumed
                "2024-01-01" [line_of true rec1] [] [rec2] resumed_schedule
                eq_refl (or_intror Ho) Hc' eq_refl Hr' eq_refl) as (H & _).
    etrans; [exact H|vm_compute; reflexivity].
  - destruct (C1_lines_persisted_in_order prefixed after_prefixed_session
                "2024-01-01" [] [] [rec1; rec2] session_schedule
                eq_refl (or_intror Hp) Hc eq_refl Hrp eq_refl) as (_ & _ & H & _).
    etrans; [exact (H eq_refl Hclean)|vm_compute; reflexivity].
Defined.

(** The claim fails with the flag off: the message carries a colour code and
    the file holds it. *)
Lemma C1_counterexample :
  run esc_schedule flag_off_state = Next after_esc_session ∧
  calls esc_schedule = [OpWriteSafe rec_esc; OpCloseLogFile] ∧
  mainpc after_esc_session = MIdle ∧
  content (sh after_esc_session) path1 = line_of false rec_esc ∧
  Str.Contains (content (sh after_esc_session) path1) colorReset = true ∧
  content (sh after_esc_session) path1
  ≠ content (sh flag_off_state) path1 +:+ stripColors (line_of false rec_esc).
Proof. vm_compute. repeat split; try reflexivity. discriminate. Qed.

Lemma C4_rotation_never_completes_witness :
  run rotation_schedule (init_state false ∅) = Next rotation_started ∧
  run rotation_followup rotation_started = Next rotation_later ∧
  rotating 0 [line_of true rec1] KSelect rotation_later ∧
  logFile (sh rotation_later) = Some path1 ∧
  currentLogDate (sh rotation_later) = "2024-01-01" ∧
  isLogFileClosed (sh rotation_later) = false.
Proof.
  assert (H0 : run rotation_schedule (init_state false ∅) = Next rotation_started)
    by (vm_compute; reflexivity).
  assert (H1 : run rotation_followup rotation_started = Next rotation_later)
    by (vm_compute; reflexivity).
  assert (Hr : rotating 0 [line_of true rec1] KSelect rotation_started).
  { eexists _, _. split; [vm_compute; reflexivity|]. split; reflexivity. }
  destruct C4_rotation_never_completes as [_ H].
  destruct (H false ∅ rotation_schedule rotation_followup rotation_started rotation_later
              0 [line_of true rec1] KSelect H0 Hr H1) as (Hr' & Hf & Hd & _ & Hc).
  split; [exact H0|]. split; [exact H1|]. split; [exact Hr'|].
  split; [rewrite Hf; vm_compute; reflexivity|].
  split; [rewrite Hd; vm_compute; reflexivity|exact Hc].
Defined.

(** Once the consumer is blocked the channels are closed: the consumer
    cannot move, a [WriteSafe] of the user panics and so does a
    [CloseLogFile]. *)
Example rotation_blocks_everything :
  exec (LCons 0 AStep day2) rotation_later = Disabled ∧
  exec (LCall (OpWriteSafe rec2) day2) rotation_later = Panic "send on closed channel" ∧
  exec (LCall OpCloseLogFile day2) rotation_later = Panic "close of closed channel" ∧
  content (sh rotation_later) "./logs/log-2024-01-02.log" = "".
Proof. vm_compute. repeat split; reflexivity. Qed.

Lemma C5_close_idempotent_witness :
  CloseLogFile_returns (LMain day1) before_last_step after_session ∧
  exec (LCall OpCloseLogFile day1) after_session = Next after_session.
Proof.
  assert (H : CloseLogFile_returns (LMain day1) before_last_step after_session).
  { split; [vm_compute; reflexivity|]. split; [reflexivity|].
    right. exists day1, ClWait. split; reflexivity. }
  split; [exact H|]. exact (C5_close_idempotent _ _ _ day1 H).
Defined.



Lemma C7_handle_iff_closed_witness :
  handle_inv (sh (init_state false ∅)) ∧
  handle_inv (sh one_line_received) ∧ handle_inv (sh after_session).
Proof.
  destruct (C7_handle_iff_closed false ∅) as (H0 & Hstep & _).
  split; [exact H0|].
  assert (Hrun : ∀ tr s s', handle_inv (sh s) → run tr s = Next s' → handle_inv (sh s')).
  { induction tr as [|l tr IH]; intros s s' Hi; cbn [run].
    - intros [= <-]. exact Hi.
    - destruct (exec l s) as [s1| | |] eqn:E; try discriminate.
      apply IH. exact (Hstep l s s1 Hi E). }
  split.
  - apply (Hrun [LCall (OpWriteSafe rec1) day1; LCons 0 ARecv day1] (init_state false ∅));
      [exact H0|vm_compute; reflexivity].
  - apply (Hrun session_schedule (init_state false ∅)); [exact H0|vm_compute; reflexivity].
Defined.

(** ** The calls do return *)

Ltac fire Hx :=
  unfold with_main, with_sh, with_cons in Hx;
  cbn [exec consumers mainpc sh call] in Hx;
  rewrite ?insert_consumer, ?lookup_last_consumer in Hx;
  unfold writeToFile_step, main_close, WriteSafe, lazy_init in Hx;
  ev_in Hx.

Ltac open_state H :=
  let buf := fresh "buf" in
  let cp := fresh "cp" in
  let path := fresh "path" in
  destruct H as (buf & cp & path & Hcp & Hm & Hf & Hcl & Hd & Hwg & Hw & Hcc & Hcs);
  match goal with
  | s : Sys |- _ => let g := fresh "g" in destruct s as [g ? ?]; destruct g
  end;
  cbn in Hm, Hf, Hcl, Hd, Hwg, Hw, Hcc, Hcs; subst.

Section completes.
Variable d : string.
Variable old : list Consumer.

Lemma ready_send (r : ToLog) (s : Sys) :
  ready d old s →
  ∃ s', exec (LCall (OpWriteSafe r) (env_ok d)) s = Next s' ∧
        ∃ e, shutting d old MIdle false [e] false CSelect 1 s'.
Proof.
  intros H. open_state H.
  pose proof Hcp as Hcp'. apply Z.ltb_lt in Hcp'.
  destruct (exec _ _) as [s1| | |] eqn:Hx; fire Hx;
    change (Z.of_nat 0) with 0%Z in Hx; rewrite Hcp' in Hx; try done.
  injection Hx as <-. (eexists; split; [done|]). eexists _, _, cp, path. by fin.
Qed.

Lemma ready_recv (s : Sys) :
  (∃ e, shutting d old MIdle false [e] false CSelect 1 s) →
  ∃ s', exec (LCons (length old) ARecv (env_ok d)) s = Next s' ∧ ready d old s'.
Proof.
  intros [e H]. open_state H.
  destruct (exec _ _) as [s1| | |] eqn:Hx; fire Hx; eval_step Hx;
    (destruct (threshold <=? length (buf ++ [_])) eqn:Eth; eval_step Hx); try done.
  all: injection Hx as <-; (eexists; split; [done|]); eexists _, cp, path; by fin.
Qed.

Lemma ready_round (r : ToLog) (s : Sys) :
  ready d old s →
  ∃ s2, run (round (length old) (env_ok d) r) s = Next s2 ∧ ready d old s2.
Proof.
  intros H. unfold round. cbn [run].
  destruct (ready_send r s H) as (s1 & -> & H1).
  destruct (ready_recv s1 H1) as (s2 & -> & H2). by exists s2.
Qed.

Lemma ready_rounds (ls : list ToLog) (s : Sys) :
  ready d old s →
  ∃ s2, run (flat_map (round (length old) (env_ok d)) ls) s = Next s2 ∧ ready d old s2.
Proof.
  revert s. induction ls as [|r ls IH]; intros s H; [by exists s|].
  cbn [flat_map]. rewrite run_app.
  destruct (ready_round r s H) as (s1 & -> & H1). by apply IH.
Qed.

Lemma shutdown_call (s : Sys) :
  ready d old s →
  ∃ s', exec (LCall OpCloseLogFile (env_ok d)) s = Next s' ∧
        shutting d old (MClose ClCloseWrite ARet) true [] false CSelect 1 s'.
Proof.
  intros H. open_state H.
  destruct (exec _ _) as [s1| | |] eqn:Hx; fire Hx; try done.
  injection Hx as <-. (eexists; split; [done|]). eexists _, cp, path. by fin.
Qed.

Lemma shutdown_signal (s : Sys) :
  shutting d old (MClose ClCloseWrite ARet) true [] false CSelect 1 s →
  ∃ s', exec (LCons (length old) AQuit (env_ok d)) s = Next s' ∧
        shutting d old (MClose ClCloseWrite ARet) true [] false CDrain 1 s'.
Proof.
  intros H. open_state H.
  destruct (exec _ _) as [s1| | |] eqn:Hx; fire Hx;
    (destruct (0 <? length buf) eqn:Eb; eval_step Hx); try done.
  all: injection Hx as <-; (eexists; split; [done|]); eexists _, cp, _; by fin.
Qed.

Lemma shutdown_close_channel (s : Sys) :
  shutting d old (MClose ClCloseWrite ARet) true [] false CDrain 1 s →
  ∃ s', exec (LMain (env_ok d)) s = Next s' ∧
        shutting d old (MClose ClWait ARet) true [] true CDrain 1 s'.
Proof.
  intros H. open_state H.
  destruct (exec _ _) as [s1| | |] eqn:Hx; fire Hx; try done.
  injection Hx as <-. (eexists; split; [done|]). eexists _, cp, path. by fin.
Qed.

Lemma shutdown_drain (s : Sys) :
  shutting d old (MClose ClWait ARet) true [] true CDrain 1 s →
  ∃ s', exec (LCons (length old) AStep (env_ok d)) s = Next s' ∧
        shutting d old (MClose ClWait ARet) true [] true CDone 0 s'.
Proof.
  intros H. open_state H.
  destruct (exec _ _) as [s1| | |] eqn:Hx; fire Hx; eval_step Hx;
    (destruct (0 <? length buf) eqn:Eb; eval_step Hx); try done.
  all: injection Hx as <-; (eexists; split; [done|]); eexists _, cp, _; by fin.
Qed.

Lemma shutdown_wait (s : Sys) :
  shutting d old (MClose ClWait ARet) true [] true CDone 0 s →
  ∃ s', exec (LMain (env_ok d)) s = Next s' ∧
        mainpc s' = MIdle ∧ logFile (sh s') = None ∧ isLogFileClosed (sh s') = true.
Proof.
  intros H. open_state H.
  destruct (exec _ _) as [s1| | |] eqn:Hx; fire Hx; try done.
  injection Hx as <-. by eexists.
Qed.

Lemma ready_shutdown (s : Sys) :
  ready d old s →
  ∃ s', run (shutdown (length old) (env_ok d)) s = Next s' ∧
        mainpc s' = MIdle ∧ logFile (sh s') = None ∧ isLogFileClosed (sh s') = true.
Proof.
  intros H. unfold shutdown. cbn [run].
  destruct (shutdown_call s H) as (s1 & -> & H1).
  destruct (shutdown_signal s1 H1) as (s2 & -> & H2).
  destruct (shutdown_close_channel s2 H2) as (s3 & -> & H3).
  destruct (shutdown_drain s3 H3) as (s4 & -> & H4).
  destruct (shutdown_wait s4 H4) as (s5 & -> & H5). by exists s5.
Qed.
End completes.

Lemma fresh_send (d : string) (r : ToLog) (s : Sys) :
  mainpc s = MIdle → logFile (sh s) = None → wg (sh s) = 0 →
  (0 < channelSize (sh s) ≤ maxChanCap)%Z →
  ∃ s', exec (LCall (OpWriteSafe r) (env_ok d)) s = Next s' ∧
        ∃ e, shutting d (consumers s) MIdle false [e] false CSelect 1 s'.
Proof.
  intros Hm Hf Hwg [Hcp Hmax].
  destruct s as [g pc cs]. destruct g as [p c dt f cl n w cc k dir m ev].
  cbn in Hm, Hf, Hwg, Hcp, Hmax. subst.
  assert (makechan_ok n = true) as Hneg by (apply makechan_ok_spec; lia).
  pose proof Hcp as Hcp'. apply Z.ltb_lt in Hcp'.
  cbn [consumers].
  destruct (exec _ _) as [s1| | |] eqn:Hx;
    fire Hx; unfold initLog in Hx; ev_in Hx;
    (destruct dir; ev_in Hx; rewrite Hneg in Hx; ev_in Hx;
     change (Z.of_nat 0) with 0%Z in Hx; rewrite Hcp' in Hx); try done.
  all: injection Hx as <-; (eexists; split; [done|]).
  all: eexists _, _, n, _; by fin.
Qed.

Lemma fresh_round (d : string) (r : ToLog) (s : Sys) :
  mainpc s = MIdle → logFile (sh s) = None → wg (sh s) = 0 →
  (0 < channelSize (sh s) ≤ maxChanCap)%Z →
  ∃ s2, run (round (length (consumers s)) (env_ok d) r) s = Next s2 ∧
        ready d (consumers s) s2.
Proof.
  intros Hm Hf Hwg Hcp. unfold round. cbn [run].
  destruct (fresh_send d r s Hm Hf Hwg Hcp) as (s1 & -> & H1).
  destruct (ready_recv d _ s1 H1) as (s2 & -> & H2). by exists s2.
Qed.

Lemma calm_session (d : string) (j : nat) (ls : list ToLog) :
  calm d (session_for j (env_ok d) ls).
Proof.
  unfold session_for, calm. destruct ls as [|r ls]; [by repeat constructor|].
  apply Forall_app. split; [|by repeat constructor].
  generalize (r :: ls). intros l. induction l as [|x l IH]; [constructor|].
  cbn [flat_map round app]. by repeat constructor.
Qed.

Lemma calls_rounds (j : nat) (e : Env) (ls : list ToLog) (tr : list Label) :
  calls (flat_map (round j e) ls ++ tr) = map OpWriteSafe ls ++ calls tr.
Proof.
  induction ls as [|x l IH]; [done|].
  cbn [flat_map round app map]. rewrite !calls_cons. by rewrite IH.
Qed.

Lemma calls_session (j : nat) (e : Env) (ls : list ToLog) :
  calls (session_for j e ls) = map OpWriteSafe ls ++ [OpCloseLogFile].
Proof.
  unfold session_for. destruct ls as [|r ls]; [done|]. by rewrite calls_rounds.
Qed.

(** X1: the single-producer session runs to its end.  On a closed writer
    with a channel size that is positive and that [make] accepts, for every
    list of records there is a schedule, on one date and without failing
    system calls, in which
    [WriteSafe] is called for each record in order, [CloseLogFile] is called,
    and every call returns: no step panics, exits or stays blocked, and at the
    end the producer is idle and the handle is nil. *)
Theorem session_completes (s0 : Sys) (d : string) (ls : list ToLog) :
  sys_inv s0 → mainpc s0 = MIdle → logFile (sh s0) = None →
  (0 < channelSize (sh s0) ≤ maxChanCap)%Z →
  let tr := session_for (length (consumers s0)) (env_ok d) ls in
  calm d tr ∧
  calls tr = map OpWriteSafe ls ++ [OpCloseLogFile] ∧
  ∃ s', run tr s0 = Next s' ∧ mainpc s' = MIdle ∧ logFile (sh s') = None.
Proof.
  intros (Hh & Hw & Hn) Hm Hf Hcp tr.
  split; [apply calm_session|]. split; [apply calls_session|].
  subst tr. unfold session_for. destruct ls as [|r ls].
  - exists s0. split; [|done]. cbn [run]. by rewrite close_guard_noop by auto.
  - cbn [flat_map]. rewrite <- app_assoc, run_app.
    destruct (fresh_round d r s0 Hm Hf (Hn Hf) Hcp) as (s1 & -> & H1).
    rewrite run_app.
    destruct (ready_rounds d _ ls s1 H1) as (s2 & -> & H2).
    destruct (ready_shutdown d _ s2 H2) as (s3 & -> & Hm3 & Hf3 & _). by exists s3.
Qed.

(** The session of two records on the initial state. *)
Lemma session_completes_witness :
  ∃ s', run (session_for 0 (env_ok "2024-01-01") [rec1; rec2]) (init_state false ∅) = Next s' ∧
        mainpc s' = MIdle ∧ logFile (sh s') = None.
Proof.
  refine (proj2 (proj2 (session_completes (init_state false ∅) "2024-01-01" [rec1; rec2]
                          (init_sys_inv false ∅) eq_refl eq_refl _))).
  split; [reflexivity|discriminate].
Defined.

(** ** [stripColors] on arbitrary strings *)

Lemma replaceFrom_shorter (old : string) (s : string) (k : nat) :
  String.length (Str.replaceFrom old "" k s) ≤ String.length s.
Proof.
  revert k. induction s as [|c s IH]; intros k; [done|].
  cbn [Str.replaceFrom String.length]. destruct k as [|k].
  - destruct (Str.hasPrefix old (String c s)).
    + rewrite append_nil_l. specialize (IH (String.length old - 1)). lia.
    + cbn [String.length]. specialize (IH 0). lia.
  - specialize (IH k). lia.
Qed.

Lemma ReplaceAll_shorter (s old : string) :
  String.length (Str.ReplaceAll s old "") ≤ String.length s.
Proof. unfold Str.ReplaceAll. destruct old; [done|]. apply replaceFrom_shorter. Qed.

Lemma render_text (t : string) : render [Txt t] = t.
Proof. cbn [render render_seg]. apply append_nil_r. Qed.

Lemma stripColors_esc_free (s : string) : esc_free s → stripColors s = s.
Proof.
  intros H. rewrite <- (render_text s) at 1.
  rewrite stripColors_render by (by constructor).
  cbn [only_text]. apply render_text.
Qed.

(** X2: [stripColors] never makes a string longer, and it returns a string
    without escape byte as it is. *)
Theorem stripColors_shorter_plain (s : string) :
  String.length (stripColors s) ≤ String.length s ∧
  (esc_free s → stripColors s = s).
Proof.
  split; [|apply stripColors_esc_free].
  unfold stripColors, replacements. cbn [fold_left fst snd].
  repeat (etrans; [apply ReplaceAll_shorter|]). done.
Qed.

(** X3: on a text made of pieces without escape byte and of the six colour
    codes, in any number and order, [stripColors] returns the pieces alone:
    every code is removed, the result holds no escape byte, and a second
    pass changes nothing. *)
Theorem stripColors_removes_codes (l : list Seg) :
  Forall clean l →
  stripColors (render l) = render (only_text l) ∧
  esc_free (stripColors (render l)) ∧
  stripColors (stripColors (render l)) = stripColors (render l).
Proof.
  intros H. pose proof (only_text_esc_free l H) as He.
  rewrite stripColors_render by done.
  split; [done|]. split; [done|]. by apply stripColors_esc_free.
Qed.

Lemma stripColors_removes_codes_witness :
  let l := [Code CError; Txt " error "; Code CReset; Code CReset; Txt "x"; Code CInfo] in
  stripColors (render l) = render (only_text l) ∧
  esc_free (stripColors (render l)) ∧
  stripColors (stripColors (render l)) = stripColors (render l).
Proof.
  apply (stripColors_removes_codes
           [Code CError; Txt " error "; Code CReset; Code CReset; Txt "x"; Code CInfo]).
  repeat constructor.
Defined.

Lemma replaceFrom_plain (c : Color) (t : string) :
  esc_free t → Str.replaceFrom (code c) "" 0 t = t.
Proof.
  intros H. rewrite <- (append_nil_r t) at 1.
  rewrite replaceFrom_text by done. apply append_nil_r.
Qed.

Lemma split_code_kept (c : Color) (t : string) :
  esc_free t → c ≠ CReset →
  Str.ReplaceAll (String ESC "[48;5;" +:+ colorReset +:+ "27m" +:+ t) (code c) ""
  = String ESC "[48;5;" +:+ colorReset +:+ "27m" +:+ t.
Proof.
  intros H Hc. rewrite ReplaceAll_nonempty by (by destruct c).
  pose proof (replaceFrom_plain c t H) as Ht.
  destruct c; try done; cbv beta iota zeta delta [String.append colorReset] in *.
  all: cbn in *; by rewrite Ht.
Qed.

Lemma split_code_joined (t : string) :
  esc_free t →
  Str.ReplaceAll (String ESC "[48;5;" +:+ colorReset +:+ "27m" +:+ t) colorReset ""
  = colorInfoBg +:+ t.
Proof.
  intros H. rewrite ReplaceAll_nonempty by done.
  pose proof (replaceFrom_plain CReset t H) as Ht.
  cbv beta iota zeta delta [String.append colorReset colorInfoBg].
  cbn. rewrite append_nil_l. change (String ESC "[0m") with (code CReset). by rewrite Ht.
Qed.

(** X4: [stripColors] is not a sanitiser.  The codes are removed one kind
    after the other, the reset code last; a reset code that sits inside the
    bytes of an info code is removed and leaves a complete info code behind,
    so the result holds an escape sequence and a second pass changes it
    again. *)
Theorem stripColors_leaves_code (t : string) :
  esc_free t →
  let s := String ESC "[48;5;" +:+ colorReset +:+ "27m" +:+ t in
  stripColors s = colorInfoBg +:+ t ∧
  stripColors (stripColors s) = t.
Proof.
  intros H s. subst s.
  assert (Hs : stripColors (String ESC "[48;5;" +:+ colorReset +:+ "27m" +:+ t)
               = colorInfoBg +:+ t).
  { unfold stripColors, replacements. cbn [fold_left fst snd].
    rewrite (split_code_kept CInfo), (split_code_kept CWarning),
      (split_code_kept CError), (split_code_kept CDebug),
      (split_code_kept CNotice) by done.
    by apply split_code_joined. }
  split; [done|]. rewrite Hs.
  assert (colorInfoBg +:+ t = render [Code CInfo; Txt t]) as ->
    by (cbn [render render_seg code]; by rewrite append_nil_r).
  rewrite stripColors_render by (by repeat constructor).
  cbn [only_text]. apply render_text.
Qed.

Lemma stripColors_leaves_code_witness :
  stripColors (String ESC "[48;5;" +:+ colorReset +:+ "27m" +:+ "plain")
  = colorInfoBg +:+ "plain" ∧
  stripColors (stripColors (String ESC "[48;5;" +:+ colorReset +:+ "27m" +:+ "plain"))
  = "plain".
Proof. apply (stripColors_leaves_code "plain"). reflexivity. Defined.

(** ** [initLog] and the writers *)

Lemma content_insert_same (g : Shared) (p q : string) :
  default "" (<[q := content g q]> (files g) !! p) = content g p.
Proof.
  unfold content. destruct (decide (q = p)) as [->|Hne].
  - by rewrite lookup_insert_eq.
  - by rewrite lookup_insert_ne.
Qed.

Lemma initLog_returns_ok (env : Env) (s : Sys) :
  (logsDir (sh s) = true ∨ env_mkdir env = None) →
  env_open env = None →
  (0 ≤ channelSize (sh s) ≤ maxChanCap)%Z →
  ∃ s', initLog env s = InitOk s' ∧ logsDir (sh s') = true.
Proof.
  intros Hdir Hopen Hsize. apply makechan_ok_spec in Hsize.
  unfold initLog. rewrite Hopen. proj_simpl.
  destruct (logsDir (sh s)) eqn:Ed; cbn [negb]; proj_simpl.
  - rewrite Hsize. eexists. split; [reflexivity|]. by proj_simpl.
  - destruct Hdir as [?| ->]; [done|]. proj_simpl. rewrite Hsize.
    eexists. split; [reflexivity|]. by proj_simpl.
Qed.

(** X5: when the directory is there or can be made, the file can be opened
    and the configured size is one that [make] accepts (not negative and
    within the limit of the runtime), [initLog] succeeds: the handle is
    on the path of the prefix and of today's date, that file exists, no file
    has lost or gained a byte (the file is opened for appending, never
    truncated), the date is today's, the channel is new, empty and of the
    configured capacity, and one more [writeToFile] goroutine waits in its
    select with an empty buffer, counted by the wait group. *)
Theorem initLog_opens_for_append (env : Env) (s : Sys) :
  (logsDir (sh s) = true ∨ env_mkdir env = None) →
  env_open env = None →
  (0 ≤ channelSize (sh s) ≤ maxChanCap)%Z →
  let path := logFilePath (LogfilePrefix (sh s)) (env_today env) in
  ∃ s', initLog env s = InitOk s' ∧
        logFile (sh s') = Some path ∧ isLogFileClosed (sh s') = false ∧
        is_Some (files (sh s') !! path) ∧
        (∀ p, content (sh s') p = content (sh s) p) ∧
        logsDir (sh s') = true ∧
        currentLogDate (sh s') = env_today env ∧
        writeChannel (sh s') = Some (mkChan [] (channelSize (sh s)) false) ∧
        closeChannel (sh s') = Some false ∧
        wg (sh s') = S (wg (sh s)) ∧
        consumers s' = consumers s ++ [mkConsumer [] CSelect] ∧
        mainpc s' = mainpc s.
Proof.
  intros Hdir Hopen Hsize path. subst path.
  destruct (initLog_returns_ok env s Hdir Hopen Hsize) as (s' & E & Hd').
  exists s'. split; [done|].
  apply initLog_ok in E. cbn zeta in E.
  destruct E as (Hf & Hcl & Hdt & Hw & Hcc & Hwg & Hcs & Hm & _ & _ & _ & Hfs).
  split_and!; try done.
  - rewrite Hfs. by rewrite lookup_insert_eq.
  - intros q. unfold content at 1. rewrite Hfs. apply content_insert_same.
Qed.

Lemma initLog_opens_for_append_witness :
  ∃ s', initLog day1 (init_state false ∅) = InitOk s' ∧
        logFile (sh s') = Some path1 ∧ isLogFileClosed (sh s') = false ∧
        is_Some (files (sh s') !! path1) ∧
        (∀ p, content (sh s') p = content (sh (init_state false ∅)) p) ∧
        logsDir (sh s') = true ∧
        currentLogDate (sh s') = "2024-01-01" ∧
        writeChannel (sh s') = Some (mkChan [] 300 false) ∧
        closeChannel (sh s') = Some false ∧
        wg (sh s') = 1 ∧
        consumers s' = [mkConsumer [] CSelect] ∧
        mainpc s' = MIdle.
Proof.
  apply (initLog_opens_for_append day1 (init_state false ∅));
    [by right|reflexivity|split; discriminate].
Defined.

Lemma initLog_fails (env : Env) (s : Sys) (err : string) :
  (logsDir (sh s) = false ∧ env_mkdir env = Some err) ∨
  ((logsDir (sh s) = true ∨ env_mkdir env = None) ∧ env_open env = Some err) →
  ∃ s', initLog env s = InitErr s' err ∧ currentLogDate (sh s') = env_today env.
Proof.
  intros H. unfold initLog. proj_simpl.
  destruct H as [[-> ->]|[[-> | ->] ->]]; [| |destruct (logsDir (sh s))];
    cbn [negb]; eexists; (split; [reflexivity|]); by proj_simpl.
Qed.

(** X6: when [initLog] fails (the directory cannot be made, or the file
    cannot be opened), each of the four writers returns normally and the
    record is lost: nothing is queued, no file changes, no goroutine is
    started and the handle stays nil.  The date has been set to today's all
    the same. *)
Theorem writers_drop_record_when_init_fails (env : Env) (l : ToLog) (s : Sys)
    (err : string) :
  logFile (sh s) = None →
  (logsDir (sh s) = false ∧ env_mkdir env = Some err) ∨
  ((logsDir (sh s) = true ∨ env_mkdir env = None) ∧ env_open env = Some err) →
  Forall (λ W : Env → ToLog → Sys → Result,
            ∃ s', W env l s = Next s' ∧
                  logFile (sh s') = None ∧
                  writeChannel (sh s') = writeChannel (sh s) ∧
                  files (sh s') = files (sh s) ∧
                  consumers s' = consumers s ∧ wg (sh s') = wg (sh s) ∧
                  mainpc s' = mainpc s ∧
                  currentLogDate (sh s') = env_today env)
         [WriteSafe; Write; PrintAndWriteSafe; PrintAndWrite].
Proof.
  intros Hf Hfail.
  destruct (initLog_fails env s err Hfail) as (s1 & E1 & Hd1).
  set (sp := with_sh (emit (EvPrintln (FullLog (CreateFullLog (LogWithColor (sh s)) l)))
                        (sh s)) s).
  destruct (initLog_fails env sp err Hfail) as (s2 & E2 & Hd2).
  pose proof (initLog_err _ _ _ _ E1) as (G1 & _ & G2 & G3 & G4 & G5 & _ & G6 & _).
  pose proof (initLog_err _ _ _ _ E2) as (K1 & _ & K2 & K3 & K4 & K5 & _ & K6 & _).
  subst sp. proj_simpl.
  repeat constructor.
  - exists s1. unfold WriteSafe, lazy_init. rewrite Hf, E1.
    split_and!; try done. by rewrite G1.
  - exists s1. unfold Write, lazy_init. rewrite Hf, E1.
    split_and!; try done. by rewrite G1.
  - exists s2. unfold PrintAndWriteSafe, lazy_init. proj_simpl. rewrite Hf, E2.
    split_and!; try done. by rewrite K1.
  - exists s2. unfold PrintAndWrite, lazy_init. proj_simpl. rewrite Hf, E2.
    split_and!; try done. by rewrite K1.
Qed.

Lemma writers_drop_record_when_init_fails_witness :
  Forall (λ W : Env → ToLog → Sys → Result,
            ∃ s', W (mkEnv "2024-01-01" (Some "permission denied") None None None) rec1
                    (init_state false ∅) = Next s' ∧
                  logFile (sh s') = None ∧
                  writeChannel (sh s') = writeChannel (sh (init_state false ∅)) ∧
                  files (sh s') = files (sh (init_state false ∅)) ∧
                  consumers s' = consumers (init_state false ∅) ∧
                  wg (sh s') = wg (sh (init_state false ∅)) ∧
                  mainpc s' = mainpc (init_state false ∅) ∧
                  currentLogDate (sh s') = "2024-01-01")
         [WriteSafe; Write; PrintAndWriteSafe; PrintAndWrite].
Proof.
  exact (writers_drop_record_when_init_fails
           (mkEnv "2024-01-01" (Some "permission denied") None None None) rec1
           (init_state false ∅) "permission denied" eq_refl
           (or_introl (conj eq_refl eq_refl))).
Defined.

(** X7: on an open writer [Write] returns at once and appends to the file
    of the handle the line of the record followed by a newline, stripped of
    the colour codes when the flag is on: the same bytes that a flush of the
    consumer writes for that line.  It does not look at the date, and it
    leaves the other files, the channel, the consumers and their buffers as
    they are. *)
Theorem Write_appends_line (env : Env) (l : ToLog) (s : Sys) (path : string) :
  logFile (sh s) = Some path →
  env_write env = None →
  let c := LogWithColor (sh s) in
  ∃ s', Write env l s = Next s' ∧
        content (sh s') path = content (sh s) path +:+ persist c (line_of c l) ∧
        (∀ p, p ≠ path → content (sh s') p = content (sh s) p) ∧
        logFile (sh s') = Some path ∧
        currentLogDate (sh s') = currentLogDate (sh s) ∧
        writeChannel (sh s') = writeChannel (sh s) ∧
        consumers s' = consumers s ∧ mainpc s' = mainpc s.
Proof.
  intros Hf Hw c. subst c.
  unfold Write, lazy_init. rewrite Hf. unfold WriteString. rewrite Hf, Hw. cbn [fst].
  eexists. split; [reflexivity|]. proj_simpl.
  split_and!; try done.
  - unfold content at 1. proj_simpl. rewrite lookup_insert_eq. cbn [default].
    unfold persist, line_of. destruct (LogWithColor (sh s)); [|done].
    by rewrite stripColors_keeps_nl.
  - intros p Hp. unfold content at 1. proj_simpl. by rewrite lookup_insert_ne.
Qed.

Lemma Write_appends_line_witness :
  ∃ s', Write day1 rec2 one_line_received = Next s' ∧
        content (sh s') path1
        = content (sh one_line_received) path1
          +:+ persist (LogWithColor (sh one_line_received))
                (line_of (LogWithColor (sh one_line_received)) rec2) ∧
        (∀ p, p ≠ path1 → content (sh s') p = content (sh one_line_received) p) ∧
        logFile (sh s') = Some path1 ∧
        currentLogDate (sh s') = currentLogDate (sh one_line_received) ∧
        writeChannel (sh s') = writeChannel (sh one_line_received) ∧
        consumers s' = consumers one_line_received ∧
        mainpc s' = mainpc one_line_received.
Proof.
  apply (Write_appends_line day1 rec2 one_line_received path1); reflexivity.
Defined.

(** X8: [PrintAndWriteSafe] is [PrintLog] followed by [WriteSafe], and
    [PrintAndWrite] is [PrintLog] followed by [Write]: the line goes to the
    console first, as the formatter made it (with its colour codes when the
    flag is on), and the writer then runs on the state that holds this
    output. *)
Theorem PrintAnd_is_print_then_write (env : Env) (l : ToLog) (s : Sys) :
  let printed := with_sh (PrintLog l (sh s)).2 s in
  events (sh printed)
  = events (sh s) ++ [EvPrintln (FullLog (CreateFullLog (LogWithColor (sh s)) l))] ∧
  PrintAndWriteSafe env l s = WriteSafe env (PrintLog l (sh s)).1 printed ∧
  PrintAndWrite env l s = Write env (PrintLog l (sh s)).1 printed.
Proof.
  cbn zeta. unfold PrintAndWriteSafe, PrintAndWrite, WriteSafe, Write, PrintLog.
  cbn [fst snd]. proj_simpl.
  split; [done|].
  assert (∀ c x, CreateFullLog c (CreateFullLog c x) = CreateFullLog c x) as Hidem
    by (by intros [] ?).
  by rewrite !Hidem.
Qed.

(** ** The record constructors *)

(** X9: each of the five shorthands builds the record that [Log] builds
    from the options [WithContext ctx] and [WithType level] in this order,
    and the record that the methods [Type] and [Context] build from [Log()]
    in either order ([strings.ToLower] leaves the five level names as they
    are). *)
Theorem shorthand_is_Log_with_options (ToLower : string → string) (c : bool)
    (now ctx : string) :
  Forall (λ level, ToLower level = level) levels →
  Forall (λ '(shorthand, level),
            shorthand c now ctx = Log now [WithContext ctx; WithType c level] ∧
            shorthand c now ctx = Context c ctx (Type_ ToLower c level (Log now [])) ∧
            shorthand c now ctx = Type_ ToLower c level (Context c ctx (Log now [])))
         [(Info, StatusInfo); (Warning, StatusWarning); (Error, StatusError);
          (Notice, StatusNotice); (Debug, StatusDebug)].
Proof.
  intros H. unfold levels in H.
  repeat (apply Forall_cons in H as [? H]).
  repeat first [apply List.Forall_cons | apply List.Forall_nil].
  all: cbn beta iota; unfold Type_.
  all: repeat match goal with E : _ = _ |- _ => rewrite ?E; clear E end.
  all: by destruct c.
Qed.

Lemma shorthand_is_Log_with_options_witness :
  Forall (λ '(shorthand, level),
            shorthand true "10:00:00" "hello"
            = Log "10:00:00" [WithContext "hello"; WithType true level] ∧
            shorthand true "10:00:00" "hello"
            = Context true "hello" (Type_ ToLowerASCII true level (Log "10:00:00" [])) ∧
            shorthand true "10:00:00" "hello"
            = Type_ ToLowerASCII true level (Context true "hello" (Log "10:00:00" [])))
         [(Info, StatusInfo); (Warning, StatusWarning); (Error, StatusError);
          (Notice, StatusNotice); (Debug, StatusDebug)].
Proof.
  apply (shorthand_is_Log_with_options ToLowerASCII true "10:00:00" "hello").
  repeat first [apply List.Forall_cons | apply List.Forall_nil]; reflexivity.
Defined.

(** X10: the order of the options shows in the stored [FullLog] only.
    [WithContext] does not rebuild [FullLog]: after [WithType] and then
    [WithContext], the stored [FullLog] is the one of the record without its
    context.  The writers rebuild it, so both orders queue the same line and
    print the same line. *)
Theorem options_order (c c' : bool) (now ctx : string) (level : LogStatus) (g : Shared) :
  let type_first := Log now [WithType c level; WithContext ctx] in
  let context_first := Log now [WithContext ctx; WithType c level] in
  logContext type_first = ctx ∧
  FullLog type_first = FullLog (Log now [WithType c level]) ∧
  FullLog context_first = FullLog (CreateFullLog c context_first) ∧
  line_of c' type_first = line_of c' context_first ∧
  PrintLog type_first g = PrintLog context_first g.
Proof.
  cbn zeta. unfold Log, line_of, PrintLog. cbn [fold_left].
  unfold WithContext, WithType. cbn [logType logContext logTime FullLog].
  split_and!; try done.
  - by destruct c.
  - by destruct c, c'.
  - by destruct c, (LogWithColor g).
Qed.

(** ** The path of the log file *)

Lemma append_inj_l (a x y : string) : a +:+ x = a +:+ y → x = y.
Proof.
  induction a as [|c a IH]; [done|]. rewrite !append_cons. intros [= H]. by apply IH.
Qed.

Lemma append_inj_r (x y c : string) : x +:+ c = y +:+ c → x = y.
Proof.
  revert y. induction x as [|a x IH]; intros [|b y] H; [done| | |].
  - apply (f_equal String.length) in H. rewrite append_nil_l, length_append in H.
    cbn [String.length] in H. lia.
  - apply (f_equal String.length) in H. rewrite append_nil_l, length_append in H.
    cbn [String.length] in H. lia.
  - rewrite !append_cons in H. injection H as -> H. f_equal. by apply IH.
Qed.

(** X11: the path string that [initLog] computes.  Under one prefix two days
    give two strings, and on one day two prefixes give two strings (the empty
    prefix included).  This is a fact about the text of the path, not about
    the file that the operating system resolves it to: the prefixes [a] and
    [./a] give two strings that name one file.  The string does not tell
    pairs apart either: a prefix that holds ["-log-"] gives, on another day,
    the path of another prefix. *)
Theorem logFilePath_injective :
  (∀ p d d', logFilePath p d = logFilePath p d' → d = d') ∧
  (∀ p p' d, logFilePath p d = logFilePath p' d → p = p') ∧
  logFilePath "a" "b-log-c" = logFilePath "a-log-b" "c".
Proof.
  split_and!; [| |reflexivity].
  - intros p d d'. unfold logFilePath.
    destruct (negb (String.eqb p "")); intros H.
    + do 3 apply append_inj_l in H. by apply append_inj_r in H.
    + apply append_inj_l in H. by apply append_inj_r in H.
  - intros p p' d. unfold logFilePath.
    destruct p as [|a p], p' as [|a' p']; cbn [String.eqb negb]; intros H; [done| | |].
    + apply (f_equal String.length) in H. rewrite !length_append in H.
      cbn [String.length] in H. lia.
    + apply (f_equal String.length) in H. rewrite !length_append in H.
      cbn [String.length] in H. lia.
    + apply append_inj_l in H. by apply append_inj_r in H.
Qed.

(** ** The queue in the reachable states *)

Lemma queue_inv_view (g g' : Shared) :
  queue_view g' = queue_view g → queue_inv g → queue_inv g'.
Proof.
  unfold queue_view, queue_inv. intros [= Hf Hn Hw Hc] (H1 & H2 & H3).
  rewrite Hn. split; [done|]. split.
  - intros ch' E. rewrite E in Hw. destruct (writeChannel g) as [ch|] eqn:Ew; [|done].
    cbn in Hw. injection Hw as Hw. rewrite Hw. by apply H2.
  - intros Hl. destruct (logFile g') eqn:E1; [|done].
    destruct (logFile g) eqn:E2; [|done].
    destruct H3 as [Ha Hb]; [done|]. split.
    + destruct (writeChannel g), (writeChannel g'); done.
    + destruct (closeChannel g), (closeChannel g'); done.
Qed.

Lemma send_view (line : string) (g g' : Shared) :
  send line g = SendOk g' → queue_view g' = queue_view g.
Proof.
  unfold send, queue_view. destruct (writeChannel g) as [ch|] eqn:E; [|done].
  repeat case_match; try done. intros [= <-]. by cbn.
Qed.

Lemma recv_view (g g' : Shared) (e : string) :
  recv g = Some (e, g') → queue_view g' = queue_view g.
Proof.
  unfold recv, queue_view. destruct (writeChannel g) as [ch|] eqn:E; [|done].
  repeat case_match; try done; intros [= <- <-]; cbn; by rewrite ?E.
Qed.

Lemma WriteString_view (env : Env) (data : string) (g : Shared) :
  queue_view (WriteString env data g).1 = queue_view g.
Proof. unfold WriteString. by repeat case_match. Qed.

Lemma flush_write_view (env : Env) (g g' : Shared) (buf buf' : list string) :
  flush_write env g buf = (g', buf') → queue_view g' = queue_view g.
Proof.
  unfold flush_write.
  pose proof (WriteString_view env (persist (LogWithColor g) (Str.Join buf "")) g) as H.
  unfold persist in H. destruct (WriteString _ _ g) as [g1 [e|]]; intros [= <- <-]; done.
Qed.

Lemma CloseLogFile_step_next_view (env : Env) (st st' : CloseStage) (g g' : Shared) :
  CloseLogFile_step env st g = CoNext st' g' → queue_view g' = queue_view g.
Proof.
  unfold CloseLogFile_step, queue_view.
  destruct st, (writeChannel g) as [ch|] eqn:Ew, (closeChannel g) as [b|] eqn:Ec;
    repeat case_match; try done; intros [= <- <-]; cbn; by rewrite ?Ew, ?Ec.
Qed.

Lemma CloseLogFile_step_ret_inv (env : Env) (st : CloseStage) (g g' : Shared) :
  CloseLogFile_step env st g = CoReturn g' → queue_inv g → queue_inv g'.
Proof.
  unfold CloseLogFile_step. destruct st; repeat case_match; try done; intros [= <-]; [done|].
  unfold queue_inv. cbn. intros (Ha & Hb & _). done.
Qed.

Lemma initLog_ok_inv (env : Env) (s s' : Sys) :
  initLog env s = InitOk s' → queue_inv (sh s) → queue_inv (sh s').
Proof.
  intros H (H1 & _ & _). apply initLog_ok in H. cbn zeta in H.
  destruct H as (Hf & _ & _ & Hw & Hc & _ & _ & _ & _ & _ & Hn & _).
  unfold queue_inv. rewrite Hw, Hc, Hn. split; [done|]. split; [|done].
  by intros ch [= <-].
Qed.

Lemma initLog_err_view (env : Env) (s s' : Sys) (err : string) :
  initLog env s = InitErr s' err → queue_view (sh s') = queue_view (sh s).
Proof.
  unfold initLog. repeat case_match; try done; intros [= <- <-]; by simplify_eq.
Qed.

Lemma SetLogChannelSize_inv (n : Z) (g : Shared) :
  queue_inv g → queue_inv (SetLogChannelSize n g).
Proof.
  unfold SetLogChannelSize. destruct (n <? 101)%Z eqn:E; [done|].
  apply Z.ltb_ge in E. unfold queue_inv, channelFloor. cbn. intros (_ & Hb & Hc). done.
Qed.

Ltac same_view :=
  proj_simpl;
  match goal with
  | Hq : queue_inv ?g |- queue_inv ?g' => exact Hq
  | Hq : queue_inv ?g |- queue_inv ?g' =>
      apply (queue_inv_view g g'); [reflexivity|exact Hq]
  | Hq : queue_inv ?g |- queue_inv (SetLogChannelSize _ _) =>
      apply SetLogChannelSize_inv; exact Hq
  end.

Ltac push_queue_inv :=
  repeat match goal with
  | H : send _ ?g = SendOk ?g' |- _ =>
      assert (queue_inv g') by (apply (queue_inv_view g g' (send_view _ _ _ H)); same_view);
      clear H
  | H : recv ?g = Some (_, ?g') |- _ =>
      assert (queue_inv g') by (apply (queue_inv_view g g' (recv_view _ _ _ H)); same_view);
      clear H
  | H : flush_write _ ?g _ = (?g', _) |- _ =>
      assert (queue_inv g')
        by (apply (queue_inv_view g g' (flush_write_view _ _ _ _ _ H)); same_view);
      clear H
  | H : CloseLogFile_step _ _ ?g = CoNext _ ?g' |- _ =>
      assert (queue_inv g')
        by (apply (queue_inv_view g g' (CloseLogFile_step_next_view _ _ _ _ _ H)); same_view);
      clear H
  | H : CloseLogFile_step _ _ ?g = CoReturn ?g' |- _ =>
      assert (queue_inv g')
        by (apply (CloseLogFile_step_ret_inv _ _ _ _ H); same_view);
      clear H
  | H : initLog _ ?s0 = InitOk ?s' |- _ =>
      assert (queue_inv (sh s')) by (apply (initLog_ok_inv _ _ _ H); same_view);
      clear H
  | H : initLog _ ?s0 = InitErr ?s' _ |- _ =>
      assert (queue_inv (sh s'))
        by (apply (queue_inv_view _ _ (initLog_err_view _ _ _ _ H)); same_view);
      clear H
  end.

Lemma exec_queue_inv (l : Label) (s s' : Sys) :
  queue_inv (sh s) → exec l s = Next s' → queue_inv (sh s').
Proof.
  intros Hi. unfold_top.
  repeat case_match; try done; intros [= <-]; simplify_eq.
  all: proj_simpl; push_queue_inv.
  all: try same_view.
  all: try match goal with
       | |- queue_inv (WriteString ?e ?d ?g).1 =>
           apply (queue_inv_view g _ (WriteString_view e d g)); same_view
       end.
Qed.

Lemma run_queue_inv (tr : list Label) (s s' : Sys) :
  queue_inv (sh s) → run tr s = Next s' → queue_inv (sh s').
Proof.
  revert s. induction tr as [|l tr IH]; intros s Hi; cbn [run].
  - by intros [= <-].
  - destruct (exec l s) as [s1| | |] eqn:E; try done.
    apply IH. by eapply exec_queue_inv.
Qed.

Lemma init_queue_inv (dir : bool) (fs : gmap string string) :
  queue_inv (init_shared dir fs).
Proof. unfold queue_inv, channelFloor. cbn. split_and!; done. Qed.

(** X12: in every state that the program reaches from its start when the
    exported functions are called from one goroutine, whatever the calls,
    the schedule and the failures of the system calls, the configured
    channel size is at least 101 (it starts at 300 and
    [SetLogChannelSize] refuses less), the channel in use has a capacity of
    at least 101, and both channels have been made whenever the handle is
    not nil. *)
Theorem queue_capacity_at_least_floor (dir : bool) (fs : gmap string string)
    (tr : list Label) (s : Sys) :
  run tr (init_state dir fs) = Next s →
  queue_inv (sh s).
Proof. apply run_queue_inv, init_queue_inv. Qed.

Lemma queue_capacity_at_least_floor_witness : queue_inv (sh after_hundred).
Proof.
  apply (queue_capacity_at_least_floor false ∅ hundred_schedule after_hundred).
  vm_compute. reflexivity.
Defined.

(** *** The panics *)

Lemma initLog_panic (env : Env) (s : Sys) (m : string) :
  initLog env s = InitPanic m →
  m = "makechan: size out of range" ∧ (maxChanCap < channelSize (sh s) ∨ channelSize (sh s) < 0)%Z.
Proof.
  unfold initLog. repeat case_match; try done; intros [= <-]; simplify_eq.
  all: split; [done|]; proj_simpl.
  all: match goal with H : negb (makechan_ok ?n) = true |- _ =>
         apply negb_true_iff in H; pose proof (makechan_ok_spec n) as Hs;
         rewrite H in Hs end.
  all: destruct (Z.lt_ge_cases maxChanCap (channelSize (sh s))); [by left|].
  all: destruct (Z.lt_ge_cases (channelSize (sh s)) 0); [by right|].
  all: exfalso; enough (false = true) by done; apply Hs; lia.
Qed.

Lemma CloseLogFile_step_panic (env : Env) (st : CloseStage) (g : Shared) (m : string) :
  CloseLogFile_step env st g = CoPanic m →
  m = "close of closed channel" ∨
  (m = "close of nil channel" ∧ logFile g ≠ None ∧ closeChannel g = None).
Proof.
  unfold CloseLogFile_step. destruct st; repeat case_match; try done; intros [= <-];
    try (by left).
  right. split_and!; try done.
  match goal with H : _ || _ = false |- _ => apply orb_false_elim in H as [H _] end.
  by apply bool_decide_eq_false in H.
Qed.

Lemma send_panic (line : string) (g : Shared) (m : string) :
  send line g = SendPanic m → m = "send on closed channel".
Proof. unfold send. repeat case_match; try done. by intros [= <-]. Qed.

Ltac wg_positive :=
  exfalso;
  match goal with
  | H : consumers _ !! ?i = Some ?c |- _ =>
      let Hl := fresh in
      assert (is_live c = true) as Hl by (apply is_live_pc; congruence);
      pose proof (live_count_pos _ i c H Hl)
  end;
  prim_facts; unfold sys_inv in *; proj_simpl;
  destruct_and?; destruct_or?; destruct_and?; subst; lia.

Lemma CloseLogFile_step_ret_size (env : Env) (st : CloseStage) (g g' : Shared) :
  CloseLogFile_step env st g = CoReturn g' → channelSize g' = channelSize g.
Proof.
  unfold CloseLogFile_step. destruct st; repeat case_match; try done; by intros [= <-].
Qed.

Lemma exec_panic (l : Label) (s : Sys) (m : string) :
  sys_inv s → queue_inv (sh s) → exec l s = Panic m →
  m ∈ channel_panics ∨
  (m = "makechan: size out of range" ∧ (maxChanCap < channelSize (sh s))%Z).
Proof.
  intros Hs Hq. unfold_top.
  repeat case_match; try done; intros [= <-]; simplify_eq.
  all: try match goal with
       | H : send _ _ = SendPanic _ |- _ =>
           apply send_panic in H as ->; left; unfold channel_panics;
           rewrite !elem_of_cons; auto
       end.
  all: proj_simpl.
  all: try match goal with
       | H : CloseLogFile_step _ _ ?g = CoPanic _ |- _ =>
           assert (queue_inv g) as (_ & _ & Hc) by same_view;
           apply CloseLogFile_step_panic in H as [->|(-> & Hl & Hn)];
           [left; unfold channel_panics; rewrite !elem_of_cons; auto|by destruct (Hc Hl)]
       end.
  all: try match goal with
       | H : initLog _ ?s0 = InitPanic _ |- _ =>
           try match goal with
               | H' : CloseLogFile_step _ _ _ = CoReturn _ |- _ =>
                   pose proof (CloseLogFile_step_ret_size _ _ _ _ H')
               end;
           push_queue_inv;
           assert (queue_inv (sh s0)) as (Hn & _ & _) by same_view;
           apply initLog_panic in H as [-> [Hbig|Hneg]]; proj_simpl;
           [right; split; [done|]; congruence || lia|unfold channelFloor in Hn; lia]
       end.
  all: wg_positive.
Qed.

Lemma initLog_err_size (env : Env) (s s' : Sys) (err : string) :
  initLog env s = InitErr s' err → channelSize (sh s') = channelSize (sh s).
Proof.
  unfold initLog. repeat case_match; try done; intros [= <- <-]; by simplify_eq.
Qed.

Lemma exec_size (l : Label) (s s' : Sys) :
  exec l s = Next s' →
  channelSize (sh s') = channelSize (sh s) ∨
  ∃ n env, l = LCall (OpSetLogChannelSize n) env ∧ channelSize (sh s') = n.
Proof.
  unfold_top.
  repeat case_match; try done; intros [= <-]; simplify_eq.
  all: try match goal with
       | H' : CloseLogFile_step _ _ _ = CoReturn _ |- _ =>
           pose proof (CloseLogFile_step_ret_size _ _ _ _ H')
       end.
  all: try match goal with
       | H' : initLog _ _ = InitErr _ _ |- _ =>
           pose proof (initLog_err_size _ _ _ _ H')
       end.
  all: try match goal with
       | |- context [SetLogChannelSize ?n ?g] =>
           unfold SetLogChannelSize; destruct (n <? 101)%Z; [by left|right; by eexists _, _]
       end.
  all: left; prim_facts; proj_simpl.
  all: try match goal with
       | |- context [(WriteString ?e ?d ?g).1] =>
           pose proof (ctl_fields _ _ (WriteString_ctl e d g));
           generalize dependent (WriteString e d g).1; intros
       end.
  all: destruct_and?; destruct_or?; destruct_and?; subst; proj_simpl; congruence.
Qed.

Lemma run_panic (tr : list Label) (s : Sys) (m : string) :
  sys_inv s → queue_inv (sh s) → run tr s = Panic m →
  m ∈ channel_panics ∨
  (m = "makechan: size out of range" ∧
   ((maxChanCap < channelSize (sh s))%Z ∨
    ∃ n, OpSetLogChannelSize n ∈ calls tr ∧ (maxChanCap < n)%Z)).
Proof.
  revert s. induction tr as [|l tr IH]; intros s Hs Hq; cbn [run]; [done|].
  destruct (exec l s) as [s1|m1| |] eqn:E; try done.
  - intros H. apply IH in H; [|by eapply exec_sys_inv|by eapply exec_queue_inv].
    destruct H as [H|[-> [Hbig|(n & Hin & Hn)]]]; [by left|right..]; (split; [done|]).
    + destruct (exec_size _ _ _ E) as [Heq|(n & env & -> & Heq)].
      * left. by rewrite <- Heq.
      * right. exists n. split; [|by rewrite <- Heq]. rewrite calls_cons. by left.
    + right. exists n. split; [|done]. rewrite calls_cons.
      destruct l; [by right|done..].
  - intros [= <-]. destruct (exec_panic _ _ _ Hs Hq E) as [H|[-> H]]; [by left|].
    right. split; [done|]. by left.
Qed.

(** X13: the run-time panics of a run from the start of the program, when
    one goroutine calls [WriteSafe], [Write], [CloseLogFile], [SetLogPrefix],
    [SetLogWithColor] and [SetLogChannelSize] and the ticker interval and the
    time zone keep their initial values ([SetLogTickerTime] and
    [SetLogTimeZone] are not called).  Whatever the calls, the schedule and
    the failures of the system calls, a panic is [send on closed channel],
    [close of closed channel] or, only after a call of [SetLogChannelSize]
    with a size above the limit of [make], [makechan: size out of range].
    In particular [initLog] never makes a channel of a negative size,
    [CloseLogFile] never closes a nil channel, and the deferred [wg.Done] of
    [writeToFile] never takes the counter below zero. *)
Theorem only_channel_panics (dir : bool) (fs : gmap string string)
    (tr : list Label) (m : string) :
  run tr (init_state dir fs) = Panic m →
  m = "send on closed channel" ∨ m = "close of closed channel" ∨
  (m = "makechan: size out of range" ∧
   ∃ n, OpSetLogChannelSize n ∈ calls tr ∧ (maxChanCap < n)%Z).
Proof.
  intros H. apply run_panic in H; [|apply init_sys_inv|apply init_queue_inv].
  destruct H as [H|[-> [H|H]]].
  - unfold channel_panics in H. rewrite !elem_of_cons, elem_of_nil in H.
    destruct H as [H|[H|[]]]; auto.
  - exfalso. vm_compute in H. discriminate.
  - by right; right.
Qed.

Lemma only_channel_panics_witness :
  let send := "send on closed channel" in
  let close := "close of closed channel" in
  let make := "makechan: size out of range" in
  let big := (2 ^ 62)%Z in
  (send = send ∨ send = close ∨
   (send = make ∧
    ∃ n, OpSetLogChannelSize n
         ∈ calls (rotation_schedule ++ rotation_followup ++ [LCall (OpWriteSafe rec2) day2])
         ∧ (maxChanCap < n)%Z)) ∧
  (close = send ∨ close = close ∨
   (close = make ∧
    ∃ n, OpSetLogChannelSize n
         ∈ calls (rotation_schedule ++ rotation_followup ++ [LCall OpCloseLogFile day2])
         ∧ (maxChanCap < n)%Z)) ∧
  (make = send ∨ make = close ∨
   (make = make ∧
    ∃ n, OpSetLogChannelSize n
         ∈ calls [LCall (OpSetLogChannelSize big) day1; LCall (OpWriteSafe rec1) day1]
         ∧ (maxChanCap < n)%Z)).
Proof.
  cbn zeta. split_and!.
  - apply (only_channel_panics false ∅
             (rotation_schedule ++ rotation_followup ++ [LCall (OpWriteSafe rec2) day2])).
    vm_compute. reflexivity.
  - apply (only_channel_panics false ∅
             (rotation_schedule ++ rotation_followup ++ [LCall OpCloseLogFile day2])).
    vm_compute. reflexivity.
  - apply (only_channel_panics false ∅
             [LCall (OpSetLogChannelSize (2 ^ 62)) day1; LCall (OpWriteSafe rec1) day1]).
    vm_compute. reflexivity.
Defined.

(** *** One consumer *)

Lemma exec_one_consumer (l : Label) (s s' : Sys) :
  sys_inv s → wg (sh s) ≤ 1 → exec l s = Next s' → wg (sh s') ≤ 1.
Proof.
  intros Hs Hw. unfold_top.
  repeat case_match; try done; intros [= <-]; simplify_eq.
  all: prim_facts; unfold sys_inv, handle_inv in *; proj_simpl.
  all: try match goal with
       | |- context [SetLogChannelSize ?n ?g] =>
           pose proof (SetLogChannelSize_fields n g); destruct_and!
       end.
  all: try match goal with
       | |- context [(WriteString ?e ?d ?g).1] =>
           pose proof (ctl_fields _ _ (WriteString_ctl e d g));
           generalize dependent (WriteString e d g).1; intros
       end.
  all: destruct_and?; destruct_or?; destruct_and?; destruct_or?; subst; proj_simpl.
  all: try lia.
  all: match goal with
       | Hz : logFile ?g = None → wg ?g = 0, Hi : logFile ?g = None ↔ _ |- _ =>
           assert (wg g = 0) by (apply Hz; first [assumption | apply Hi; assumption])
       end; lia.
Qed.

Lemma run_one_consumer (tr : list Label) (s s' : Sys) :
  sys_inv s → wg (sh s) ≤ 1 → run tr s = Next s' → wg (sh s') ≤ 1.
Proof.
  revert s. induction tr as [|l tr IH]; intros s Hs Hw; cbn [run].
  - by intros [= <-].
  - destruct (exec l s) as [s1| | |] eqn:E; try done.
    apply IH; [by eapply exec_sys_inv|by eapply exec_one_consumer].
Qed.

(** X14: in every state that the program reaches from its start when the
    exported functions are called from one goroutine, at most one
    [writeToFile] goroutine has not returned, the counter of the wait group
    is the number of these goroutines, and none of them runs while the
    handle is nil: [initLog] starts a consumer only when the one before has
    returned. *)
Theorem at_most_one_consumer (dir : bool) (fs : gmap string string)
    (tr : list Label) (s : Sys) :
  run tr (init_state dir fs) = Next s →
  live_count (consumers s) ≤ 1 ∧
  wg (sh s) = live_count (consumers s) ∧
  (logFile (sh s) = None → live_count (consumers s) = 0).
Proof.
  intros H.
  pose proof (run_sys_inv _ _ _ (init_sys_inv dir fs) H) as (_ & Hw & Hn).
  pose proof (run_one_consumer _ _ _ (init_sys_inv dir fs) (Nat.le_0_l 1) H) as H1.
  rewrite <- Hw. done.
Qed.

Lemma at_most_one_consumer_witness :
  live_count (consumers after_session) ≤ 1 ∧
  wg (sh after_session) = live_count (consumers after_session) ∧
  (logFile (sh after_session) = None → live_count (consumers after_session) = 0).
Proof.
  apply (at_most_one_consumer false ∅ session_schedule after_session).
  vm_compute. reflexivity.
Defined.

(** ** The ticker *)

(** X15: the tick of the consumer.  With an empty buffer the tick changes
    nothing.  With lines in the buffer, on the date of the file and with a
    write that succeeds, the tick appends the whole buffer to the file of
    the handle (stripped when the colour flag is on) and empties the buffer,
    however few the lines are; the channel is not read. *)
Theorem tick_flushes_buffer (env : Env) (i : nat) (c : Consumer) (s : Sys) (path : string) :
  consumers s !! i = Some c →
  cpc c = CSelect →
  logFile (sh s) = Some path →
  currentLogDate (sh s) = env_today env →
  env_write env = None →
  ∃ s', exec (LCons i ATick env) s = Next s' ∧
        (buffer c = [] → s' = s) ∧
        consumers s' = <[i := mkConsumer [] CSelect]> (consumers s) ∧
        content (sh s') path
        = content (sh s) path +:+ persist (LogWithColor (sh s)) (Str.Join (buffer c) "") ∧
        writeChannel (sh s') = writeChannel (sh s) ∧
        mainpc s' = mainpc s.
Proof.
  intros Hc Hpc Hf Hd Hw. cbn [exec]. rewrite Hc.
  unfold writeToFile_step. rewrite Hpc.
  destruct (buffer c) as [|e buf] eqn:Eb; cbn [length Nat.ltb Nat.leb].
  - exists s. split_and!; try done.
    + symmetry. apply list_insert_id. rewrite Hc. f_equal.
      destruct c as [b pc]. cbn in *. by subst.
    + unfold Str.Join. cbn [String.concat]. by rewrite persist_empty, append_nil_r.
  - unfold flushBuffer, dateChanged. rewrite Hd, String.eqb_refl. cbn [negb].
    unfold flush_write, WriteString. rewrite Hf, Hw. cbn [resume].
    eexists. split; [reflexivity|]. proj_simpl.
    split_and!; try done.
    unfold content at 1. proj_simpl. by rewrite lookup_insert_eq.
Qed.

Lemma tick_flushes_buffer_witness :
  ∃ s', exec (LCons 0 ATick day1) one_line_received = Next s' ∧
        ([line_of true rec1] = [] → s' = one_line_received) ∧
        consumers s' = <[0 := mkConsumer [] CSelect]> (consumers one_line_received) ∧
        content (sh s') path1
        = content (sh one_line_received) path1
          +:+ persist (LogWithColor (sh one_line_received))
                (Str.Join [line_of true rec1] "") ∧
        writeChannel (sh s') = writeChannel (sh one_line_received) ∧
        mainpc s' = mainpc one_line_received.
Proof.
  apply (tick_flushes_buffer day1 0 (mkConsumer [line_of true rec1] CSelect)
           one_line_received path1); reflexivity.
Defined.

(** ** [SetLogPrefix] *)

(** X16: on a closed writer [SetLogPrefix] returns in one step and, when
    the system calls succeed and the configured size is one that [make]
    accepts, leaves the writer open: the prefix is stored,
    the file of the new prefix and of today's date is opened (no file loses
    a byte) and a consumer is started, although no record has been written. *)
Theorem SetLogPrefix_opens_at_once (d p : string) (s : Sys) :
  mainpc s = MIdle →
  logFile (sh s) = None →
  (0 ≤ channelSize (sh s) ≤ maxChanCap)%Z →
  ∃ s', exec (LCall (OpSetLogPrefix p) (env_ok d)) s = Next s' ∧
        mainpc s' = MIdle ∧
        LogfilePrefix (sh s') = p ∧
        logFile (sh s') = Some (logFilePath p d) ∧
        isLogFileClosed (sh s') = false ∧
        currentLogDate (sh s') = d ∧
        (∀ q, content (sh s') q = content (sh s) q) ∧
        wg (sh s') = S (wg (sh s)) ∧
        consumers s' = consumers s ++ [mkConsumer [] CSelect].
Proof.
  intros Hm Hf Hn. cbn [exec call]. rewrite Hm.
  unfold main_close, CloseLogFile_step. proj_simpl. rewrite Hf.
  rewrite bool_decide_eq_true_2 by done. cbn [orb after_close].
  match goal with
  | |- context [initLog ?e ?s0] =>
      destruct (initLog_returns_ok e s0) as (s1 & E & _); [by right|done|done|]
  end.
  rewrite E. eexists. split; [reflexivity|].
  apply initLog_ok in E. cbn zeta in E. proj_simpl.
  destruct E as (Hf1 & Hcl & Hdt & Hw & Hcc & Hwg & Hcs & Hm1 & Hp & _ & _ & Hfs).
  split_and!; try done.
  intros q. unfold content at 1. rewrite Hfs.
  apply (content_insert_same (set_prefix p (sh s))).
Qed.

(** ** [SetLogPrefix] on an open writer *)

Ltac open_switching H :=
  let cp := fresh "cp" in
  destruct H as (cp & Hcp & [Hn Hmax] & Hm & Hf & Hcl & Hd & Hp & Hcol & Hwg & Hw & Hcc
                 & Hcs & HF & HC);
  match goal with
  | s : Sys |- _ =>
      let g := fresh "g" in
      let pc := fresh "pc" in
      let cs := fresh "cs" in
      destruct s as [g pc cs];
      destruct g as [pre wc dt lf cl n w cc k dir m ev]
  end;
  cbn in Hn, Hmax, Hm, Hf, Hcl, Hd, Hp, Hcol, Hwg, Hw, Hcc, Hcs; subst.

Lemma insert_same_default (m : gmap string string) (p q : string) :
  default "" (<[q := default "" (m !! q)]> m !! p) = default "" (m !! p).
Proof.
  destruct (decide (q = p)) as [->|Hne].
  - by rewrite lookup_insert_eq.
  - by rewrite lookup_insert_ne.
Qed.

Section switch.
Variables d p0 p path F : string.
Variable C : string → string.
Variable col : bool.
Variable old : list Consumer.

Lemma switch_call (buf : list string) (s : Sys) :
  switching d p0 path F C col old MIdle false false CSelect 1 buf s →
  ∃ s', exec (LCall (OpSetLogPrefix p) (env_ok d)) s = Next s' ∧
        switching d p path F C col old (MClose ClCloseWrite AInit) true false CSelect 1 buf s'.
Proof.
  intros H. open_switching H.
  destruct (exec _ _) as [s1| | |] eqn:Hx; fire Hx; try done.
  injection Hx as <-. (eexists; split; [done|]). exists cp. by fin.
Qed.

Lemma switch_signal (buf : list string) (s : Sys) :
  switching d p path F C col old (MClose ClCloseWrite AInit) true false CSelect 1 buf s →
  ∃ s', exec (LCons (length old) AQuit (env_ok d)) s = Next s' ∧
        switching d p path (F +:+ persist col (Str.Join buf "")) C col old
          (MClose ClCloseWrite AInit) true false CDrain 1 [] s'.
Proof.
  intros H. open_switching H.
  destruct (exec _ _) as [s1| | |] eqn:Hx; fire Hx;
    (destruct (0 <? length buf) eqn:Eb; eval_step Hx); try done.
  all: injection Hx as <-; (eexists; split; [done|]); exists cp; fin.
  all: try (intros q Hq; rewrite ?lookup_insert_ne by done; by apply HC).
  all: destruct buf; [|done].
  - done.
  - unfold Str.Join. cbn [String.concat]. by rewrite persist_empty, append_nil_r.
Qed.

Lemma switch_close_channel (s : Sys) :
  switching d p path F C col old (MClose ClCloseWrite AInit) true false CDrain 1 [] s →
  ∃ s', exec (LMain (env_ok d)) s = Next s' ∧
        switching d p path F C col old (MClose ClWait AInit) true true CDrain 1 [] s'.
Proof.
  intros H. open_switching H.
  destruct (exec _ _) as [s1| | |] eqn:Hx; fire Hx; try done.
  injection Hx as <-. (eexists; split; [done|]). exists cp. by fin.
Qed.

Lemma switch_drain (s : Sys) :
  switching d p path F C col old (MClose ClWait AInit) true true CDrain 1 [] s →
  ∃ s', exec (LCons (length old) AStep (env_ok d)) s = Next s' ∧
        switching d p path F C col old (MClose ClWait AInit) true true CDone 0 [] s'.
Proof.
  intros H. open_switching H.
  destruct (exec _ _) as [s1| | |] eqn:Hx; fire Hx; eval_step Hx; try done.
  injection Hx as <-. (eexists; split; [done|]). exists cp. by fin.
Qed.

Lemma switch_reopen (s : Sys) :
  switching d p path F C col old (MClose ClWait AInit) true true CDone 0 [] s →
  ∃ s', exec (LMain (env_ok d)) s = Next s' ∧
        LogfilePrefix (sh s') = p ∧
        logFile (sh s') = Some (logFilePath p d) ∧
        content (sh s') path = F ∧
        (∀ q, q ≠ path → content (sh s') q = C q) ∧
        ready d (old ++ [mkConsumer [] CDone]) s'.
Proof.
  intros H. open_switching H.
  assert (makechan_ok n = true) as Hneg by (apply makechan_ok_spec; lia).
  destruct (exec _ _) as [s1| | |] eqn:Hx;
    fire Hx; unfold after_close, initLog in Hx; ev_in Hx;
    (destruct dir; ev_in Hx; rewrite Hneg in Hx; ev_in Hx); try done.
  all: injection Hx as <-; eexists; split_and!; try done.
  all: try (ev; by apply insert_same_default).
  all: try (intros q Hq; ev; rewrite insert_same_default; by apply HC).
  all: eexists _, n, _; fin; by rewrite <- app_assoc.
Qed.
End switch.

(** X17: [SetLogPrefix] on an open writer.  From a state in which the
    producer is idle, the channel is empty, the consumer waits with the
    lines [buf] in its buffer and the configured size is positive and one
    that [make] accepts, the call runs to its end when the consumer
    takes the close signal and drains: the lines that the consumer held are
    appended to the file that was open (stripped when the colour flag is
    on), no other file changes, and the call leaves the writer open on the
    file of the new prefix with a new consumer, the old one having
    returned. *)
Theorem SetLogPrefix_switches_file (d p path : string) (old : list Consumer)
    (buf : list string) (s : Sys) :
  ready d old s →
  (0 < channelSize (sh s) ≤ maxChanCap)%Z →
  logFile (sh s) = Some path →
  consumers s = old ++ [mkConsumer buf CSelect] →
  ∃ s', run (prefix_schedule (length old) p (env_ok d)) s = Next s' ∧
        LogfilePrefix (sh s') = p ∧
        logFile (sh s') = Some (logFilePath p d) ∧
        content (sh s') path
        = content (sh s) path +:+ persist (LogWithColor (sh s)) (Str.Join buf "") ∧
        (∀ q, q ≠ path → content (sh s') q = content (sh s) q) ∧
        ready d (old ++ [mkConsumer [] CDone]) s'.
Proof.
  intros (buf' & cp & path' & Hcp & Hm & Hf' & Hcl & Hd & Hwg & Hw & Hcc & Hcs')
    [Hn Hmax] Hf Hcs.
  assert (H0 : switching d (LogfilePrefix (sh s)) path (content (sh s) path)
                 (content (sh s)) (LogWithColor (sh s)) old MIdle false false CSelect 1 buf s).
  { exists cp. split_and!; done. }
  unfold prefix_schedule. cbn [run].
  destruct (switch_call _ _ p _ _ _ _ _ _ _ H0) as (s1 & -> & H1).
  destruct (switch_signal _ _ _ _ _ _ _ _ _ H1) as (s2 & -> & H2).
  destruct (switch_close_channel _ _ _ _ _ _ _ _ H2) as (s3 & -> & H3).
  destruct (switch_drain _ _ _ _ _ _ _ _ H3) as (s4 & -> & H4).
  destruct (switch_reopen _ _ _ _ _ _ _ _ H4) as (s5 & -> & H5).
  by exists s5.
Qed.

Lemma SetLogPrefix_switches_file_witness :
  ∃ s', run (prefix_schedule 0 "app" (env_ok "2024-01-01")) one_line_received = Next s' ∧
        LogfilePrefix (sh s') = "app" ∧
        logFile (sh s') = Some (logFilePath "app" "2024-01-01") ∧
        content (sh s') path1
        = content (sh one_line_received) path1
          +:+ persist (LogWithColor (sh one_line_received))
                (Str.Join [line_of true rec1] "") ∧
        (∀ q, q ≠ path1 → content (sh s') q = content (sh one_line_received) q) ∧
        ready "2024-01-01" ([] ++ [mkConsumer [] CDone]) s'.
Proof.
  apply (SetLogPrefix_switches_file "2024-01-01" "app" path1 [] [line_of true rec1]
           one_line_received); try reflexivity.
  - eexists _, 300%Z, _. split_and!; reflexivity.
  - split; [reflexivity|discriminate].
Defined.

Lemma SetLogPrefix_opens_at_once_witness :
  ∃ s', exec (LCall (OpSetLogPrefix "app") (env_ok "2024-01-01")) (init_state false ∅)
        = Next s' ∧
        mainpc s' = MIdle ∧
        LogfilePrefix (sh s') = "app" ∧
        logFile (sh s') = Some (logFilePath "app" "2024-01-01") ∧
        isLogFileClosed (sh s') = false ∧
        currentLogDate (sh s') = "2024-01-01" ∧
        (∀ q, content (sh s') q = content (sh (init_state false ∅)) q) ∧
        wg (sh s') = S (wg (sh (init_state false ∅))) ∧
        consumers s' = consumers (init_state false ∅) ++ [mkConsumer [] CSelect].
Proof.
  apply (SetLogPrefix_opens_at_once "2024-01-01" "app" (init_state false ∅));
    [reflexivity|reflexivity|split; discriminate].
Defined.

(** ** The lines of the file *)

(** X18: what a line of the file looks like.  For a record whose time,
    level and message hold no escape byte, the bytes that reach the file are
    [[time]  level  message] and a newline when the colour flag is on (the
    codes are stripped, the spaces around them stay), and
    [[time] [level]  message] and a newline when it is off: the flag changes
    the layout of the file, not only the colours of the console. *)
Theorem file_line_format (l : ToLog) :
  clean_record l →
  persist true (line_of true l)
  = "[" +:+ logTime l +:+ "]  " +:+ logType l +:+ "  " +:+ logContext l +:+ newline ∧
  persist false (line_of false l)
  = "[" +:+ logTime l +:+ "] [" +:+ logType l +:+ "]  " +:+ logContext l +:+ newline.
Proof.
  intros H. split.
  - rewrite persist_clean_line by done. unfold plain_line. reflexivity.
  - unfold persist, line_of, CreateFullLog. cbn [negb FullLog]. by flatten_append.
Qed.

Lemma file_line_format_witness :
  persist true (line_of true rec1) = "[10:00:00]  info  hello" +:+ newline ∧
  persist false (line_of false rec1) = "[10:00:00] [info]  hello" +:+ newline.
Proof. apply (file_line_format rec1). repeat split. Defined.

(** ** [WriteSafe] and the queue *)

(** X19: [WriteSafe] on an open writer, by the state of the queue.  With
    room in the channel the line is queued behind the lines that wait and
    the call returns.  With a full channel nothing is dropped: the caller
    stays blocked in the send, and goes on only when there is room again.
    On a closed channel (a [CloseLogFile] is under way) the call panics. *)
Theorem WriteSafe_by_queue_state (env : Env) (l : ToLog) (s : Sys) (path : string)
    (ch : Chan) :
  mainpc s = MIdle →
  logFile (sh s) = Some path →
  writeChannel (sh s) = Some ch →
  let line := line_of (LogWithColor (sh s)) l in
  let queued (x : Sys) :=
    with_sh (emit (EvSend line)
               (set_wchan (Some (mkChan (items ch ++ [line]) (cap ch) false)) (sh x))) x in
  (closed ch = true →
     exec (LCall (OpWriteSafe l) env) s = Panic "send on closed channel") ∧
  (closed ch = false → (Z.of_nat (length (items ch)) < cap ch)%Z →
     exec (LCall (OpWriteSafe l) env) s = Next (queued s)) ∧
  (closed ch = false → (cap ch ≤ Z.of_nat (length (items ch)))%Z →
     exec (LCall (OpWriteSafe l) env) s = Next (with_main (MSend line) s) ∧
     exec (LMain env) (with_main (MSend line) s) = Disabled) ∧
  (∀ x, mainpc x = MSend line → writeChannel (sh x) = Some ch → closed ch = false →
        (Z.of_nat (length (items ch)) < cap ch)%Z →
        exec (LMain env) x = Next (with_main MIdle (queued x))).
Proof.
  intros Hm Hf Hw line queued. subst line queued.
  cbn [exec call]. rewrite Hm. unfold WriteSafe, lazy_init. rewrite Hf.
  unfold send. proj_simpl. rewrite Hw. unfold line_of.
  split_and!.
  - by intros ->.
  - intros -> Hlt. apply Z.ltb_lt in Hlt. by rewrite Hlt.
  - intros -> Hge. apply Z.ltb_ge in Hge. by rewrite Hge.
  - intros x Hx Hxw Hcl Hlt. apply Z.ltb_lt in Hlt. by rewrite Hx, Hxw, Hcl, Hlt.
Qed.

Lemma WriteSafe_by_queue_state_witness :
  let ch := mkChan [] 300 false in
  let line := line_of (LogWithColor (sh one_line_received)) rec2 in
  let queued (x : Sys) :=
    with_sh (emit (EvSend line)
               (set_wchan (Some (mkChan (items ch ++ [line]) (cap ch) false)) (sh x))) x in
  (closed ch = true →
     exec (LCall (OpWriteSafe rec2) day1) one_line_received
     = Panic "send on closed channel") ∧
  (closed ch = false → (Z.of_nat (length (items ch)) < cap ch)%Z →
     exec (LCall (OpWriteSafe rec2) day1) one_line_received
     = Next (queued one_line_received)) ∧
  (closed ch = false → (cap ch ≤ Z.of_nat (length (items ch)))%Z →
     exec (LCall (OpWriteSafe rec2) day1) one_line_received
     = Next (with_main (MSend line) one_line_received) ∧
     exec (LMain day1) (with_main (MSend line) one_line_received) = Disabled) ∧
  (∀ x, mainpc x = MSend line → writeChannel (sh x) = Some ch → closed ch = false →
        (Z.of_nat (length (items ch)) < cap ch)%Z →
        exec (LMain day1) x = Next (with_main MIdle (queued x))).
Proof.
  apply (WriteSafe_by_queue_state day1 rec2 one_line_received path1 (mkChan [] 300 false));
    reflexivity.
Defined.

(** ** The colour flag between the call and the flush *)

Lemma mem_app (c : ascii) (a b : string) : Str.mem c (a +:+ b) = Str.mem c a || Str.mem c b.
Proof.
  induction a as [|x a IH]; [done|].
  rewrite append_cons. cbn [Str.mem]. rewrite IH. by rewrite orb_assoc.
Qed.

(** X20: the colour flag is read twice, by the formatter when [WriteSafe]
    is called and by [flushBuffer] when the batch is written.  A line that
    was formatted with the flag on and is still in the buffer when
    [SetLogWithColor(false)] is called reaches the file with its escape
    bytes. *)
Theorem color_switch_before_flush (env : Env) (i : nat) (c : Consumer) (s : Sys)
    (path : string) (l : ToLog) :
  mainpc s = MIdle →
  consumers s !! i = Some c →
  cpc c = CSelect →
  buffer c = [line_of true l] →
  logFile (sh s) = Some path →
  currentLogDate (sh s) = env_today env →
  env_write env = None →
  ∃ s', run [LCall (OpSetLogWithColor false) env; LCons i ATick env] s = Next s' ∧
        content (sh s') path = content (sh s) path +:+ line_of true l ∧
        Str.mem ESC (line_of true l) = true.
Proof.
  intros Hm Hc Hpc Hb Hf Hd Hw. cbn [run exec call]. rewrite Hm. proj_simpl. rewrite Hc.
  unfold writeToFile_step. rewrite Hpc, Hb. cbn [length Nat.ltb Nat.leb].
  unfold flushBuffer, dateChanged. proj_simpl. unfold SetLogWithColor. proj_simpl.
  rewrite Hd, String.eqb_refl. cbn [negb].
  unfold flush_write, WriteString. proj_simpl. rewrite Hf, Hw. cbn [resume].
  eexists. split; [reflexivity|]. split.
  - unfold content at 1. proj_simpl. rewrite lookup_insert_eq. cbn [default].
    unfold Str.Join. cbn [String.concat]. done.
  - unfold line_of, CreateFullLog. cbn [negb FullLog].
    rewrite !mem_app. cbn [colorReset Str.mem]. rewrite Ascii.eqb_refl.
    cbn [orb]. by rewrite ?orb_true_r.
Qed.

Lemma color_switch_before_flush_witness :
  ∃ s', run [LCall (OpSetLogWithColor false) day1; LCons 0 ATick day1] one_line_received
        = Next s' ∧
        content (sh s') path1 = content (sh one_line_received) path1 +:+ line_of true rec1 ∧
        Str.mem ESC (line_of true rec1) = true.
Proof.
  apply (color_switch_before_flush day1 0 (mkConsumer [line_of true rec1] CSelect)
           one_line_received path1 rec1); reflexivity.
Defined.

(** ** [Write] beside [WriteSafe] *)

Lemma WriteString_ok (env : Env) (data : string) (g : Shared) (path : string) :
  logFile g = Some path → env_write env = None →
  WriteString env data g
  = (emit (EvWrite path data) (set_files (<[path := content g path +:+ data]> (files g)) g),
     None).
Proof. intros Hf Hw. unfold WriteString. by rewrite Hf, Hw. Qed.

(** X21: [Write] does not go through the queue, so it overtakes the lines
    that [WriteSafe] has queued: when the consumer holds the lines [buf] in
    its buffer, a [Write] and then the flush of the tick leave the line of
    [Write] in the file before the lines of [buf], although they were
    written first by the program. *)
Theorem Write_overtakes_buffer (env : Env) (i : nat) (c : Consumer) (s : Sys)
    (path : string) (l : ToLog) :
  mainpc s = MIdle →
  consumers s !! i = Some c →
  cpc c = CSelect →
  buffer c ≠ [] →
  logFile (sh s) = Some path →
  currentLogDate (sh s) = env_today env →
  env_write env = None →
  let col := LogWithColor (sh s) in
  ∃ s', run [LCall (OpWrite l) env; LCons i ATick env] s = Next s' ∧
        content (sh s') path
        = content (sh s) path +:+ persist col (line_of col l)
          +:+ persist col (Str.Join (buffer c) "").
Proof.
  intros Hm Hc Hpc Hb Hf Hd Hw col. subst col.
  cbn [run exec call]. rewrite Hm. unfold Write, lazy_init. rewrite Hf.
  rewrite (WriteString_ok _ _ _ path) by done. cbn [fst]. proj_simpl. rewrite Hc.
  unfold writeToFile_step. rewrite Hpc.
  destruct (buffer c) as [|e buf] eqn:Eb; [done|]. cbn [length Nat.ltb Nat.leb].
  unfold flushBuffer, dateChanged. proj_simpl. rewrite Hd, String.eqb_refl. cbn [negb].
  unfold flush_write. rewrite (WriteString_ok _ _ _ path) by done. cbn [resume].
  eexists. split; [reflexivity|].
  unfold content at 1. proj_simpl. rewrite lookup_insert_eq. cbn [default].
  unfold content at 1. proj_simpl. rewrite lookup_insert_eq. cbn [default].
  rewrite <- append_assoc. f_equal. f_equal.
  unfold persist, line_of. destruct (LogWithColor (sh s)); [|done].
  by rewrite stripColors_keeps_nl.
Qed.

Lemma Write_overtakes_buffer_witness :
  ∃ s', run [LCall (OpWrite rec2) day1; LCons 0 ATick day1] one_line_received = Next s' ∧
        content (sh s') path1
        = content (sh one_line_received) path1
          +:+ persist (LogWithColor (sh one_line_received))
                (line_of (LogWithColor (sh one_line_received)) rec2)
          +:+ persist (LogWithColor (sh one_line_received))
                (Str.Join (buffer (mkConsumer [line_of true rec1] CSelect)) "").
Proof.
  apply (Write_overtakes_buffer day1 0 (mkConsumer [line_of true rec1] CSelect)
           one_line_received path1 rec2); try reflexivity.
  discriminate.
Defined.

(** X22: [Write] drops the error of the write.  When the write fails after
    [n] bytes, [Write] returns normally, the file holds its previous bytes
    followed by the first [n] bytes of the line, and nothing is printed: the
    only event is the write itself (a flush of the consumer prints the error
    and keeps the batch instead). *)
Theorem Write_drops_write_error (env : Env) (l : ToLog) (s : Sys) (path err : string)
    (n : nat) :
  logFile (sh s) = Some path →
  env_write env = Some (n, err) →
  let col := LogWithColor (sh s) in
  let part := String.substring 0 n (persist col (line_of col l)) in
  ∃ s', Write env l s = Next s' ∧
        content (sh s') path = content (sh s) path +:+ part ∧
        events (sh s') = events (sh s) ++ [EvWrite path part] ∧
        mainpc s' = mainpc s ∧ consumers s' = consumers s ∧
        writeChannel (sh s') = writeChannel (sh s).
Proof.
  intros Hf Hw col part. subst col part.
  assert (Hdata : (if LogWithColor (sh s)
                   then stripColors (FullLog (CreateFullLog (LogWithColor (sh s)) l))
                        +:+ newline
                   else FullLog (CreateFullLog (LogWithColor (sh s)) l) +:+ newline)
                  = persist (LogWithColor (sh s)) (line_of (LogWithColor (sh s)) l)).
  { unfold persist, line_of. destruct (LogWithColor (sh s)); [|done].
    by rewrite stripColors_keeps_nl. }
  unfold Write, lazy_init. rewrite Hf, Hdata.
  unfold WriteString. rewrite Hf, Hw. cbn [fst].
  eexists. split; [reflexivity|]. proj_simpl. split_and!; try done.
  unfold content at 1. proj_simpl. by rewrite lookup_insert_eq.
Qed.

Lemma Write_drops_write_error_witness :
  let s := one_line_received in
  let col := LogWithColor (sh s) in
  let part := String.substring 0 5 (persist col (line_of col rec2)) in
  ∃ s', Write (mkEnv "2024-01-01" None None (Some (5, "no space left on device")) None)
          rec2 s = Next s' ∧
        content (sh s') path1 = content (sh s) path1 +:+ part ∧
        events (sh s') = events (sh s) ++ [EvWrite path1 part] ∧
        mainpc s' = mainpc s ∧ consumers s' = consumers s ∧
        writeChannel (sh s') = writeChannel (sh s).
Proof.
  apply (Write_drops_write_error
           (mkEnv "2024-01-01" None None (Some (5, "no space left on device")) None)
           rec2 one_line_received path1 "no space left on device" 5); reflexivity.
Defined.
